(** * A multiway search tree with bidirectional iterators

    Shallow embedding of [btree.h] and [btree_iterator.h].

    The C++ code is a pointer graph: every [Node] lives on the free store,
    owns its children through [shared_ptr], and carries two raw
    back-pointers ([parent], [root]).  The embedding keeps that graph: a
    [Store] is an arena of nodes addressed by their index together with the
    [btree] objects that point into it.  [make_shared<Node>] appends to the
    arena, a member assignment rewrites one cell.

    Every dereference the C++ performs is checked: reading through a null
    pointer, indexing a vector outside its bounds, or dereferencing a vector
    iterator that does not denote an element yields [Fault].  A vector
    iterator is the pointer it wraps: null for a vector without elements,
    otherwise a buffer and an offset.  Recursive member functions and loops
    are structurally recursive on a fuel argument; a run that exhausts it
    yields [OutOfFuel], which the theorems below rule out for every store
    built through the public interface.

    Sizes and offsets are natural numbers.  The number of child slots is
    computed as the code computes it, in 64 bits; the stores built through
    the interface are those whose capacities lie below [2^31], where no
    size of the code wraps around and every conversion between its integer
    types is exact.

    The element type [T] of the templates is instantiated with [Z]. *)

From stdpp Require Import base functions list sorting strings pretty.
From Stdlib Require Import ZArith Lia.

(** ** Results of checked computations *)

Inductive Result (A : Type) : Type :=
  | Ok (a : A)
  | Fault
  | OutOfFuel.
Arguments Ok {A} a.
Arguments Fault {A}.
Arguments OutOfFuel {A}.

#[global] Instance Result_ret : MRet Result := fun A a => Ok a.
#[global] Instance Result_bind : MBind Result := fun A B f m =>
  match m with
  | Ok a => f a
  | Fault => Fault
  | OutOfFuel => OutOfFuel
  end.

(** [opt o] reads a location that must exist. *)
Definition opt {A} (o : option A) : Result A :=
  match o with
  | Some a => Ok a
  | None => Fault
  end.

(** ** Data model *)

Abbreviation addr := nat (only parsing).

(** [struct Node], with the members in declaration order. *)
Record Node := mkNode {
  root : nat;                       (* btree *root *)
  parent : option addr;             (* Node *parent *)
  children : list (option addr);    (* std::vector<std::shared_ptr<Node>> *)
  maxSize : nat;                    (* const size_t maxSize *)
  val : list Z                      (* std::vector<T> val *)
}.

(** [class btree]: its only data member is the owning pointer to the root. *)
Record btree := mkBtree { rootNode : option addr }.

(** The free store: node cells by address, and the [btree] objects. *)
Record Store := mkStore {
  nodes : list Node;
  trees : list btree
}.

Definition empty_store : Store := mkStore [] [].

(** A pointer into the buffer of a [std::vector<T>]: the node whose [val]
    owns the buffer, and the offset from its first element. *)
Record cursor := mkVI { vec : addr; idx : nat }.

#[global] Instance cursor_eq_dec : EqDecision cursor.
Proof. solve_decision. Defined.

(** A [std::vector<T>::iterator] wraps a raw pointer.  A vector that holds
    no element has no buffer (no vector of the program is ever shrunk or
    reserved), and its [begin()] and [end()] wrap the null pointer: [None]
    here, one and the same value for every such vector. *)
Abbreviation valIterator := (option cursor) (only parsing).

(** The two iterator classes have the same members and, up to constness,
    the same member functions; [access] tells them apart. *)
Inductive access := Mutable | ReadOnly.

Record position (k : access) := mkPos {
  ptr : addr;            (* Node *ptr *)
  pos : valIterator      (* valIterator pos *)
}.
Arguments mkPos {k} ptr pos.
Arguments ptr {k} p.
Arguments pos {k} p.

Definition btree_iterator := position Mutable.
Definition const_btree_iterator := position ReadOnly.

(** ** Store access *)

Definition node_at (s : Store) (a : addr) : Result Node := opt (nodes s !! a).

Definition set_node (s : Store) (a : addr) (n : Node) : Store :=
  mkStore (<[a := n]> (nodes s)) (trees s).

(** [std::make_shared<Node>(...)]: a fresh cell at the end of the arena. *)
Definition alloc (s : Store) (n : Node) : Store * addr :=
  (mkStore (nodes s ++ [n]) (trees s), length (nodes s)).

Definition tree_at (s : Store) (t : nat) : Result btree := opt (trees s !! t).

Definition set_tree (s : Store) (t : nat) (b : btree) : Store :=
  mkStore (nodes s) (<[t := b]> (trees s)).

(** [children[i]] through [operator[]]. *)
Definition child_at (n : Node) (i : nat) : Result (option addr) :=
  opt (children n !! i).

Definition with_val (n : Node) (v : list Z) : Node :=
  mkNode (root n) (parent n) (children n) (maxSize n) v.
Definition with_children (n : Node) (cs : list (option addr)) : Node :=
  mkNode (root n) (parent n) cs (maxSize n) (val n).
Definition with_root (n : Node) (b : nat) : Node :=
  mkNode b (parent n) (children n) (maxSize n) (val n).
Definition with_parent (n : Node) (p : option addr) : Node :=
  mkNode (root n) p (children n) (maxSize n) (val n).

(** Fuel handed to every recursion and loop started on [s]: one more than
    the number of cells plus the number of stored elements. *)
Definition fuel_of (s : Store) : nat :=
  S (length (nodes s) + sum_list_with (fun n => length (val n)) (nodes s)).

(** ** The sorted buffer *)

(** [std::lower_bound(val.begin(), val.end(), e) - val.begin()]: the offset
    of the first element that is not less than [e]. *)
Fixpoint lower_bound (v : list Z) (e : Z) : nat :=
  match v with
  | [] => 0
  | x :: v' => if (x <? e)%Z then S (lower_bound v' e) else 0
  end.

(** [val.insert(val.begin() + p, e)]. *)
Definition vec_insert (p : nat) (e : Z) (v : list Z) : list Z :=
  take p v ++ e :: drop p v.

(** [size + 1] as the member initialisers [children{size+1, nullptr}]
    compute it: in [size_t], 64 bits wide, where the sum wraps around to 0
    for the largest value. *)
Definition slots (size : nat) : nat :=
  Z.to_nat ((Z.of_nat size + 1) mod 2 ^ 64).

(** [Node(btree *b, Node *n, size)]. *)
Definition new_node (b : nat) (n : option addr) (size : nat) : Node :=
  mkNode b n (replicate (slots size) None) size [].

(** [val.begin() + i] for the [val] of node [n], which lives at [a]; with
    [i = 0] it is [val.begin()], with [i = val.size()] it is [val.end()]. *)
Definition val_it (n : Node) (a : addr) (i : nat) : valIterator :=
  match val n with
  | [] => None
  | _ :: _ => Some (mkVI a i)
  end.

(** ** Node member functions *)

Section members.
Context (k : access).

(** [iterator(this, it)] for an iterator [it] that points into the buffer
    of [val], [i] entries after its first. *)
Definition at_ (a : addr) (i : nat) : position k := mkPos a (Some (mkVI a i)).

(** [Node::nodeInsert] (the positions it returns are mutable ones; the
    definition is kept generic for uniformity). *)
Fixpoint nodeInsert (fuel : nat) (s : Store) (this : addr) (elem : Z)
  : Result (Store * (position k * bool)) :=
  match fuel with
  | O => OutOfFuel
  | S fuel =>
    n ← node_at s this;
    match val n with
    | [] => Ok (set_node s this (with_val n [elem]), (at_ this 0, true))
    | _ =>
      let p := lower_bound (val n) elem in
      if decide (val n !! p = Some elem) then Ok (s, (at_ this p, false))
      else if decide (length (val n) < maxSize n) then
        Ok (set_node s this (with_val n (vec_insert p elem (val n))),
            (at_ this p, true))
      else
        c ← child_at n p;
        match c with
        | Some c => nodeInsert fuel s c elem
        | None =>
          let '(s1, c) := alloc s (new_node (root n) (Some this) (maxSize n)) in
          let s2 := set_node s1 this (with_children n (<[p := Some c]> (children n))) in
          nodeInsert fuel s2 c elem
        end
    end
  end.

(** [Node::nodeBegin] and [Node::cNodeBegin]. *)
Fixpoint nodeBegin (fuel : nat) (s : Store) (this : addr) : Result (position k) :=
  match fuel with
  | O => OutOfFuel
  | S fuel =>
    n ← node_at s this;
    c ← child_at n 0;
    match c with
    | Some c => nodeBegin fuel s c
    | None => Ok (mkPos this (val_it n this 0))
    end
  end.

(** [Node::nodeEnd] and [Node::cNodeEnd]. *)
Fixpoint nodeEnd (fuel : nat) (s : Store) (this : addr) : Result (position k) :=
  match fuel with
  | O => OutOfFuel
  | S fuel =>
    n ← node_at s this;
    c ← child_at n (length (val n));
    match c with
    | Some c => nodeEnd fuel s c
    | None => Ok (mkPos this (val_it n this (length (val n))))
    end
  end.

(** [btree::begin], [btree::end] and their [c]-prefixed forms, called on
    the tree object [t] ([rootNode->...] faults on a null root). *)
Definition begin_ (s : Store) (t : nat) : Result (position k) :=
  b ← tree_at s t;
  r ← opt (rootNode b);
  nodeBegin (fuel_of s) s r.

Definition end_ (s : Store) (t : nat) : Result (position k) :=
  b ← tree_at s t;
  r ← opt (rootNode b);
  nodeEnd (fuel_of s) s r.

(** [operator*]: the element [pos] points at; the null pointer and a
    pointer past the elements of its buffer point at none. *)
Definition deref (s : Store) (it : position k) : Result Z :=
  p ← opt (pos it);
  n ← node_at s (vec p);
  opt (val n !! idx p).

(** [pos - ptr->val.begin()], defined for a pointer into the buffer of
    [ptr->val]. *)
Definition offset_in (it : position k) : Result nat :=
  p ← opt (pos it);
  if decide (vec p = ptr it) then Ok (idx p) else Fault.

(** [Node::nodeFind] and [Node::cNodeFind]. *)
Fixpoint nodeFind (fuel : nat) (s : Store) (this : addr) (elem : Z)
  : Result (position k) :=
  match fuel with
  | O => OutOfFuel
  | S fuel =>
    n ← node_at s this;
    let p := lower_bound (val n) elem in
    x ← opt (val n !! p);                         (* *itPos *)
    if decide (x = elem) then Ok (at_ this p)
    else
      c ← child_at n p;
      match c with
      | Some c => nodeFind fuel s c elem
      | None => end_ s (root n)
      end
  end.
End members.

Arguments at_ {k} a i.

(** ** Iterator member functions *)

(** The four [operator==] overloads all compare the vector iterators, and
    only those: [ptr] takes no part. *)
Definition it_eq {k1 k2} (a : position k1) (b : position k2) : bool :=
  bool_decide (pos a = pos b).

(** The four [operator!=] overloads. *)
Definition it_neq {k1 k2} (a : position k1) (b : position k2) : bool :=
  negb (it_eq a b).

(** The iterator of a position points, when it is not null, into the buffer
    of the node the position names: every constructor call of the code
    passes [this] with an iterator of [this->val], and both stepping
    operators reassign [ptr] and [pos] together. *)
Definition own_buffer {k} (p : position k) : Prop :=
  ∀ c, pos p = Some c → vec c = ptr p.

Section stepping.
Context (k : access).

(** The descent [while (ptr->children[0].get() != nullptr) ptr = ...]. *)
Fixpoint leftmost (fuel : nat) (s : Store) (p : addr) : Result addr :=
  match fuel with
  | O => OutOfFuel
  | S fuel =>
    n ← node_at s p;
    c ← child_at n 0;
    match c with
    | Some c => leftmost fuel s c
    | None => Ok p
    end
  end.

(** The descent [while (ptr->children[ptr->val.size()].get() != nullptr)]. *)
Fixpoint rightmost (fuel : nat) (s : Store) (p : addr) : Result addr :=
  match fuel with
  | O => OutOfFuel
  | S fuel =>
    n ← node_at s p;
    c ← child_at n (length (val n));
    match c with
    | Some c => rightmost fuel s c
    | None => Ok p
    end
  end.

(** The ascent of [operator++]:
    [while (!at_end) { ptr = ptr->parent; pos = lower_bound(.., temp); if (pos != ptr->val.end()) break; }]
    where [at_end] is [*this == ptr->root->end()]. *)
Fixpoint climb_up (fuel : nat) (s : Store) (temp : Z) (it : position k)
  : Result (position k) :=
  match fuel with
  | O => OutOfFuel
  | S fuel =>
    n ← node_at s (ptr it);
    e ← end_ k s (root n);
    if it_neq it e then
      p ← opt (parent n);
      pn ← node_at s p;
      let it' : position k := mkPos p (val_it pn p (lower_bound (val pn) temp)) in
      if decide (pos it' ≠ val_it pn p (length (val pn))) then Ok it'
      else climb_up fuel s temp it'
    else Ok it
  end.

(** The ascent of [operator--]:
    [while (!at_begin) { ptr = ptr->parent; pos = lower_bound(.., temp); if (pos != ptr->val.begin()) { --pos; break; } }]
    where [at_begin] is [*this == ptr->root->begin()]. *)
Fixpoint climb_down (fuel : nat) (s : Store) (temp : Z) (it : position k)
  : Result (position k) :=
  match fuel with
  | O => OutOfFuel
  | S fuel =>
    n ← node_at s (ptr it);
    b ← begin_ k s (root n);
    if it_neq it b then
      p ← opt (parent n);
      pn ← node_at s p;
      let it' : position k := mkPos p (val_it pn p (lower_bound (val pn) temp)) in
      if decide (pos it' ≠ val_it pn p 0)
      then Ok (at_ p (lower_bound (val pn) temp - 1))         (* --pos *)
      else climb_down fuel s temp it'
    else Ok it
  end.

(** [operator++()]. *)
Definition incr (s : Store) (it : position k) : Result (position k) :=
  temp ← deref k s it;                            (* T temp = *pos *)
  n ← node_at s (ptr it);
  i ← offset_in k it;
  c ← child_at n (i + 1);
  match c with
  | Some c =>
    l ← leftmost (fuel_of s) s c;
    ln ← node_at s l;
    Ok (mkPos l (val_it ln l 0))
  | None =>
    p ← opt (pos it);
    let it' : position k := mkPos (ptr it) (Some (mkVI (vec p) (idx p + 1))) in
    if decide (pos it' = val_it n (ptr it) (length (val n)))
    then climb_up (fuel_of s) s temp it'
    else Ok it'
  end.

(** [operator--()]. *)
Definition decr (s : Store) (it : position k) : Result (position k) :=
  temp ← deref k s it;                            (* T temp = *pos *)
  n ← node_at s (ptr it);
  i ← offset_in k it;
  c ← child_at n i;
  match c with
  | Some c =>
    r ← rightmost (fuel_of s) s c;
    rn ← node_at s r;
    match length (val rn) with
    | O => Fault                                  (* --pos at val.begin() *)
    | S j => Ok (at_ r j)
    end
  | None =>
    if decide (pos it = val_it n (ptr it) 0)
    then climb_down (fuel_of s) s temp it
    else
      p ← opt (pos it);
      match idx p with
      | O => Fault
      | S j => Ok (mkPos (ptr it) (Some (mkVI (vec p) j)))
      end
  end.

(** [it] after [n] applications of [step]. *)
Fixpoint iter_n (step : Store → position k → Result (position k))
    (n : nat) (s : Store) (it : position k) : Result (position k) :=
  match n with
  | O => Ok it
  | S n => it' ← step s it; iter_n step n s it'
  end.

(** The client loop [for (; it != end(); ++it) out.push_back( *it );]. *)
Fixpoint walk (fuel : nat) (s : Store) (t : nat) (it : position k)
  : Result (list Z) :=
  match fuel with
  | O => OutOfFuel
  | S fuel =>
    e ← end_ k s t;
    if it_neq it e then
      x ← deref k s it;
      it' ← incr s it;
      xs ← walk fuel s t it';
      Ok (x :: xs)
    else Ok []
  end.

(** The in-order traversal of tree [t]: every element met when stepping
    from [begin()] to [end()]. *)
Definition traversal (s : Store) (t : nat) : Result (list Z) :=
  b ← begin_ k s t;
  walk (fuel_of s) s t b.
End stepping.

(** ** [btree] member functions *)

(** [btree(size_t maxNodeElems)]: the new tree object and its empty root. *)
Definition construct (s : Store) (maxNodeElems : nat) : Store * nat :=
  let this := length (trees s) in
  let '(s1, r) := alloc s (new_node this None maxNodeElems) in
  (mkStore (nodes s1) (trees s1 ++ [mkBtree (Some r)]), this).

(** [btree::insert]. *)
Definition insert (s : Store) (t : nat) (elem : Z)
  : Result (Store * (btree_iterator * bool)) :=
  b ← tree_at s t;
  r ← opt (rootNode b);
  nodeInsert Mutable (fuel_of s) s r elem.

(** [btree::find], non-const and const. *)
Definition find (s : Store) (t : nat) (elem : Z) : Result btree_iterator :=
  b ← tree_at s t;
  r ← opt (rootNode b);
  nodeFind Mutable (fuel_of s) s r elem.

Definition cfind (s : Store) (t : nat) (elem : Z) : Result const_btree_iterator :=
  b ← tree_at s t;
  r ← opt (rootNode b);
  nodeFind ReadOnly (fuel_of s) s r elem.

Definition begin := begin_ Mutable.
Definition cbegin := begin_ ReadOnly.
Definition cend := end_ ReadOnly.

(** [operator<<(std::ostream&, const btree<T>&)]; the result is the text
    appended to the stream. *)
Fixpoint dump_loop (fuel : nat) (s : Store) (t : nat) (it : const_btree_iterator)
  : Result string :=
  match fuel with
  | O => OutOfFuel
  | S fuel =>
    e ← cend s t;
    if it_neq it e then
      x ← deref ReadOnly s it;
      it' ← incr ReadOnly s it;
      rest ← dump_loop fuel s t it';
      Ok (" " +:+ pretty x +:+ rest)
    else Ok ""
  end.

Definition dump (s : Store) (t : nat) : Result string :=
  it ← cbegin s t;
  e ← cend s t;
  first ← (if it_neq it e then x ← deref ReadOnly s it; Ok (pretty x) else Ok "");
  rest ← dump_loop (fuel_of s) s t it;
  Ok (first +:+ rest).

(** ** Copying and moving *)

(** [for (i = 0; i < children.size(); ++i) if (children[i] != nullptr) f(children[i])]. *)
Fixpoint for_children (f : Store → addr → Result Store)
    (cs : list (option addr)) (s : Store) : Result Store :=
  match cs with
  | [] => Ok s
  | c :: cs =>
    s' ← match c with
         | Some c => f s c
         | None => Ok s
         end;
    for_children f cs s'
  end.

(** The loop of the copy constructor of [Node]: slot [i] of the node under
    construction at [this] receives a copy of the [i]-th child of the
    source.  The source is a [const Node&], its [children] are read once. *)
Fixpoint copy_children (cp : Store → addr → Result (Store * addr))
    (this : addr) (i : nat) (cs : list (option addr)) (s : Store) : Result Store :=
  match cs with
  | [] => Ok s
  | c :: cs =>
    s' ← match c with
         | Some c =>
           '(s1, c') ← cp s c;
           m ← node_at s1 this;
           _ ← child_at m i;                        (* children[i] = ... *)
           Ok (set_node s1 this (with_children m (<[i := Some c']> (children m))))
         | None => Ok s
         end;
    copy_children cp this (S i) cs s'
  end.

(** [std::make_shared<Node>(n)] with [Node(const Node& n)]: the cell is
    allocated, its members are initialised from [n], then the children are
    copied one by one. *)
Fixpoint copyNode (fuel : nat) (s : Store) (src : addr) : Result (Store * addr) :=
  match fuel with
  | O => OutOfFuel
  | S fuel =>
    n ← node_at s src;
    let '(s1, this) :=
      alloc s (mkNode (root n) (parent n) (replicate (slots (maxSize n)) None)
                      (maxSize n) (val n)) in
    match children n with
    | [] => Ok (s1, this)                           (* "should never happen" *)
    | cs => s2 ← copy_children (copyNode fuel) this 0 cs s1; Ok (s2, this)
    end
  end.

(** [Node::changeRoot]. *)
Fixpoint changeRoot (fuel : nat) (b : nat) (s : Store) (this : addr) : Result Store :=
  match fuel with
  | O => OutOfFuel
  | S fuel =>
    n ← node_at s this;
    for_children (changeRoot fuel b) (children n) (set_node s this (with_root n b))
  end.

(** [Node::changeParent]. *)
Fixpoint changeParent (fuel : nat) (p : option addr) (s : Store) (this : addr)
  : Result Store :=
  match fuel with
  | O => OutOfFuel
  | S fuel =>
    n ← node_at s this;
    for_children (changeParent fuel (Some this)) (children n)
                 (set_node s this (with_parent n p))
  end.

(** [rootNode->changeRoot(this); rootNode->changeParent(nullptr);] on tree
    object [this]. *)
Definition rehome (s : Store) (this : nat) : Result Store :=
  b ← tree_at s this;
  r ← opt (rootNode b);
  s1 ← changeRoot (fuel_of s) this s r;
  changeParent (fuel_of s1) None s1 r.

(** A new [btree] object; its address is its index among the objects. *)
Definition new_tree (s : Store) (r : option addr) : Store * nat :=
  (mkStore (nodes s) (trees s ++ [mkBtree r]), length (trees s)).

(** [btree(const btree<T>& original)]. *)
Definition copy_construct (s : Store) (original : nat) : Result (Store * nat) :=
  o ← tree_at s original;
  match rootNode o with
  | None => Ok (new_tree s None)
  | Some r =>
    '(s1, r') ← copyNode (fuel_of s) s r;
    let '(s2, this) := new_tree s1 (Some r') in
    s3 ← rehome s2 this;
    Ok (s3, this)
  end.

(** [btree(btree<T>&& original)]. *)
Definition move_construct (s : Store) (original : nat) : Result (Store * nat) :=
  o ← tree_at s original;
  let '(s1, this) := new_tree (set_tree s original (mkBtree None)) (rootNode o) in
  s2 ← rehome s1 this;
  Ok (s2, this).

(** [operator=(btree<T>&& rhs)].  [rootNode.reset()] drops the old graph;
    its cells stay in the arena, unreachable, and no address is reused. *)
Definition move_assign (s : Store) (this rhs : nat) : Result Store :=
  if decide (this = rhs) then Ok s
  else
    _ ← tree_at s this;
    r ← tree_at s rhs;
    (* rootNode.reset(); rootNode = std::move(rhs.rootNode); *)
    let s1 := set_tree (set_tree s this (mkBtree (rootNode r))) rhs (mkBtree None) in
    a ← opt (rootNode r);
    s2 ← changeRoot (fuel_of s1) this s1 a;
    Ok (set_tree s2 rhs (mkBtree None)).

(** [operator=(const btree<T>& rhs)]: copy into a temporary, move it in. *)
Definition copy_assign (s : Store) (this rhs : nat) : Result Store :=
  if decide (this = rhs) then Ok s
  else
    _ ← tree_at s this;
    let s0 := set_tree s this (mkBtree None) in
    '(s1, tmp) ← copy_construct s0 rhs;
    s2 ← move_assign s1 this tmp;
    rehome s2 this.

(** A tree of capacity [cap] after the insertions [es], in a given store. *)
Fixpoint inserts (s : Store) (t : nat) (es : list Z) : Result Store :=
  match es with
  | [] => Ok s
  | e :: es => '(s', _) ← insert s t e; inserts s' t es
  end.

Definition build (cap : nat) (es : list Z) : Result (Store * nat) :=
  let '(s, t) := construct empty_store cap in
  s' ← inserts s t es;
  Ok (s', t).

(** ** The logical view of a tree

    A [Shape] is the node graph hanging from one root, read off the store:
    every node with its address, its buffer and its child slots. *)

#[local] Unset Elimination Schemes.
Inductive Shape := SNode (a : addr) (v : list Z) (cs : list (option Shape)).

#[local] Set Elimination Schemes.

Definition saddr (T : Shape) : addr := let 'SNode a _ _ := T in a.
Definition sval (T : Shape) : list Z := let 'SNode _ v _ := T in v.
Definition skids (T : Shape) : list (option Shape) := let 'SNode _ _ cs := T in cs.

(** Interleaving of the sub-sequences of the children with the node's own
    entries: child 0, entry 0, child 1, entry 1, ... *)
Fixpoint weave {A} (mk : nat → Z → A) (i : nat) (subs : list (list A)) (v : list Z)
  : list A :=
  match subs with
  | [] => []
  | sub :: subs' =>
    sub ++ match v with
           | [] => []
           | x :: v' => mk i x :: weave mk (S i) subs' v'
           end
  end.

Definition sub {A} (f : Shape → list A) (c : option Shape) : list A :=
  match c with
  | Some c => f c
  | None => []
  end.

(** Every element of the tree with its cursor, in sorted-tree order. *)
Fixpoint items (T : Shape) : list (cursor * Z) :=
  match T with
  | SNode a v cs => weave (fun i x => (mkVI a i, x)) 0 (sub items <$> cs) v
  end.

Definition positions (T : Shape) : list cursor := (items T).*1.
Definition elems (T : Shape) : list Z := (items T).*2.

(** The addresses of all nodes of the graph. *)
Fixpoint addrs (T : Shape) : list addr :=
  match T with
  | SNode a v cs => a :: mjoin (sub addrs <$> cs)
  end.

Definition subn (f : Shape → nat) (c : option Shape) : nat :=
  match c with
  | Some c => f c
  | None => 0
  end.

Fixpoint height (T : Shape) : nat :=
  match T with
  | SNode a v cs => S (max_list (subn height <$> cs))
  end.

(** Where [begin()] is: at the first element, or at the root's empty
    buffer. *)
Definition begin_pos (T : Shape) : cursor :=
  match positions T with
  | p :: _ => p
  | [] => mkVI (saddr T) 0
  end.

(** Where [end()] is: one past the last element. *)
Definition end_pos (T : Shape) : cursor :=
  match last (positions T) with
  | Some p => mkVI (vec p) (S (idx p))
  | None => mkVI (saddr T) 0
  end.

(** The position of the code at [p], inside a buffer that holds elements. *)
Definition of_vi {k} (p : cursor) : position k := mkPos (vec p) (Some p).

(** The position of the code at [p] in the graph [T]: the only node that
    can be without elements is the root, and its iterators are null. *)
Definition place {k} (T : Shape) (p : cursor) : position k :=
  match sval T with
  | [] => mkPos (vec p) None
  | _ :: _ => of_vi p
  end.

(** [rep Q ns cap par T]: the cells [ns] hold the graph [T] under a node
    whose address is [par]; [Q] constrains the back-pointers of each cell. *)
Inductive rep (Q : option addr → Node → Prop) (ns : list Node) (cap : nat)
  : option addr → Shape → Prop :=
  | rep_node par a v (cs : list (option Shape)) n :
      ns !! a = Some n →
      children n = (fmap (M:=option) saddr <$> cs) →
      maxSize n = cap →
      val n = v →
      Q par n →
      (∀ i c, cs !! i = Some (Some c) → rep Q ns cap (Some a) c) →
      rep Q ns cap par (SNode a v cs).

Definition linked (t : nat) (par : option addr) (n : Node) : Prop :=
  root n = t ∧ parent n = par.
Definition rooted (t : nat) (par : option addr) (n : Node) : Prop :=
  root n = t.
Definition loose (par : option addr) (n : Node) : Prop := True.

(** Bounds of partition [i] of a node with buffer [v] inside [(lo, hi)]. *)
Definition lower (lo : option Z) (v : list Z) (i : nat) : option Z :=
  match i with
  | O => lo
  | S j => match v !! j with Some x => Some x | None => lo end
  end.
Definition upper (hi : option Z) (v : list Z) (i : nat) : option Z :=
  match v !! i with
  | Some x => Some x
  | None => hi
  end.

Definition above (lo : option Z) (x : Z) : Prop :=
  match lo with Some l => (l < x)%Z | None => True end.
Definition below (hi : option Z) (x : Z) : Prop :=
  match hi with Some h => (x < h)%Z | None => True end.
Definition within (lo hi : option Z) (x : Z) : Prop := above lo x ∧ below hi x.

(** Shape invariant: sorted bounded buffers, the search-tree partitioning,
    children only under full nodes, no empty child. *)
Inductive wfS (cap : nat) : option Z → option Z → Shape → Prop :=
  | wfS_node lo hi a v cs :
      StronglySorted Z.lt v →
      Forall (within lo hi) v →
      length v ≤ cap →
      length cs = S cap →
      (∀ i c, cs !! i = Some (Some c) → length v = cap ∧ sval c ≠ []) →
      (∀ i c, cs !! i = Some (Some c) → wfS cap (lower lo v i) (upper hi v i) c) →
      wfS cap lo hi (SNode a v cs).

(** What the store holds for one [btree] object. *)
Definition tree_ok (s : Store) (t : nat) (b : btree) (o : option (nat * Shape)) : Prop :=
  match o with
  | None => rootNode b = None
  | Some (cap, T) =>
    rootNode b = Some (saddr T) ∧ 1 ≤ cap ∧
    rep (linked t) (nodes s) cap None T ∧ wfS cap None None T ∧
    (Z.of_nat cap < 2 ^ 31)%Z
  end.

Definition owned (o : option (nat * Shape)) : list addr :=
  match o with
  | Some (_, T) => addrs T
  | None => []
  end.

(** Store invariant: every tree object owns a well-formed graph, described
    by [sh], and no cell belongs to two graphs or twice to one. *)
Definition models (s : Store) (sh : nat → option (nat * Shape)) : Prop :=
  (∀ t b, trees s !! t = Some b → tree_ok s t b (sh t)) ∧
  (∀ t, trees s !! t = None → sh t = None) ∧
  (∀ t, NoDup (owned (sh t))) ∧
  (∀ t1 t2 a, a ∈ owned (sh t1) → a ∈ owned (sh t2) → t1 = t2).

Definition Inv (s : Store) : Prop := ∃ sh, models s sh.

(** The nodes reachable from [a] through child pointers. *)
Fixpoint reach (fuel : nat) (s : Store) (a : addr) : list addr :=
  match fuel with
  | O => []
  | S fuel =>
    match nodes s !! a with
    | Some n =>
      a :: mjoin ((fun c => match c with Some c => reach fuel s c | None => [] end) <$>
                       (children n))
    | None => [a]
    end
  end.

(** The nodes of tree [t]. *)
Definition nodes_of (s : Store) (t : nat) : list addr :=
  match trees s !! t with
  | Some (mkBtree (Some r)) => reach (fuel_of s) s r
  | _ => []
  end.

(** The capacities covered: at least one, and below [2^31], so that
    [size + 1] does not wrap around and the conversions the code applies to
    sizes and offsets ([static_cast<unsigned>(val.size())], [int offset],
    [unsigned i]) leave their values as they are. *)
Definition capacity_ok (cap : nat) : Prop :=
  1 ≤ cap ∧ (Z.of_nat cap < 2 ^ 31)%Z.

(** Stores produced by the public interface, with such capacities. *)
Inductive built : Store → Prop :=
  | built_empty : built empty_store
  | built_construct s cap :
      built s → capacity_ok cap → built (construct s cap).1
  | built_insert s t e s' r :
      built s → insert s t e = Ok (s', r) → built s'
  | built_copy s t s' t' :
      built s → copy_construct s t = Ok (s', t') → built s'
  | built_move s t s' t' :
      built s → move_construct s t = Ok (s', t') → built s'
  | built_copy_assign s t u s' :
      built s → copy_assign s t u = Ok s' → built s'
  | built_move_assign s t u s' :
      built s → move_assign s t u = Ok s' → built s'.

(** ** Predicates of the proofs

    What the lemmas below say about a node graph before and after a call. *)

(** No slot of [cs] holds a child. *)
Definition childless (cs : list (option Shape)) : Prop :=
  ∀ i c, cs !! i = Some (Some c) → False.

(** Every cell that [s'] has and [s] had not is a child hung into an empty
    slot of a node of [T] that was full in [s]. *)
Definition spawned (s s' : Store) (T : Shape) : Prop :=
  ∀ a, length (nodes s) ≤ a → a < length (nodes s') →
    ∃ p np np' na i,
      p ∈ addrs T ∧ nodes s !! p = Some np ∧ length (val np) = maxSize np ∧
      children np !! i = Some None ∧
      nodes s' !! p = Some np' ∧ children np' !! i = Some (Some a) ∧
      nodes s' !! a = Some na ∧ parent na = Some p.

(** What [nodeInsert] of [e] at the root of [T] did: it left [s'], whose
    graph under the same root is [T'], and returned [(it, b)]. *)
Record inserted {k} (t cap : nat) (par : option addr) (lo hi : option Z)
    (s : Store) (T : Shape) (e : Z)
    (s' : Store) (T' : Shape) (it : position k) (b : bool) : Prop := {
  ins_trees : trees s' = trees s;
  ins_addr : saddr T' = saddr T;
  ins_rep : rep (linked t) (nodes s') cap par T';
  ins_wf : wfS cap lo hi T';
  ins_nodup : NoDup (addrs T');
  ins_nonempty : sval T' ≠ [];
  ins_item : ∃ p, it = of_vi p ∧ (p, e) ∈ items T';
  ins_new : b = true → (e ∉ elems T) ∧ elems T' ≡ₚ e :: elems T;
  ins_old : b = false → e ∈ elems T ∧ s' = s ∧ T' = T;
  ins_grow : length (nodes s) ≤ length (nodes s');
  ins_frame : ∀ a, a < length (nodes s) → a ∉ addrs T →
                   nodes s' !! a = nodes s !! a;
  ins_addrs : ∀ a, a ∈ addrs T' → a ∈ addrs T ∨ length (nodes s) ≤ a;
  ins_keep : ∀ a, a ∈ addrs T → a ∈ addrs T';
  ins_spawn : spawned s s' T
}.

(** Consecutive entries of [l] are related by [R]. *)
Fixpoint chain {A} (R : A → A → Prop) (l : list A) : Prop :=
  match l with
  | x :: l' => match l' with y :: _ => R x y | [] => True end ∧ chain R l'
  | [] => True
  end.

(** [operator++] leads from [p] to [q]. *)
Definition follows (k : access) (s : Store) (p q : cursor) : Prop :=
  incr k s (of_vi p) = Ok (of_vi q).

(** [operator--] leads from [q] back to [p]. *)
Definition precedes (k : access) (s : Store) (p q : cursor) : Prop :=
  decr k s (of_vi q) = Ok (of_vi p).

(** What comes just before the segment of child [j] in the sequence of a
    node: entry [j - 1], or for the first child whatever precedes the
    node. *)
Definition before {A} (mk : nat → Z → A) (i : nat) (pre : list A) (v : list Z)
    (j : nat) : list A :=
  match j with
  | 0 => pre
  | S j' => from_option (λ x, [mk (i + j') x]) [] (v !! j')
  end.

(** [s'] differs from [s] only on the cells of [T]. *)
Definition touches (s s' : Store) (T : Shape) : Prop :=
  trees s' = trees s ∧ length (nodes s') = length (nodes s) ∧
  ∀ x, x ∉ addrs T → nodes s' !! x = nodes s !! x.

(** The subtrees in distinct slots of [cs] have no cell in common. *)
Definition apart (cs : list (option Shape)) : Prop :=
  ∀ i j c d x, cs !! i = Some (Some c) → cs !! j = Some (Some d) →
    x ∈ addrs c → x ∈ addrs d → i = j.

(** What the copy constructor of [Node] did on the root of [T]: it left
    [s'], where the fresh graph [T'] mirrors [T]. *)
Record copied (cap : nat) (s : Store) (T : Shape) (s' : Store) (T' : Shape)
  : Prop := {
  cp_trees : trees s' = trees s;
  cp_old : ∀ a, a < length (nodes s) → nodes s' !! a = nodes s !! a;
  cp_rep : rep loose (nodes s') cap None T';
  cp_fresh : ∀ a, a ∈ addrs T' → length (nodes s) ≤ a;
  cp_nodup : NoDup (addrs T');
  cp_wf : ∀ lo hi, wfS cap lo hi T → wfS cap lo hi T';
  cp_elems : elems T' = elems T;
  cp_val : sval T' = sval T;
  cp_addr : saddr T' = length (nodes s)
}.

(** A child slot and its copy. *)
Definition twin (cap : nat) (oc oc' : option Shape) : Prop :=
  match oc, oc' with
  | None, None => True
  | Some c, Some c' =>
    (∀ lo hi, wfS cap lo hi c → wfS cap lo hi c') ∧
    elems c' = elems c ∧ sval c' = sval c
  | _, _ => False
  end.

(** State of the copy loop: the node under construction at [this] has
    received the copies [done]. *)
Definition copying (cap : nat) (s0 : Store) (this : addr) (proto : Node)
    (s : Store) (done : list (option Shape)) : Prop :=
  trees s = trees s0 ∧
  (∀ a, a < this → nodes s !! a = nodes s0 !! a) ∧
  nodes s !! this =
    Some (with_children proto
            ((fmap (M:=option) saddr <$> done)
             ++ replicate (S cap - length done) None)) ∧
  (∀ j c', done !! j = Some (Some c') →
     rep loose (nodes s) cap (Some this) c' ∧ NoDup (addrs c') ∧
     ∀ a, a ∈ addrs c' → this < a) ∧
  apart done.

(** In [s'] the tree [t'] is an independent copy of the tree [t], whose
    sequence is [l]: the two have no cell in common, both traverse to [l],
    and whatever is inserted into one of them, the insertions succeed and
    the other still traverses to [l]. *)
Definition independent_copy (k : access) (l : list Z) (s' : Store) (t t' : nat)
  : Prop :=
  (∀ a, a ∈ nodes_of s' t → a ∉ nodes_of s' t') ∧
  traversal k s' t = Ok l ∧
  traversal k s' t' = Ok l ∧
  (∀ es, ∃ s'', inserts s' t' es = Ok s'' ∧ traversal k s'' t = Ok l) ∧
  (∀ es, ∃ s'', inserts s' t es = Ok s'' ∧ traversal k s'' t' = Ok l).

(** The store after [5 3 8 1 4 7 2 6] went into a tree of capacity 3. *)
Definition sample : Store :=
  match build 3 [5; 3; 8; 1; 4; 7; 2; 6]%Z with
  | Ok (s, _) => s
  | _ => empty_store
  end.

(** Every element preceded by a space. *)
Definition render (l : list Z) : string :=
  foldr (λ x r, " " +:+ pretty x +:+ r) "" l.

(** [p] is a position of tree [t] inside a buffer: it names a node of the
    tree, and its iterator is [val.begin() + i] of that node's [val] for an
    [i] of at most [val.size()]. *)
Definition in_buffer {k} (s : Store) (t : nat) (p : position k) : Prop :=
  ptr p ∈ nodes_of s t ∧
  ∃ n i, nodes s !! ptr p = Some n ∧ i ≤ length (val n) ∧
         pos p = val_it n (ptr p) i.

(** ** Reverse iterators *)

(** [std::reverse_iterator<It>] over the iterators of the tree, as the
    typedefs [reverse_iterator] and [const_reverse_iterator] instantiate it:
    it holds an [It current]; [operator*] is [It tmp = current; return *--tmp;],
    [operator++] is [--current], [operator==] compares the [current]s. *)
Record reverse_position (k : access) := mkRev { current : position k }.
Arguments mkRev {k} current.
Arguments current {k} r.

(** [btree::rbegin], [btree::rend] and their const and [c]-prefixed forms. *)
Definition rbegin (k : access) (s : Store) (t : nat) : Result (reverse_position k) :=
  e ← end_ k s t; Ok (mkRev e).
Definition rend (k : access) (s : Store) (t : nat) : Result (reverse_position k) :=
  b ← begin_ k s t; Ok (mkRev b).
Definition crbegin := rbegin ReadOnly.
Definition crend := rend ReadOnly.

Definition rev_deref (k : access) (s : Store) (r : reverse_position k) : Result Z :=
  tmp ← decr k s (current r); deref k s tmp.
Definition rev_incr (k : access) (s : Store) (r : reverse_position k)
  : Result (reverse_position k) :=
  c ← decr k s (current r); Ok (mkRev c).
Definition rev_eq {k1 k2} (a : reverse_position k1) (b : reverse_position k2) : bool :=
  it_eq (current a) (current b).

(** ** More example stores *)

(** The example store with a second, empty tree of capacity 3. *)
Definition pair : Store := (construct sample 3).1.

(** Two empty trees of capacity 3. *)
Definition two_empty : Store := (construct (construct empty_store 3).1 3).1.

(** The example store after [9] went into its tree as well. *)
Definition grown : Store :=
  match insert sample 0 9 with
  | Ok (s, _) => s
  | _ => sample
  end.

(** The example store after its tree was moved into a new tree object. *)
Definition moved : Store :=
  match move_construct sample 0 with
  | Ok (s, _) => s
  | _ => sample
  end.

(** * Proofs *)

(** ** Checked computations *)

Lemma bind_Ok {A B} (m : Result A) (f : A → Result B) b :
  m ≫= f = Ok b ↔ ∃ a, m = Ok a ∧ f a = Ok b.
Proof.
  destruct m as [a| |]; simpl; split.
  - intros Hf. by exists a.
  - by intros (a' & [= <-] & Hf).
  - done.
  - by intros (a' & [=] & _).
  - done.
  - by intros (a' & [=] & _).
Qed.

Lemma opt_Ok {A} (o : option A) a : opt o = Ok a ↔ o = Some a.
Proof. destruct o; simpl; naive_solver. Qed.

Lemma node_at_Ok s a n : node_at s a = Ok n ↔ nodes s !! a = Some n.
Proof. apply opt_Ok. Qed.

Lemma val_it_nonempty n a i : val n ≠ [] → val_it n a i = Some (mkVI a i).
Proof. unfold val_it. by destruct (val n). Qed.

Lemma val_it_empty n a i : val n = [] → val_it n a i = None.
Proof. unfold val_it. by intros ->. Qed.

Lemma slots_small cap : (Z.of_nat cap < 2 ^ 31)%Z → slots cap = S cap.
Proof. intros Hcap. unfold slots. rewrite Z.mod_small by lia. lia. Qed.

Ltac res_inv :=
  repeat match goal with
  | H : _ ≫= _ = Ok _ |- _ => apply bind_Ok in H as (? & ? & H)
  | H : opt _ = Ok _ |- _ => apply opt_Ok in H
  | H : Ok _ = Ok _ |- _ => injection H as H
  | H : Fault = Ok _ |- _ => discriminate H
  | H : OutOfFuel = Ok _ |- _ => discriminate H
  end.

(** ** The sorted buffer *)

Lemma lower_bound_le v e : lower_bound v e ≤ length v.
Proof. induction v as [|x v IH]; simpl; [lia|]. case_match; lia. Qed.

Lemma lower_bound_lt v e i x :
  v !! i = Some x → i < lower_bound v e → (x < e)%Z.
Proof.
  revert i. induction v as [|y v IH]; intros i Hi Hlt; simpl in *; [lia|].
  destruct (Z.ltb_spec y e); [|lia].
  destruct i as [|i]; simpl in Hi; [by simplify_eq|].
  apply (IH i); [done|lia].
Qed.

Lemma lower_bound_here v e x :
  v !! lower_bound v e = Some x → (e ≤ x)%Z.
Proof.
  induction v as [|y v IH]; simpl; [done|].
  destruct (Z.ltb_spec y e); simpl; [done|]. intros; simplify_eq; lia.
Qed.

Lemma sorted_lookup v i j x y :
  StronglySorted Z.lt v → v !! i = Some x → v !! j = Some y → i < j → (x < y)%Z.
Proof.
  intros Hs. revert i j. induction Hs as [|z v Hs IH Hall]; intros i j Hi Hj Hij.
  { done. }
  destruct j as [|j]; [lia|]. simpl in Hj.
  destruct i as [|i]; simpl in Hi.
  - simplify_eq. rewrite Forall_forall in Hall. apply Hall.
    by eapply list_elem_of_lookup_2.
  - apply (IH i j); [done..|lia].
Qed.

Lemma lower_bound_ge v e i x :
  StronglySorted Z.lt v → v !! i = Some x → lower_bound v e ≤ i → (e ≤ x)%Z.
Proof.
  intros Hs Hi Hle.
  destruct (decide (lower_bound v e = i)) as [<-|Hne].
  { by eapply lower_bound_here. }
  destruct (lookup_lt_is_Some_2 v (lower_bound v e)) as [y Hy].
  { apply lookup_lt_Some in Hi. lia. }
  pose proof (lower_bound_here _ _ _ Hy).
  pose proof (sorted_lookup _ _ _ _ _ Hs Hy Hi). lia.
Qed.

Lemma lower_bound_unique v e p :
  p ≤ length v →
  (∀ i x, v !! i = Some x → i < p → (x < e)%Z) →
  (∀ x, v !! p = Some x → (e ≤ x)%Z) →
  lower_bound v e = p.
Proof.
  revert p. induction v as [|y v IH]; intros p Hp Hlo Hhi; simpl in *.
  { lia. }
  destruct (Z.ltb_spec y e).
  - destruct p as [|p].
    + specialize (Hhi y eq_refl). lia.
    + f_equal. apply IH; [lia| |done].
      intros i x Hi ?. apply (Hlo (S i) x); [done|lia].
  - destruct p as [|p]; [done|].
    specialize (Hlo 0 y eq_refl). lia.
Qed.

Lemma lower_bound_partition lo hi v e p :
  StronglySorted Z.lt v → p ≤ length v →
  within (lower lo v p) (upper hi v p) e →
  lower_bound v e = p.
Proof.
  intros Hs Hp [Hlo Hhi]. apply lower_bound_unique; [done|..].
  - intros i x Hi Hip. destruct p as [|p]; [lia|]. simpl in Hlo.
    destruct (lookup_lt_is_Some_2 v p) as [y Hy]; [lia|]. rewrite Hy in Hlo.
    simpl in Hlo. destruct (decide (i = p)) as [->|]; [by simplify_eq|].
    pose proof (sorted_lookup _ _ _ _ _ Hs Hi Hy). lia.
  - intros x Hx. unfold upper in Hhi. rewrite Hx in Hhi. simpl in Hhi. lia.
Qed.

Lemma lower_bound_within lo hi v e :
  StronglySorted Z.lt v → Forall (within lo hi) v → within lo hi e →
  v !! lower_bound v e ≠ Some e →
  within (lower lo v (lower_bound v e)) (upper hi v (lower_bound v e)) e.
Proof.
  intros Hs Hall [Hlo Hhi] Hne. split.
  - destruct (lower_bound v e) as [|p] eqn:Hp; simpl; [done|].
    destruct (v !! p) as [y|] eqn:Hy; [|done]. simpl.
    eapply lower_bound_lt; [done|lia].
  - unfold upper. destruct (v !! lower_bound v e) as [y|] eqn:Hy; [|done].
    simpl. pose proof (lower_bound_here _ _ _ Hy).
    assert (y ≠ e) by congruence. lia.
Qed.

Lemma lower_bound_notin v e :
  StronglySorted Z.lt v → v !! lower_bound v e ≠ Some e → e ∉ v.
Proof.
  intros Hs Hne [i Hi]%list_elem_of_lookup.
  destruct (decide (i < lower_bound v e)).
  - pose proof (lower_bound_lt _ _ _ _ Hi ltac:(done)). lia.
  - destruct (decide (i = lower_bound v e)) as [->|]; [done|].
    destruct (lookup_lt_is_Some_2 v (lower_bound v e)) as [y Hy].
    { apply lookup_lt_Some in Hi. lia. }
    pose proof (lower_bound_here _ _ _ Hy).
    pose proof (sorted_lookup _ _ _ _ _ Hs Hy Hi). lia.
Qed.

Lemma vec_insert_length p e v : p ≤ length v → length (vec_insert p e v) = S (length v).
Proof.
  intros. unfold vec_insert. rewrite length_app, length_take. simpl.
  rewrite length_drop. lia.
Qed.

Lemma vec_insert_lookup p e v : p ≤ length v → vec_insert p e v !! p = Some e.
Proof.
  intros. unfold vec_insert. rewrite lookup_app_r; rewrite length_take; [|lia].
  by replace (p - p `min` length v) with 0 by lia.
Qed.

Lemma vec_insert_perm p e v : vec_insert p e v ≡ₚ e :: v.
Proof.
  unfold vec_insert. rewrite <-Permutation_middle. by rewrite take_drop.
Qed.

Lemma vec_insert_sorted v e :
  StronglySorted Z.lt v → v !! lower_bound v e ≠ Some e →
  StronglySorted Z.lt (vec_insert (lower_bound v e) e v).
Proof.
  intros Hs Hne. unfold vec_insert.
  assert (∀ x, x ∈ take (lower_bound v e) v → (x < e)%Z) as Hlo.
  { intros x [i Hi]%list_elem_of_lookup.
    apply lookup_take_Some in Hi as [Hi ?]. by eapply lower_bound_lt. }
  assert (∀ x, x ∈ drop (lower_bound v e) v → (e < x)%Z) as Hhi.
  { intros x [i Hi]%list_elem_of_lookup. rewrite lookup_drop in Hi.
    pose proof (lower_bound_ge _ e _ _ Hs Hi ltac:(lia)).
    assert (x ≠ e); [|lia]. intros ->.
    by eapply lower_bound_notin, list_elem_of_lookup_2. }
  rewrite <-(take_drop (lower_bound v e) v) in Hs.
  apply StronglySorted_app in Hs as (H12 & H1 & H2).
  apply StronglySorted_app. split_and!; [|done|].
  - intros x1 x2 Hx1 [->|Hx2]%elem_of_cons; [by apply Hlo|by apply H12].
  - apply StronglySorted_cons. split; [|done]. by apply Forall_forall.
Qed.

(** ** Shapes *)

Lemma shape_ind (P : Shape → Prop) :
  (∀ a v cs, (∀ i c, cs !! i = Some (Some c) → P c) → P (SNode a v cs)) →
  ∀ T, P T.
Proof.
  intros IH. fix go 1. intros [a v cs]. apply IH.
  assert (Forall (fun c => match c with Some d => P d | None => True end) cs) as Hall.
  { clear IH a v. induction cs as [|[d|] cs IHcs]; constructor; auto. }
  intros i c Hi. rewrite Forall_lookup in Hall. apply (Hall _ _ Hi).
Qed.

Lemma weave_split {A} (mk : nat → Z → A) j i subs v :
  j ≤ length v → j ≤ length subs →
  weave mk i subs v =
    weave mk i (take j subs) (take j v) ++ weave mk (i + j) (drop j subs) (drop j v).
Proof.
  revert i subs v. induction j as [|j IH]; intros i subs v Hv Hs.
  { rewrite Nat.add_0_r. by destruct subs. }
  destruct subs as [|sub subs]; simpl in *; [lia|].
  destruct v as [|x v]; simpl in *; [lia|].
  rewrite <-app_assoc. f_equal. simpl. f_equal.
  rewrite (IH (S i) subs v) by lia. by rewrite Nat.add_succ_r.
Qed.

Lemma weave_fmap {A B} (f : A → B) (mk : nat → Z → A) i subs v :
  f <$> weave mk i subs v = weave (fun i x => f (mk i x)) i (fmap (M:=list) f <$> subs) v.
Proof.
  revert i v. induction subs as [|sub subs IH]; intros i v; simpl; [done|].
  rewrite fmap_app. f_equal. destruct v as [|x v]; simpl; [done|].
  by rewrite IH.
Qed.

Lemma elem_of_weave {A} (mk : nat → Z → A) i subs v y :
  y ∈ weave mk i subs v ↔
    (∃ j sub, subs !! j = Some sub ∧ j ≤ length v ∧ y ∈ sub) ∨
    (∃ j x, v !! j = Some x ∧ j < length subs ∧ y = mk (i + j) x).
Proof.
  revert i v. induction subs as [|sub subs IH]; intros i v; simpl.
  { split; [by intros ?%elem_of_nil|]. intros [(j&?&?&_)|(j&?&_&?&_)]; [done|lia]. }
  rewrite elem_of_app. destruct v as [|x v]; simpl.
  - split.
    + intros [?|?%elem_of_nil]; [|done]. left. exists 0, sub. auto with lia.
    + intros [(j&s&Hj&?&?)|(j&?&?&_)]; [|done].
      assert (j = 0) as -> by lia. simpl in Hj. simplify_eq. by left.
  - rewrite elem_of_cons, IH. split.
    + intros [?|[->|[(j&s&?&?&?)|(j&z&?&?&->)]]].
      * left. exists 0, sub. auto with lia.
      * right. exists 0, x. rewrite Nat.add_0_r. auto with lia.
      * left. exists (S j), s. auto with lia.
      * right. exists (S j), z. rewrite Nat.add_succ_r. auto with lia.
    + intros [(j&s&Hj&?&?)|(j&z&Hj&?&->)].
      * destruct j as [|j]; simpl in Hj; [simplify_eq; by left|].
        right; right; left. exists j, s. auto with lia.
      * destruct j as [|j]; simpl in Hj.
        { simplify_eq. rewrite Nat.add_0_r. auto. }
        right; right; right. exists j, z. rewrite Nat.add_succ_r. auto with lia.
Qed.

Lemma weave_insert_perm {A} (mk : nat → Z → A) i subs v p sub sub' y :
  subs !! p = Some sub → p ≤ length v → sub' ≡ₚ y :: sub →
  weave mk i (<[p := sub']> subs) v ≡ₚ y :: weave mk i subs v.
Proof.
  revert i v p. induction subs as [|s subs IH]; intros i v p Hp Hv Hperm; [done|].
  destruct p as [|p]; simpl in *.
  - simplify_eq. by rewrite Hperm.
  - destruct v as [|x v]; simpl in *; [lia|].
    rewrite (IH (S i) v p) by (done || lia).
    by rewrite <-!Permutation_middle, Permutation_swap.
Qed.

Lemma weave_length_le {A} (mk : nat → Z → A) i subs v :
  length (weave mk i subs v) ≤ length v + sum_list_with length subs.
Proof.
  revert i v. induction subs as [|s subs IH]; intros i v; simpl; [lia|].
  rewrite length_app. destruct v as [|x v]; simpl; [lia|].
  specialize (IH (S i) v). lia.
Qed.

Lemma weave_ext {A} (mk mk' : nat → Z → A) i subs subs' v :
  (∀ j x, v !! j = Some x → mk (i + j) x = mk' (i + j) x) →
  (∀ j, j ≤ length v → subs !! j = subs' !! j) →
  length subs = length subs' →
  weave mk i subs v = weave mk' i subs' v.
Proof.
  revert i subs' v. induction subs as [|s subs IH]; intros i subs' v Hmk Hs Hlen.
  { by destruct subs'. }
  destruct subs' as [|s' subs']; [done|]. simpl in *.
  pose proof (Hs 0 ltac:(lia)) as H0. simpl in H0. simplify_eq. f_equal.
  destruct v as [|x v]; [done|]. f_equal.
  - specialize (Hmk 0 x eq_refl). by rewrite Nat.add_0_r in Hmk.
  - apply IH; [|intros j ?; apply (Hs (S j)); simpl; lia|lia].
    intros j y Hj. specialize (Hmk (S j) y Hj). by rewrite Nat.add_succ_r in Hmk.
Qed.

Lemma items_node a v cs :
  items (SNode a v cs) = weave (fun i x => (mkVI a i, x)) 0 (sub items <$> cs) v.
Proof. done. Qed.

Lemma elems_node a v cs :
  elems (SNode a v cs) = weave (fun _ x => x) 0 (sub elems <$> cs) v.
Proof.
  unfold elems. rewrite items_node, weave_fmap, <-list_fmap_compose.
  f_equal. apply list_fmap_ext. by intros ? [?|].
Qed.

Lemma positions_node a v cs :
  positions (SNode a v cs) = weave (fun i _ => mkVI a i) 0 (sub positions <$> cs) v.
Proof.
  unfold positions. rewrite items_node, weave_fmap, <-list_fmap_compose.
  f_equal. apply list_fmap_ext. by intros ? [?|].
Qed.

Lemma addrs_node a v cs :
  addrs (SNode a v cs) = a :: mjoin (sub addrs <$> cs).
Proof. done. Qed.

Lemma height_node a v cs :
  height (SNode a v cs) = S (max_list (subn height <$> cs)).
Proof. done. Qed.

Lemma elem_of_items_node a v cs p x :
  (p, x) ∈ items (SNode a v cs) ↔
    (∃ j c, cs !! j = Some (Some c) ∧ j ≤ length v ∧ (p, x) ∈ items c) ∨
    (∃ j, v !! j = Some x ∧ j < length cs ∧ p = mkVI a j).
Proof.
  rewrite items_node, elem_of_weave. rewrite length_fmap. split.
  - intros [(j&s&Hj&?&Hin)|(j&z&?&?&?)]; [left|right; simplify_eq; eauto].
    rewrite list_lookup_fmap in Hj. destruct (cs !! j) as [[c|]|] eqn:?; simplify_eq/=.
    + eauto.
    + by apply elem_of_nil in Hin.
  - intros [(j&c&Hj&?&?)|(j&?&?&->)]; [left|right; eauto].
    exists j, (items c). by rewrite list_lookup_fmap, Hj.
Qed.

Lemma elem_of_elems_node a v cs x :
  x ∈ elems (SNode a v cs) ↔
    (∃ j c, cs !! j = Some (Some c) ∧ j ≤ length v ∧ x ∈ elems c) ∨
    (∃ j, v !! j = Some x ∧ j < length cs).
Proof.
  rewrite elems_node, elem_of_weave. rewrite length_fmap. split.
  - intros [(j&s&Hj&?&Hin)|(j&z&Hj&?&?)].
    + left. rewrite list_lookup_fmap in Hj.
      destruct (cs !! j) as [[c|]|] eqn:?; simplify_eq/=; [eauto|].
      by apply elem_of_nil in Hin.
    + right. subst. eauto.
  - intros [(j&c&Hj&?&?)|(j&?&?)]; [left|right; eauto].
    exists j, (elems c). by rewrite list_lookup_fmap, Hj.
Qed.

Lemma NoDup_join {A} (ls : list (list A)) :
  NoDup (mjoin ls) ↔
    (∀ i l, ls !! i = Some l → NoDup l) ∧
    (∀ i j l l' x, ls !! i = Some l → ls !! j = Some l' → x ∈ l → x ∈ l' → i = j).
Proof.
  induction ls as [|l0 ls IH]; simpl.
  { split; [|intros; constructor]. intros _.
    split; [intros i l Hi|intros i j l l' x Hi]; by rewrite lookup_nil in Hi. }
  rewrite NoDup_app, IH. split.
  - intros (Hl0 & Hdisj & Hall & Hpair). split.
    + intros [|i] l Hi; simplify_eq/=; eauto.
    + intros [|i] [|j] l l' x Hi Hj Hx Hx'; simplify_eq/=.
      * done.
      * destruct (Hdisj x Hx). apply list_elem_of_join. exists l'.
        split; [done|]. by eapply list_elem_of_lookup_2.
      * destruct (Hdisj x Hx'). apply list_elem_of_join. exists l.
        split; [done|]. by eapply list_elem_of_lookup_2.
      * f_equal. eauto.
  - intros (Hall & Hpair). split_and!.
    + by apply (Hall 0).
    + intros x Hx (l & Hxl & [j Hj]%list_elem_of_lookup)%list_elem_of_join.
      by specialize (Hpair 0 (S j) l0 l x eq_refl Hj Hx Hxl).
    + intros i l Hi. by apply (Hall (S i)).
    + intros i j l l' x Hi Hj Hx Hx'.
      by specialize (Hpair (S i) (S j) l l' x Hi Hj Hx Hx') as [= ->].
Qed.

Lemma elem_of_addrs_node a0 v cs a :
  a ∈ addrs (SNode a0 v cs) ↔
    a = a0 ∨ ∃ i c, cs !! i = Some (Some c) ∧ a ∈ addrs c.
Proof.
  rewrite addrs_node, elem_of_cons, list_elem_of_join. f_equiv. split.
  - intros (l & Hl & [i Hi]%list_elem_of_lookup).
    rewrite list_lookup_fmap in Hi.
    destruct (cs !! i) as [[c|]|] eqn:?; simplify_eq/=; [eauto|].
    by apply elem_of_nil in Hl.
  - intros (i & c & Hi & Ha). exists (addrs c). split; [done|].
    apply list_elem_of_lookup. exists i. by rewrite list_lookup_fmap, Hi.
Qed.

Lemma saddr_in_addrs T : saddr T ∈ addrs T.
Proof. destruct T. simpl. left. Qed.

Lemma NoDup_addrs_node a v cs :
  NoDup (addrs (SNode a v cs)) ↔
    (∀ i c, cs !! i = Some (Some c) → (a ∉ addrs c) ∧ NoDup (addrs c)) ∧
    (∀ i j c d x, cs !! i = Some (Some c) → cs !! j = Some (Some d) →
       x ∈ addrs c → x ∈ addrs d → i = j).
Proof.
  rewrite addrs_node, NoDup_cons, NoDup_join, list_elem_of_join. split.
  - intros (Ha & Hall & Hpair). split.
    + intros i c Hi. split.
      * intros Hin. apply Ha. exists (addrs c). split; [done|].
        apply list_elem_of_lookup. exists i. by rewrite list_lookup_fmap, Hi.
      * apply (Hall i). by rewrite list_lookup_fmap, Hi.
    + intros i j c d x Hi Hj Hx Hx'.
      apply (Hpair i j (addrs c) (addrs d) x);
        [by rewrite list_lookup_fmap, Hi|by rewrite list_lookup_fmap, Hj|done..].
  - intros (Hall & Hpair). split_and!.
    + intros (l & Hl & [i Hi]%list_elem_of_lookup).
      rewrite list_lookup_fmap in Hi.
      destruct (cs !! i) as [[c|]|] eqn:Hc; simplify_eq/=.
      * by destruct (Hall i c Hc).
      * by apply elem_of_nil in Hl.
    + intros i l Hi. rewrite list_lookup_fmap in Hi.
      destruct (cs !! i) as [[c|]|] eqn:Hc; simplify_eq/=.
      * by destruct (Hall i c Hc).
      * constructor.
    + intros i j l l' x Hi Hj Hx Hx'. rewrite list_lookup_fmap in Hi, Hj.
      destruct (cs !! i) as [[c|]|] eqn:Hc; simplify_eq/=;
        [|by apply elem_of_nil in Hx].
      destruct (cs !! j) as [[d|]|] eqn:Hd; simplify_eq/=;
        [|by apply elem_of_nil in Hx'].
      by eapply Hpair.
Qed.

(** ** The representation relation *)

Lemma rep_inv Q ns cap par a v cs :
  rep Q ns cap par (SNode a v cs) →
  ∃ n, ns !! a = Some n ∧ children n = (fmap (M:=option) saddr <$> cs) ∧
       maxSize n = cap ∧ val n = v ∧ Q par n ∧
       (∀ i c, cs !! i = Some (Some c) → rep Q ns cap (Some a) c).
Proof. inversion 1; subst. eauto 10. Qed.

Lemma rep_root Q ns cap par T :
  rep Q ns cap par T →
  ∃ n, ns !! saddr T = Some n ∧ val n = sval T ∧ maxSize n = cap ∧
       children n = (fmap (M:=option) saddr <$> skids T) ∧ Q par n.
Proof. destruct T. intros (n&?&?&?&?&?&?)%rep_inv. exists n. eauto. Qed.

Lemma rep_frame Q ns ns' cap par T :
  rep Q ns cap par T →
  (∀ a, a ∈ addrs T → ns' !! a = ns !! a) →
  rep Q ns' cap par T.
Proof.
  revert par. induction T as [a v cs IH] using shape_ind; intros par (n&?&?&?&?&?&Hcs)%rep_inv Hfr.
  econstructor; [|done..|].
  - rewrite Hfr; [done|]. apply elem_of_addrs_node; auto.
  - intros i c Hi. eapply IH; [done|by eauto|].
    intros b Hb. apply Hfr, elem_of_addrs_node. eauto.
Qed.

Lemma rep_weaken (Q Q' : option addr → Node → Prop) ns cap par T :
  (∀ p n, Q p n → Q' p n) → rep Q ns cap par T → rep Q' ns cap par T.
Proof.
  intros HQ. revert par.
  induction T as [a v cs IH] using shape_ind; intros par (n&?&?&?&?&?&Hcs)%rep_inv.
  econstructor; eauto.
Qed.

Lemma rep_addr_lt Q ns cap par T a :
  rep Q ns cap par T → a ∈ addrs T → a < length ns.
Proof.
  revert par. induction T as [a0 v cs IH] using shape_ind; intros par (n&Hn&?&?&?&?&Hcs)%rep_inv.
  intros [->|(i&c&Hi&Ha)]%elem_of_addrs_node.
  - by eapply lookup_lt_Some.
  - eapply IH; eauto.
Qed.

Lemma rep_items Q ns cap par T p x :
  rep Q ns cap par T → (p, x) ∈ items T →
  vec p ∈ addrs T ∧ ∃ n, ns !! vec p = Some n ∧ val n !! idx p = Some x.
Proof.
  revert par. induction T as [a v cs IH] using shape_ind; intros par (n&Hn&?&?&?&?&Hcs)%rep_inv.
  intros [(j&c&Hj&?&Hin)|(j&Hj&?&->)]%elem_of_items_node.
  - destruct (IH j c Hj _ (Hcs _ _ Hj) Hin) as [? ?]. split; [|done].
    apply elem_of_addrs_node. eauto.
  - cbn [vec idx]. split; [apply elem_of_addrs_node; auto|]. exists n. by subst.
Qed.

(** ** Sortedness of the in-order sequence *)

Lemma weave_sorted subs v lo hi i :
  StronglySorted Z.lt v → Forall (within lo hi) v →
  (∀ j sub, j ≤ length v → subs !! j = Some sub →
     StronglySorted Z.lt sub ∧ Forall (within (lower lo v j) (upper hi v j)) sub) →
  StronglySorted Z.lt (weave (fun _ x => x) i subs v) ∧
  Forall (within lo hi) (weave (fun _ x => x) i subs v).
Proof.
  revert v lo i. induction subs as [|sub subs IH]; intros v lo i Hs Hv Hsubs; simpl.
  { split; constructor. }
  destruct (Hsubs 0 sub ltac:(lia) eq_refl) as [Hsub Hsubw]. simpl in Hsubw.
  destruct v as [|x v].
  { rewrite app_nil_r. by split. }
  apply StronglySorted_cons in Hs as [Hxv Hs].
  apply Forall_cons in Hv as [Hx Hv].
  destruct (IH v (Some x) (S i) Hs) as [IH1 IH2].
  { rewrite Forall_forall in Hxv, Hv. apply Forall_forall. intros y Hy.
    split; [by apply Hxv|]. by apply Hv. }
  { intros j s Hj Hjs. destruct (Hsubs (S j) s) as [? Hw]; [simpl; lia|done|].
    split; [done|]. simpl in Hw.
    destruct j as [|j]; simpl in *; [done|].
    destruct (v !! j) eqn:Hvj; [done|].
    apply lookup_ge_None in Hvj. lia. }
  unfold upper in Hsubw. simpl in Hsubw. split.
  - apply StronglySorted_app_2; [|done|].
    + intros x1 x2 Hx1 [->|Hx2]%elem_of_cons.
      * rewrite Forall_forall in Hsubw. by destruct (Hsubw _ Hx1).
      * rewrite Forall_forall in Hsubw, IH2.
        destruct (Hsubw _ Hx1) as [_ ?]. destruct (IH2 _ Hx2) as [? _].
        simpl in *. lia.
    + apply StronglySorted_cons. split; [|done].
      eapply Forall_impl; [exact IH2|]. by intros ? [? _].
  - apply Forall_app. split.
    + eapply Forall_impl; [exact Hsubw|]. intros y [? Hy]. split; [done|].
      destruct Hx as [_ Hx]. destruct hi; simpl in *; [lia|done].
    + constructor; [done|]. eapply Forall_impl; [exact IH2|].
      intros y [Hy ?]. split; [|done].
      destruct Hx as [Hx _]. destruct lo; simpl in *; [lia|done].
Qed.

Lemma wfS_sorted cap lo hi T :
  wfS cap lo hi T →
  StronglySorted Z.lt (elems T) ∧ Forall (within lo hi) (elems T).
Proof.
  revert lo hi. induction T as [a v cs IH] using shape_ind; intros lo hi Hwf.
  inversion Hwf as [?????? Hs Hv Hlen Hcs Hfull Hkids]; subst.
  rewrite elems_node. apply weave_sorted; [done..|].
  intros j s Hj Hjs. rewrite list_lookup_fmap in Hjs.
  destruct (cs !! j) as [[c|]|] eqn:Hc; simplify_eq/=.
  - eapply IH; eauto.
  - split; constructor.
Qed.

(** ** Height and fuel *)

Lemma height_child a v cs i c :
  cs !! i = Some (Some c) → height c < height (SNode a v cs).
Proof.
  intros Hi. rewrite height_node. apply Nat.lt_succ_r, max_list_elem_of_le.
  apply list_elem_of_lookup. exists i. by rewrite list_lookup_fmap, Hi.
Qed.

Lemma height_pos T : 0 < height T.
Proof. destruct T. rewrite height_node. lia. Qed.

Lemma height_le_addrs T : height T ≤ length (addrs T).
Proof.
  induction T as [a v cs IH] using shape_ind.
  rewrite height_node, addrs_node, length_cons. apply le_n_S.
  clear a v. induction cs as [|c cs IHcs]; [done|].
  rewrite !fmap_cons. change (mjoin (?x :: ?l)) with (x ++ mjoin l).
  change (max_list (?x :: ?l)) with (x `max` max_list l).
  rewrite length_app.
  assert (subn height c ≤ length (sub addrs c)).
  { destruct c as [c|]; simpl; [|lia]. by apply (IH 0). }
  assert (max_list (subn height <$> cs) ≤ length (mjoin (sub addrs <$> cs))).
  { apply IHcs. intros i d Hi. by apply (IH (S i)). }
  lia.
Qed.

Lemma NoDup_lt_length (l : list nat) n :
  NoDup l → (∀ a, a ∈ l → a < n) → length l ≤ n.
Proof.
  intros Hnd Hlt. trans (length (seq 0 n)); [|by rewrite length_seq].
  apply submseteq_length.
  apply NoDup_submseteq; [done|]. intros a Ha. apply elem_of_seq.
  specialize (Hlt a Ha). lia.
Qed.

Lemma height_lt_fuel Q s cap par T :
  rep Q (nodes s) cap par T → NoDup (addrs T) → height T < fuel_of s.
Proof.
  intros Hrep Hnd. unfold fuel_of.
  pose proof (height_le_addrs T).
  pose proof (NoDup_lt_length (addrs T) (length (nodes s)) Hnd) as Hlen.
  assert (length (addrs T) ≤ length (nodes s)); [|lia].
  apply Hlen. intros a Ha. by eapply rep_addr_lt.
Qed.

Lemma sum_list_with_lookup_le (g : Node → nat) (ns : list Node) (l : list nat) :
  NoDup l →
  sum_list_with (fun a => from_option g 0 (ns !! a)) l ≤ sum_list_with g ns.
Proof.
  revert l. induction ns as [|n ns IH] using rev_ind; intros l Hnd.
  { induction l as [|a l IHl]; simpl; [done|].
    apply NoDup_cons in Hnd as [_ Hnd]. by apply IHl. }
  rewrite sum_list_with_app. simpl.
  destruct (decide (length ns ∈ l)) as [Hin|Hnin].
  - apply elem_of_Permutation in Hin as [l' Hl'].
    rewrite Hl' in Hnd |- *. apply NoDup_cons in Hnd as [Hnin Hnd]. simpl.
    rewrite lookup_app_r, Nat.sub_diag by lia. simpl.
    specialize (IH l' Hnd).
    assert (sum_list_with (fun a => from_option g 0 ((ns ++ [n]) !! a)) l'
            = sum_list_with (fun a => from_option g 0 (ns !! a)) l') as ->; [|lia].
    clear IH Hl' Hnd. induction l' as [|a l' IHl']; simpl; [done|].
    rewrite IHl' by (intros ?; apply Hnin; by right). f_equal.
    assert (a ≠ length ns) by (intros ->; apply Hnin; by left).
    destruct (decide (a < length ns)).
    + by rewrite lookup_app_l.
    + rewrite !lookup_ge_None_2; [done|lia|rewrite length_app; simpl; lia].
  - assert (sum_list_with (fun a => from_option g 0 ((ns ++ [n]) !! a)) l
            = sum_list_with (fun a => from_option g 0 (ns !! a)) l) as ->.
    { clear IH Hnd. induction l as [|a l IHl]; simpl; [done|].
      rewrite IHl by (intros ?; apply Hnin; by right). f_equal.
      assert (a ≠ length ns) by (intros ->; apply Hnin; by left).
      destruct (decide (a < length ns)).
      + by rewrite lookup_app_l.
      + rewrite !lookup_ge_None_2; [done|lia|rewrite length_app; simpl; lia]. }
    specialize (IH l Hnd). lia.
Qed.

Lemma items_length_le Q ns cap par T :
  rep Q ns cap par T →
  length (items T)
  ≤ sum_list_with (fun a => from_option (fun n => length (val n)) 0 (ns !! a)) (addrs T).
Proof.
  revert par. induction T as [a v cs IH] using shape_ind.
  intros par (n&Hn&?&?&?&?&Hcs)%rep_inv.
  rewrite items_node, addrs_node. simpl. rewrite Hn. simpl. subst v.
  etrans; [apply weave_length_le|]. apply Nat.add_le_mono_l.
  revert IH Hcs. clear. induction cs as [|c cs IHcs]; intros IH Hcs; [done|].
  rewrite !fmap_cons. change (mjoin (?x :: ?l)) with (x ++ mjoin l).
  rewrite sum_list_with_app. simpl.
  apply Nat.add_le_mono.
  - destruct c as [c|]; simpl; [|done]. eapply (IH 0); [done|]. by apply (Hcs 0).
  - apply IHcs.
    + intros i d Hi. by apply (IH (S i)).
    + intros i d Hi. by apply (Hcs (S i)).
Qed.

Lemma items_lt_fuel Q s cap par T :
  rep Q (nodes s) cap par T → NoDup (addrs T) → length (items T) < fuel_of s.
Proof.
  intros Hrep Hnd. unfold fuel_of. apply Nat.lt_succ_r.
  etrans; [by eapply items_length_le|].
  etrans; [by apply sum_list_with_lookup_le|]. lia.
Qed.

(** ** Where [begin()] and [end()] point *)

Lemma wfS_inv cap lo hi a v cs :
  wfS cap lo hi (SNode a v cs) →
  StronglySorted Z.lt v ∧ Forall (within lo hi) v ∧ length v ≤ cap ∧
  length cs = S cap ∧
  (∀ i c, cs !! i = Some (Some c) → length v = cap ∧ sval c ≠ []) ∧
  (∀ i c, cs !! i = Some (Some c) → wfS cap (lower lo v i) (upper hi v i) c).
Proof. inversion 1; subst. auto 10. Qed.

Lemma items_nonempty cap lo hi T : wfS cap lo hi T → sval T ≠ [] → items T ≠ [].
Proof.
  destruct T as [a v cs]. intros (_&_&_&Hcs&_)%wfS_inv Hv. simpl in Hv.
  destruct v as [|x v]; [done|].
  assert ((mkVI a 0, x) ∈ items (SNode a (x :: v) cs)) as Hin.
  { apply elem_of_items_node. right. exists 0. split_and!; [done|lia|done]. }
  intros Heq. rewrite Heq in Hin. by apply elem_of_nil in Hin.
Qed.

Lemma positions_nonempty cap lo hi T :
  wfS cap lo hi T → sval T ≠ [] → positions T ≠ [].
Proof.
  intros Hwf Hv Heq. apply (items_nonempty _ _ _ _ Hwf Hv).
  unfold positions in Heq. by apply fmap_nil_inv in Heq.
Qed.

Lemma begin_pos_node cap lo hi a v cs :
  wfS cap lo hi (SNode a v cs) →
  begin_pos (SNode a v cs) =
    match cs !! 0 with
    | Some (Some c) => begin_pos c
    | _ => mkVI a 0
    end.
Proof.
  intros Hwf. pose proof Hwf as (_&_&_&Hlen&Hfull&Hkids)%wfS_inv.
  unfold begin_pos at 1. rewrite positions_node.
  destruct cs as [|c0 cs]; [done|]. simpl.
  destruct c0 as [c|]; simpl.
  - destruct (Hfull 0 c eq_refl) as [_ Hne].
    pose proof (positions_nonempty _ _ _ _ (Hkids 0 c eq_refl) Hne) as Hp.
    unfold begin_pos. by destruct (positions c).
  - by destruct v.
Qed.

Lemma weave_last_own {A} (mk : nat → Z → A) i subs v x :
  length subs = length v → last v = Some x →
  last (weave mk i subs v) = Some (mk (i + length v - 1) x).
Proof.
  revert i v. induction subs as [|s subs IH]; intros i v Hlen Hv.
  { by destruct v. }
  destruct v as [|y v]; [done|]. simpl in *.
  destruct v as [|z v].
  - destruct subs; [|done]. simpl in *. simplify_eq. rewrite last_snoc.
    by replace (i + 1 - 1) with i by lia.
  - rewrite last_app, last_cons, (IH (S i) (z :: v)); [|lia|done].
    simpl. do 2 f_equal. lia.
Qed.

Lemma positions_split cap lo hi a v cs :
  wfS cap lo hi (SNode a v cs) →
  ∃ oc, cs !! length v = Some oc ∧
    positions (SNode a v cs) =
      weave (fun i _ => mkVI a i) 0 (take (length v) (sub positions <$> cs)) v
      ++ sub positions oc.
Proof.
  intros (_&_&Hv&Hlen&_)%wfS_inv.
  destruct (lookup_lt_is_Some_2 cs (length v)) as [oc Hoc]; [lia|].
  exists oc. split; [done|]. rewrite positions_node.
  rewrite (weave_split _ (length v)) by (rewrite ?length_fmap; lia).
  rewrite (take_ge v) by lia. f_equal.
  rewrite (drop_ge v) by lia.
  erewrite drop_S; [|by rewrite list_lookup_fmap, Hoc]. simpl.
  by rewrite app_nil_r.
Qed.

Lemma end_pos_node cap lo hi a v cs :
  wfS cap lo hi (SNode a v cs) →
  end_pos (SNode a v cs) =
    match cs !! length v with
    | Some (Some c) => end_pos c
    | _ => mkVI a (length v)
    end.
Proof.
  intros Hwf. pose proof Hwf as (_&_&Hv&Hlen&Hfull&Hkids)%wfS_inv.
  destruct (positions_split _ _ _ _ _ _ Hwf) as (oc & Hoc & Hpos).
  unfold end_pos at 1. rewrite Hpos, Hoc. destruct oc as [c|]; simpl.
  - destruct (Hfull _ c Hoc) as [_ Hne].
    pose proof (positions_nonempty _ _ _ _ (Hkids _ c Hoc) Hne) as Hp.
    rewrite last_app. unfold end_pos.
    destruct (last (positions c)) eqn:Hl; [done|]. by apply last_None in Hl.
  - rewrite app_nil_r. destruct (last v) as [x|] eqn:Hl.
    + erewrite (weave_last_own _ 0 _ v x); [|by rewrite length_take, length_fmap; lia|done].
      simpl. f_equal. destruct v; [done|]. simpl. lia.
    + apply last_None in Hl as ->. done.
Qed.

Lemma last_elems_node cap lo hi a v cs :
  wfS cap lo hi (SNode a v cs) →
  last (elems (SNode a v cs)) =
    match cs !! length v with
    | Some (Some c) => last (elems c)
    | _ => last v
    end.
Proof.
  intros Hwf. pose proof Hwf as (_&_&Hv&Hlen&Hfull&Hkids)%wfS_inv.
  destruct (lookup_lt_is_Some_2 cs (length v)) as [oc Hoc]; [lia|].
  rewrite elems_node, Hoc.
  rewrite (weave_split _ (length v)) by (rewrite ?length_fmap; lia).
  rewrite (take_ge v), (drop_ge v) by lia.
  erewrite drop_S; [|by rewrite list_lookup_fmap, Hoc]. cbn [weave].
  rewrite app_nil_r. destruct oc as [c|]; cbn [sub].
  - destruct (Hfull _ c Hoc) as [_ Hne].
    pose proof (items_nonempty _ _ _ _ (Hkids _ c Hoc) Hne) as Hp.
    rewrite last_app. destruct (last (elems c)) eqn:Hl; [done|].
    apply last_None in Hl. unfold elems in Hl. by apply fmap_nil_inv in Hl.
  - rewrite app_nil_r. destruct (last v) as [x|] eqn:Hl.
    + by erewrite (weave_last_own _ 0 _ v x);
        [|by rewrite length_take, length_fmap; lia|done].
    + apply last_None in Hl as ->. done.
Qed.

Section locate.
Context (k : access) (Q : option addr → Node → Prop) (s : Store) (cap : nat).

Lemma nodeBegin_spec T : ∀ fuel par lo hi,
  rep Q (nodes s) cap par T → wfS cap lo hi T → height T ≤ fuel →
  sval T ≠ [] →
  nodeBegin k fuel s (saddr T) = Ok (of_vi (begin_pos T)).
Proof.
  induction T as [a v cs IH] using shape_ind.
  intros fuel par lo hi Hrep Hwf Hh Hne.
  rewrite (begin_pos_node _ _ _ _ _ _ Hwf).
  pose proof Hwf as (_&_&Hv&Hlen&Hfull&Hkids)%wfS_inv.
  apply rep_inv in Hrep as (n&Hn&Hch&?&Hval&?&Hcs).
  destruct fuel as [|fuel]; [pose proof (height_pos (SNode a v cs)); lia|].
  simpl. unfold node_at. rewrite Hn. simpl. unfold child_at. rewrite Hch.
  rewrite list_lookup_fmap.
  destruct (cs !! 0) as [[c|]|] eqn:Hc; simpl.
  - eapply IH; eauto; [|by eapply Hfull].
    pose proof (height_child a v cs 0 c Hc). lia.
  - unfold val_it. rewrite Hval. simpl in Hne. by destruct v.
  - apply lookup_ge_None in Hc. lia.
Qed.

Lemma nodeEnd_spec T : ∀ fuel par lo hi,
  rep Q (nodes s) cap par T → wfS cap lo hi T → height T ≤ fuel →
  sval T ≠ [] →
  nodeEnd k fuel s (saddr T) = Ok (of_vi (end_pos T)).
Proof.
  induction T as [a v cs IH] using shape_ind.
  intros fuel par lo hi Hrep Hwf Hh Hne.
  rewrite (end_pos_node _ _ _ _ _ _ Hwf).
  pose proof Hwf as (_&_&Hv&Hlen&Hfull&Hkids)%wfS_inv.
  apply rep_inv in Hrep as (n&Hn&Hch&?&?&?&Hcs).
  destruct fuel as [|fuel]; [pose proof (height_pos (SNode a v cs)); lia|].
  simpl. unfold node_at. rewrite Hn. simpl. unfold child_at. rewrite Hch.
  rewrite list_lookup_fmap. subst v.
  destruct (cs !! length (val n)) as [[c|]|] eqn:Hc; simpl.
  - eapply IH; eauto; [|by eapply Hfull].
    pose proof (height_child a (val n) cs _ c Hc). lia.
  - unfold val_it. simpl in Hne. by destruct (val n).
  - apply lookup_ge_None in Hc. lia.
Qed.

(** An empty root has no children: [begin()] and [end()] are its null
    iterators. *)
Lemma nodeBegin_empty T fuel par lo hi :
  1 ≤ cap → rep Q (nodes s) cap par T → wfS cap lo hi T → sval T = [] →
  nodeBegin k (S fuel) s (saddr T) = Ok (mkPos (saddr T) None) ∧
  nodeEnd k (S fuel) s (saddr T) = Ok (mkPos (saddr T) None).
Proof.
  destruct T as [a v cs]. intros Hcap Hrep Hwf Hv. simpl in Hv. subst v.
  pose proof Hwf as (_&_&_&Hlen&Hfull&_)%wfS_inv.
  apply rep_inv in Hrep as (n&Hn&Hch&?&Hval&?&Hcs).
  simpl. unfold node_at. rewrite Hn. simpl. unfold child_at, val_it.
  rewrite Hval, Hch, !list_lookup_fmap. simpl.
  destruct (cs !! 0) as [[c|]|] eqn:Hc; simpl.
  - destruct (Hfull 0 c Hc) as [Hl _]. simpl in Hl. lia.
  - done.
  - apply lookup_ge_None in Hc. lia.
Qed.

Lemma leftmost_spec T : ∀ fuel par lo hi,
  rep Q (nodes s) cap par T → wfS cap lo hi T → height T ≤ fuel →
  leftmost fuel s (saddr T) = Ok (vec (begin_pos T)) ∧ idx (begin_pos T) = 0.
Proof.
  induction T as [a v cs IH] using shape_ind. intros fuel par lo hi Hrep Hwf Hh.
  rewrite (begin_pos_node _ _ _ _ _ _ Hwf).
  pose proof Hwf as (_&_&Hv&Hlen&Hfull&Hkids)%wfS_inv.
  apply rep_inv in Hrep as (n&Hn&Hch&?&?&?&Hcs).
  destruct fuel as [|fuel]; [pose proof (height_pos (SNode a v cs)); lia|].
  simpl. unfold node_at. rewrite Hn. simpl. unfold child_at. rewrite Hch.
  rewrite list_lookup_fmap.
  destruct (cs !! 0) as [[c|]|] eqn:Hc; simpl.
  - eapply IH; eauto. pose proof (height_child a v cs 0 c Hc). lia.
  - done.
  - apply lookup_ge_None in Hc. lia.
Qed.
End locate.

(** ** Insertion *)

Lemma weave_leaf subs v i :
  length v < length subs → (∀ j s, subs !! j = Some s → s = []) →
  weave (fun _ x => x) i subs v = v.
Proof.
  revert v i. induction subs as [|s subs IH]; intros v i Hlen Hnil; simpl in *.
  { lia. }
  rewrite (Hnil 0 s eq_refl). simpl. destruct v as [|x v]; [done|].
  simpl in *. f_equal. destruct subs as [|s' subs']; simpl in *; [lia|].
  apply (IH v (S i)); [simpl; lia|]. intros j s0 Hj. by apply (Hnil (S j)).
Qed.

Lemma leaf_elems a v cs :
  childless cs → length v < length cs → elems (SNode a v cs) = v.
Proof.
  intros Hno Hlen. rewrite elems_node. apply weave_leaf.
  - by rewrite length_fmap.
  - intros j s Hj. rewrite list_lookup_fmap in Hj.
    destruct (cs !! j) as [[c|]|] eqn:Hc; simplify_eq/=; [|done].
    by destruct (Hno j c).
Qed.

Lemma childless_replicate n : childless (replicate n None).
Proof. intros i c Hi. apply lookup_replicate in Hi as [? _]. done. Qed.

Lemma wfS_childless cap lo hi a v cs :
  wfS cap lo hi (SNode a v cs) → length v < cap → childless cs.
Proof.
  intros (_&_&_&_&Hfull&_)%wfS_inv Hlt i c Hi.
  destruct (Hfull i c Hi). lia.
Qed.

Lemma wfS_leaf cap lo hi a v cs :
  StronglySorted Z.lt v → Forall (within lo hi) v → length v ≤ cap →
  length cs = S cap → childless cs →
  wfS cap lo hi (SNode a v cs).
Proof.
  intros ???? Hno. constructor; [done..| |]; intros i c Hi; by destruct (Hno i c).
Qed.

Lemma rep_leaf Q ns cap par a v cs n :
  ns !! a = Some n → children n = (fmap (M:=option) saddr <$> cs) →
  maxSize n = cap → val n = v → Q par n → childless cs →
  rep Q ns cap par (SNode a v cs).
Proof.
  intros ????? Hno. econstructor; [done..|].
  intros i c Hi. by destruct (Hno i c).
Qed.

Lemma addrs_childless a v cs : childless cs → addrs (SNode a v cs) = [a].
Proof.
  intros Hno. rewrite addrs_node. f_equal. apply join_nil_2, Forall_forall.
  intros l [i Hi]%list_elem_of_lookup. rewrite list_lookup_fmap in Hi.
  destruct (cs !! i) as [[c|]|] eqn:Hc; simplify_eq/=; [|done].
  by destruct (Hno i c).
Qed.

Lemma rep_set_kid Q ns cap par a v cs p c' n :
  ns !! a = Some n →
  children n = (fmap (M:=option) saddr <$> <[p := Some c']> cs) →
  maxSize n = cap → val n = v → Q par n →
  rep Q ns cap (Some a) c' →
  (∀ i c, i ≠ p → cs !! i = Some (Some c) → rep Q ns cap (Some a) c) →
  rep Q ns cap par (SNode a v (<[p := Some c']> cs)).
Proof.
  intros ????? Hc' Hothers. econstructor; [done..|].
  intros i c Hi. destruct (decide (i = p)) as [->|Hne].
  - apply list_lookup_insert_Some in Hi as [(_&?&_)|(?&_)]; [by simplify_eq|done].
  - rewrite list_lookup_insert_ne in Hi by done. eauto.
Qed.

Lemma wfS_set_kid cap lo hi a v cs p c' :
  wfS cap lo hi (SNode a v cs) →
  length v = cap → sval c' ≠ [] →
  wfS cap (lower lo v p) (upper hi v p) c' →
  wfS cap lo hi (SNode a v (<[p := Some c']> cs)).
Proof.
  intros (?&?&?&?&Hfull&Hkids)%wfS_inv Hv Hne Hc'.
  constructor; [done..|by rewrite length_insert| |].
  - intros i c Hi. destruct (decide (i = p)) as [->|Hnp].
    + apply list_lookup_insert_Some in Hi as [(_&?&_)|(?&_)]; [by simplify_eq|done].
    + rewrite list_lookup_insert_ne in Hi by done. eauto.
  - intros i c Hi. destruct (decide (i = p)) as [->|Hnp].
    + apply list_lookup_insert_Some in Hi as [(_&?&_)|(?&_)]; [by simplify_eq|done].
    + rewrite list_lookup_insert_ne in Hi by done. eauto.
Qed.

Lemma elem_of_addrs_set_kid a v cs p c' x :
  p < length cs →
  x ∈ addrs (SNode a v (<[p := Some c']> cs)) ↔
    x = a ∨ x ∈ addrs c' ∨ ∃ i c, i ≠ p ∧ cs !! i = Some (Some c) ∧ x ∈ addrs c.
Proof.
  intros Hp. rewrite elem_of_addrs_node. f_equiv. split.
  - intros (i & c & Hi & Hx). destruct (decide (i = p)) as [->|Hne].
    + rewrite list_lookup_insert_eq in Hi by done. simplify_eq. by left.
    + rewrite list_lookup_insert_ne in Hi by done. right. eauto.
  - intros [Hx|(i & c & Hne & Hi & Hx)].
    + exists p, c'. by rewrite list_lookup_insert_eq.
    + exists i, c. by rewrite list_lookup_insert_ne.
Qed.

Lemma NoDup_set_kid a v cs p c' :
  p < length cs →
  NoDup (addrs (SNode a v cs)) →
  NoDup (addrs c') → a ∉ addrs c' →
  (∀ i c x, i ≠ p → cs !! i = Some (Some c) → x ∈ addrs c → x ∉ addrs c') →
  NoDup (addrs (SNode a v (<[p := Some c']> cs))).
Proof.
  intros Hp [Hall Hpair]%NoDup_addrs_node Hnd Ha Hdisj.
  apply NoDup_addrs_node. split.
  - intros i c Hi. destruct (decide (i = p)) as [->|Hne].
    + rewrite list_lookup_insert_eq in Hi by done. by simplify_eq.
    + rewrite list_lookup_insert_ne in Hi by done. eauto.
  - intros i j c d x Hi Hj Hx Hx'.
    destruct (decide (i = p)) as [->|Hi'], (decide (j = p)) as [->|Hj']; [done|..].
    + rewrite list_lookup_insert_eq in Hi by done.
      rewrite list_lookup_insert_ne in Hj by done. simplify_eq.
      by destruct (Hdisj j d x).
    + rewrite list_lookup_insert_eq in Hj by done.
      rewrite list_lookup_insert_ne in Hi by done. simplify_eq.
      by destruct (Hdisj i c x).
    + rewrite list_lookup_insert_ne in Hi, Hj by done. eauto.
Qed.

Lemma elems_set_kid a v cs p c c' e :
  cs !! p = Some c → p ≤ length v →
  elems c' ≡ₚ e :: sub elems c →
  elems (SNode a v (<[p := Some c']> cs)) ≡ₚ e :: elems (SNode a v cs).
Proof.
  intros Hp Hv Hperm. rewrite !elems_node, list_fmap_insert. simpl.
  eapply weave_insert_perm; [|done..]. by rewrite list_lookup_fmap, Hp.
Qed.

Lemma items_set_kid a v cs p c' x :
  p < length cs → p ≤ length v → x ∈ items c' →
  x ∈ items (SNode a v (<[p := Some c']> cs)).
Proof.
  destruct x as [q x]. intros ???. apply elem_of_items_node. left.
  exists p, c'. by rewrite list_lookup_insert_eq.
Qed.

Lemma elem_of_elems_child cap lo hi a v cs e j c :
  wfS cap lo hi (SNode a v cs) →
  cs !! j = Some (Some c) → j ≤ length v → e ∈ elems c →
  j = lower_bound v e.
Proof.
  intros (Hs&_&_&_&_&Hkids)%wfS_inv Hj Hjv He. symmetry.
  destruct (wfS_sorted _ _ _ _ (Hkids _ _ Hj)) as [_ Hw].
  rewrite Forall_forall in Hw.
  eapply lower_bound_partition; [done..|by apply Hw].
Qed.

Section insertion.
Context (k : access) (t cap : nat) (Hcap : 1 ≤ cap).
Context (Hbnd : (Z.of_nat cap < 2 ^ 31)%Z).

(** In-place cases: the element goes into the buffer of a childless node. *)
Lemma inserted_here s par lo hi a v cs n v' p e :
  rep (linked t) (nodes s) cap par (SNode a v cs) →
  wfS cap lo hi (SNode a v cs) →
  nodes s !! a = Some n →
  length v < cap →
  StronglySorted Z.lt v' → v' ≡ₚ e :: v → v' !! p = Some e → e ∉ v →
  within lo hi e →
  inserted t cap par lo hi s (SNode a v cs) e
    (set_node s a (with_val n v')) (SNode a v' cs) (at_ (k:=k) a p) true.
Proof.
  intros Hrep Hwf Hn Hlt Hs' Hperm Hp Hnin Hin.
  pose proof (wfS_childless _ _ _ _ _ _ Hwf Hlt) as Hno.
  pose proof Hwf as (Hs&Hv&_&Hlen&_&_)%wfS_inv.
  apply rep_inv in Hrep as (n0&Hn0&Hch&Hms&Hval&[Hroot Hpar]&_).
  assert (n0 = n) as -> by congruence.
  assert (length v' = S (length v)) as Hlen'.
  { by rewrite (Permutation_length Hperm). }
  assert (a < length (nodes s)) by by eapply lookup_lt_Some.
  split; cbn [saddr sval at_ pos ptr vec idx set_node nodes trees].
  - done.
  - done.
  - eapply rep_leaf; [by apply list_lookup_insert_eq|done..].
  - apply wfS_leaf; [done| |lia|done..].
    rewrite Hperm. by constructor.
  - rewrite addrs_childless by done. apply NoDup_singleton.
  - intros ->. by apply Permutation_nil_cons in Hperm.
  - exists (mkVI a p). split; [done|]. apply elem_of_items_node. right. exists p.
    apply lookup_lt_Some in Hp as Hp'. split_and!; [done|lia|done].
  - intros _. rewrite !leaf_elems by (done || lia). done.
  - done.
  - by rewrite length_insert.
  - intros b ? Hb. rewrite list_lookup_insert_ne; [done|].
    intros ->. apply Hb, (saddr_in_addrs (SNode _ _ _)).
  - intros b. rewrite !addrs_childless by done. auto.
  - intros b. by rewrite !addrs_childless by done.
  - intros b ? Hb. cbn [set_node nodes] in Hb. rewrite length_insert in Hb. lia.
Qed.

Lemma nodeInsert_spec T : ∀ fuel s par lo hi e,
  rep (linked t) (nodes s) cap par T →
  wfS cap lo hi T →
  NoDup (addrs T) →
  within lo hi e →
  height T < fuel →
  ∃ s' T' it b,
    nodeInsert k fuel s (saddr T) e = Ok (s', (it, b)) ∧
    inserted t cap par lo hi s T e s' T' it b.
Proof.
  induction T as [a v cs IH] using shape_ind.
  intros fuel s par lo hi e Hrep Hwf Hnd Hin Hfuel.
  pose proof Hwf as (Hs&Hv&Hvlen&Hlen&Hfull&Hkids)%wfS_inv.
  pose proof Hrep as (n&Hn&Hch&Hms&Hval&[Hroot Hpar]&Hcs)%rep_inv.
  assert (a < length (nodes s)) as Ha by by eapply lookup_lt_Some.
  destruct fuel as [|fuel]; [lia|].
  cbn [nodeInsert saddr]. unfold node_at. rewrite Hn. cbn [opt mbind Result_bind].
  rewrite Hval, Hms.
  destruct (decide (v = [])) as [->|Hvne].
  { (* empty buffer *)
    do 4 eexists. split; [done|].
    eapply (inserted_here s par lo hi a [] cs n [e] 0 e); try done; try lia.
    - repeat constructor.
    - by intros ?%elem_of_nil. }
  assert (∀ X (A B : X), match v with [] => A | _ :: _ => B end = B) as Hm.
  { intros. by destruct v. }
  rewrite Hm. clear Hm. set (p := lower_bound v e).
  assert (p ≤ length v) as Hp by apply lower_bound_le.
  destruct (decide (v !! p = Some e)) as [Hhit|Hmiss].
  { (* an equal element is already there *)
    exists s, (SNode a v cs), (at_ a p), false. split; [done|].
    apply lookup_lt_Some in Hhit as Hp'.
    split; cbn [saddr sval at_ pos ptr vec idx]; try done.
    - exists (mkVI a p). split; [done|]. apply elem_of_items_node. right. exists p. split_and!; [done|lia|done].
    - intros _. split_and!; [|done..]. apply elem_of_elems_node. right.
      exists p. split; [done|lia].
    - auto.
    - intros b ??. lia. }
  pose proof (lower_bound_notin _ _ Hs Hmiss) as Hnin.
  destruct (decide (length v < cap)) as [Hroom|Hfullv].
  { (* room in the buffer *)
    do 4 eexists. split; [done|].
    eapply (inserted_here s par lo hi a v cs n _ p e); try done.
    - by apply vec_insert_sorted.
    - apply vec_insert_perm.
    - by apply vec_insert_lookup. }
  assert (length v = cap) as Hvcap by lia.
  unfold child_at. rewrite Hch, list_lookup_fmap.
  destruct (lookup_lt_is_Some_2 cs p) as [oc Hoc]; [lia|].
  rewrite Hoc. cbn [fmap option_fmap option_map opt mbind Result_bind].
  pose proof (lower_bound_within _ _ _ _ Hs Hv Hin Hmiss) as Hwin. fold p in Hwin.
  destruct oc as [c|]; cbn [fmap option_fmap option_map].
  { (* descend into the child *)
    apply NoDup_addrs_node in Hnd as Hnd'. destruct Hnd' as [Hndk Hpair].
    destruct (Hndk _ _ Hoc) as [Hac Hndc].
    pose proof (height_child a v cs p c Hoc) as Hhc.
    destruct (IH p c Hoc fuel s (Some a) _ _ e (Hcs _ _ Hoc) (Hkids _ _ Hoc)
                Hndc Hwin ltac:(lia)) as (s' & c' & it & b & Heq & Hins).
    exists s', (SNode a v (<[p := Some c']> cs)), it, b. split; [done|].
    destruct Hins as [ins_trees0 ins_addr0 ins_rep0 ins_wf0 ins_nodup0
      ins_nonempty0 ins_item0 ins_new0 ins_old0 ins_grow0 ins_frame0
      ins_addrs0 ins_keep0 ins_spawn0].
    assert (p < length cs) as Hpcs by lia.
    assert (nodes s' !! a = Some n) as Hn'.
    { by rewrite ins_frame0. }
    assert (∀ i d x, i ≠ p → cs !! i = Some (Some d) → x ∈ addrs d →
              x < length (nodes s) ∧ x ∉ addrs c) as Hother.
    { intros i d x Hne Hi Hx. split.
      - eapply rep_addr_lt; [exact (Hcs _ _ Hi)|done].
      - intros Hx'. destruct Hne. by eapply (Hpair i p d c x). }
    split; cbn [saddr sval]; try done.
    - eapply rep_set_kid; [done| |done..|].
      + rewrite list_fmap_insert. cbn [fmap option_fmap option_map].
        rewrite ins_addr0, Hch. symmetry. apply list_insert_id.
        by rewrite list_lookup_fmap, Hoc.
      + intros i d Hne Hi. eapply rep_frame; [by eauto|].
        intros x Hx. destruct (Hother i d x Hne Hi Hx). by apply ins_frame0.
    - by apply wfS_set_kid.
    - apply NoDup_set_kid; [done..| |].
      + intros [?|?]%ins_addrs0; [done|lia].
      + intros i d x Hne Hi Hx [?|?]%ins_addrs0;
          destruct (Hother i d x Hne Hi Hx); [done|lia].
    - destruct ins_item0 as (q & ? & ?). exists q. split; [done|].
      by apply items_set_kid.
    - intros ->. destruct (ins_new0 eq_refl) as [Hnc Hperm]. split.
      + intros [(j&d&Hj&Hjv&He)|(j&Hj&_)]%elem_of_elems_node.
        * assert (j = p) as -> by by eapply elem_of_elems_child.
          by simplify_eq.
        * apply Hnin. by eapply list_elem_of_lookup_2.
      + by eapply elems_set_kid.
    - intros ->. destruct (ins_old0 eq_refl) as (He & -> & ->). split_and!.
      + apply elem_of_elems_node. left. eauto.
      + done.
      + f_equal. by apply list_insert_id.
    - intros x ? Hx. apply ins_frame0; [done|]. intros ?. apply Hx.
      apply elem_of_addrs_node. eauto.
    - intros x [->|[Hx|(i&d&?&?&?)]]%elem_of_addrs_set_kid; [| |left|done].
      + left. apply (saddr_in_addrs (SNode _ _ _)).
      + destruct (ins_addrs0 x Hx); [left|by right].
        apply elem_of_addrs_node. eauto.
      + apply elem_of_addrs_node. eauto.
    - intros x [->|(i&d&Hi&Hx)]%elem_of_addrs_node;
        apply elem_of_addrs_set_kid; [done|by left|done|].
      right. destruct (decide (i = p)) as [->|Hne].
      + left. simplify_eq. by apply ins_keep0.
      + right. eauto.
    - intros x Hx1 Hx2.
      destruct (ins_spawn0 x Hx1 Hx2) as (q&np&np'&na&i&Hq&?).
      exists q, np, np', na, i. split; [|done].
      apply elem_of_addrs_node. eauto. }
  (* spawn the child *)
  apply NoDup_addrs_node in Hnd as Hnd'. destruct Hnd' as [Hndk Hpair].
  set (c0 := length (nodes s)).
  set (fresh := new_node (root n) (Some a) cap).
  set (n' := with_children n (<[p:=Some c0]> (fmap (M:=option) saddr <$> cs))).
  set (c' := SNode c0 [e] (replicate (S cap) None)).
  assert (p < length cs) as Hpcs by lia.
  destruct fuel as [|fuel]; [pose proof (height_pos (SNode a v cs)); lia|].
  assert (a ≠ c0) as Hac by (unfold c0; lia).
  cbn [alloc nodeInsert]. unfold node_at. cbn [set_node nodes].
  rewrite list_lookup_insert_ne, lookup_app_r, Nat.sub_diag by (done || lia).
  cbn [lookup list_lookup opt mbind Result_bind val new_node].
  fold c0 fresh.
  exists (set_node (set_node (mkStore (nodes s ++ [fresh]) (trees s)) a n')
                   c0 (with_val fresh [e])),
         (SNode a v (<[p := Some c']> cs)), (at_ c0 0), true.
  split; [done|].
  assert (∀ x, x < c0 → x ≠ a →
            <[c0 := with_val fresh [e]]> (<[a := n']> (nodes s ++ [fresh])) !! x
            = nodes s !! x) as Hfr.
  { intros x ??. rewrite !list_lookup_insert_ne by lia. by apply lookup_app_l. }
  assert (<[c0 := with_val fresh [e]]> (<[a := n']> (nodes s ++ [fresh])) !! a
          = Some n') as Hn'.
  { rewrite list_lookup_insert_ne by done. apply list_lookup_insert_eq.
    rewrite length_app. lia. }
  assert (<[c0 := with_val fresh [e]]> (<[a := n']> (nodes s ++ [fresh])) !! c0
          = Some (with_val fresh [e])) as Hc0.
  { apply list_lookup_insert_eq. rewrite length_insert, length_app. simpl.
    unfold c0. lia. }
  assert (∀ i d x, cs !! i = Some (Some d) → x ∈ addrs d → x < c0 ∧ x ≠ a)
    as Hother.
  { intros i d x Hi Hx. split.
    - eapply rep_addr_lt; [exact (Hcs _ _ Hi)|done].
    - intros ->. by destruct (Hndk i d Hi). }
  assert (rep (linked t)
            (<[c0 := with_val fresh [e]]> (<[a := n']> (nodes s ++ [fresh])))
            cap (Some a) c') as Hrepc.
  { eapply rep_leaf; [exact Hc0| |done|done| |apply childless_replicate].
    - rewrite fmap_replicate. unfold fresh, new_node. cbn [children with_val].
      by rewrite (slots_small cap Hbnd).
    - by split. }
  assert (wfS cap (lower lo v p) (upper hi v p) c') as Hwfc.
  { apply wfS_leaf; [repeat constructor|by apply Forall_singleton|simpl; lia|
                     by rewrite length_replicate|apply childless_replicate]. }
  assert (addrs c' = [c0]) as Hac'.
  { apply addrs_childless, childless_replicate. }
  assert (elems c' = [e]) as Hec'.
  { apply leaf_elems; [apply childless_replicate|].
    rewrite length_replicate. simpl. lia. }
  split; cbn [saddr sval at_ pos ptr vec idx set_node nodes trees]; try done.
  - eapply rep_set_kid; [exact Hn'| |done..|].
    + unfold n'. cbn. by rewrite list_fmap_insert.
    + intros i d Hne Hi. eapply rep_frame; [exact (Hcs _ _ Hi)|].
      intros x Hx. destruct (Hother i d x Hi Hx). by apply Hfr.
  - by apply wfS_set_kid.
  - apply NoDup_set_kid; [done..|rewrite Hac'; apply NoDup_singleton| |].
    + rewrite Hac'. by intros ?%list_elem_of_singleton.
    + intros i d x _ Hi Hx. rewrite Hac'. intros ->%list_elem_of_singleton.
      destruct (Hother i d c0 Hi Hx). lia.
  - exists (mkVI c0 0). split; [done|]. apply items_set_kid; [done..|]. apply elem_of_items_node. right.
    exists 0. rewrite length_replicate. split_and!; [done|lia|done].
  - intros _. split.
    + intros [(j&d&Hj&Hjv&He)|(j&Hj&_)]%elem_of_elems_node.
      * assert (j = p) as -> by by eapply elem_of_elems_child.
        by simplify_eq.
      * apply Hnin. by eapply list_elem_of_lookup_2.
    + eapply elems_set_kid; [done..|]. by rewrite Hec'.
  - rewrite !length_insert, length_app. lia.
  - intros x ? Hx. apply Hfr; [done|]. intros ->.
    apply Hx, (saddr_in_addrs (SNode _ _ _)).
  - intros x [->|[Hx|(i&d&?&?&?)]]%elem_of_addrs_set_kid; [| |left|done].
    + left. apply (saddr_in_addrs (SNode _ _ _)).
    + right. rewrite Hac' in Hx. apply list_elem_of_singleton in Hx. by subst.
    + apply elem_of_addrs_node. eauto.
  - intros x [->|(i&d&Hi&Hx)]%elem_of_addrs_node;
      apply elem_of_addrs_set_kid; [done|by left|done|].
    right. right. exists i, d. split_and!; [|done..]. intros ->. congruence.
  - intros x Hx1 Hx2. cbn [set_node nodes] in Hx2.
    rewrite !length_insert, length_app in Hx2. simpl in Hx2.
    assert (x = c0) as -> by (unfold c0; lia).
    exists a, n, n', (with_val fresh [e]), p. split_and!; try done.
    + apply (saddr_in_addrs (SNode _ _ _)).
    + congruence.
    + by rewrite Hch, list_lookup_fmap, Hoc.
    + unfold n'. cbn. apply list_lookup_insert_eq. by rewrite length_fmap.
Qed.
End insertion.

(** ** Stepping forward *)

Lemma chain_lookup {A} (R : A → A → Prop) l i x y :
  chain R l → l !! i = Some x → l !! S i = Some y → R x y.
Proof.
  revert i. induction l as [|z l IH]; intros i Hc Hx Hy; [done|].
  destruct Hc as [Hz Hc]. destruct i as [|i]; simpl in *.
  - destruct l; simplify_eq/=. done.
  - eauto.
Qed.

Lemma chain_app {A} (R : A → A → Prop) l1 x l2 :
  chain R (l1 ++ [x]) → chain R (x :: l2) → chain R (l1 ++ x :: l2).
Proof.
  induction l1 as [|z l1 IH]; intros H1 H2; [done|].
  destruct H1 as [Hz H1]. split; [|by apply IH].
  destruct l1; simpl in *; done.
Qed.

Lemma chain_cons {A} (R : A → A → Prop) x l :
  (∀ y, head l = Some y → R x y) → chain R l → chain R (x :: l).
Proof. intros Hx Hl. split; [|done]. destruct l; [done|]. by apply Hx. Qed.

Lemma head_snoc_app {A} (l l' : list A) x h :
  head (l ++ [x]) = Some h → head (l ++ x :: l') = Some h.
Proof. by destruct l. Qed.

(** The chain through a node: every child segment leads to the entry that
    follows it, every entry leads to the start of the next segment. *)
Lemma chain_weave {A} (R : A → A → Prop) (mk : nat → Z → A) i subs v nx :
  length v < length subs →
  (∀ j sub, subs !! j = Some sub → j ≤ length v →
     chain R (sub ++ [from_option (mk (i + j)) nx (v !! j)])) →
  (∀ j x sub, v !! j = Some x → subs !! S j = Some sub →
     ∃ h, head (sub ++ [from_option (mk (i + S j)) nx (v !! S j)]) = Some h ∧
          R (mk (i + j) x) h) →
  chain R (weave mk i subs v ++ [nx]).
Proof.
  revert i v. induction subs as [|sub subs IH]; intros i v Hlen Hseg Hstep.
  { simpl in Hlen. lia. }
  cbn [weave]. destruct v as [|x v].
  { rewrite app_nil_r. by apply (Hseg 0 sub). }
  rewrite <-app_assoc. cbn [app]. simpl in Hlen.
  destruct subs as [|sub1 subs]; [simpl in Hlen; lia|].
  apply chain_app.
  { specialize (Hseg 0 sub eq_refl ltac:(simpl; lia)).
    by rewrite Nat.add_0_r in Hseg. }
  apply chain_cons.
  - intros y Hy. destruct (Hstep 0 x sub1 eq_refl eq_refl) as (h & Hh & HR).
    rewrite Nat.add_0_r in HR. rewrite Nat.add_succ_r, Nat.add_0_r in Hh.
    cbn [weave] in Hy. assert (h = y) as ->; [|done].
    destruct sub1 as [|z sub1]; simpl in *; [|congruence].
    destruct v; simpl in *; congruence.
  - apply IH; [simpl in *; lia|..].
    + intros j s Hj Hjv. specialize (Hseg (S j) s Hj ltac:(simpl; lia)).
      by rewrite Nat.add_succ_r in Hseg.
    + intros j y s Hj Hs. destruct (Hstep (S j) y s Hj Hs) as (h & Hh & HR).
      exists h. by rewrite !Nat.add_succ_r in *.
Qed.

Lemma end_pos_spec Q ns cap lo hi T : ∀ par,
  rep Q ns cap par T → wfS cap lo hi T →
  vec (end_pos T) ∈ addrs T ∧
  ∃ n, ns !! vec (end_pos T) = Some n ∧ idx (end_pos T) = length (val n).
Proof.
  revert lo hi. induction T as [a v cs IH] using shape_ind.
  intros lo hi par Hrep Hwf.
  rewrite (end_pos_node _ _ _ _ _ _ Hwf).
  pose proof Hwf as (_&_&Hv&Hlen&Hfull&Hkids)%wfS_inv.
  apply rep_inv in Hrep as (n&Hn&Hch&?&?&?&Hcs).
  destruct (cs !! length v) as [[c|]|] eqn:Hc.
  - destruct (IH _ c Hc _ _ _ (Hcs _ _ Hc) (Hkids _ _ Hc)) as [Hin Hnode].
    split; [|done]. apply elem_of_addrs_node. eauto.
  - split; [apply (saddr_in_addrs (SNode _ _ _))|]. exists n. by subst.
  - split; [apply (saddr_in_addrs (SNode _ _ _))|]. exists n. by subst.
Qed.

Lemma rep_linked_lookup t ns cap par T a :
  rep (linked t) ns cap par T → a ∈ addrs T →
  ∃ n, ns !! a = Some n ∧ root n = t.
Proof.
  revert par. induction T as [a0 v cs IH] using shape_ind.
  intros par (n&Hn&?&?&?&[? ?]&Hcs)%rep_inv.
  intros [->|(i&c&Hi&Ha)]%elem_of_addrs_node; [eauto|].
  eapply IH; eauto.
Qed.

Lemma begin_pos_head cap lo hi T :
  wfS cap lo hi T → sval T ≠ [] → head (positions T) = Some (begin_pos T).
Proof.
  intros Hwf Hne. pose proof (positions_nonempty _ _ _ _ Hwf Hne).
  unfold begin_pos. by destruct (positions T).
Qed.

(** The buffer of an element holds elements. *)
Lemma item_cell Q ns cap par T p x :
  rep Q ns cap par T → (p, x) ∈ items T →
  ∃ n, ns !! vec p = Some n ∧ val n ≠ [].
Proof.
  intros Hrep Hin. destruct (rep_items _ _ _ _ _ _ _ Hrep Hin) as (_&n&Hn&Hx).
  exists n. split; [done|]. intros Heq. by rewrite Heq in Hx.
Qed.

Lemma begin_pos_cell Q ns cap par lo hi T :
  rep Q ns cap par T → wfS cap lo hi T → sval T ≠ [] →
  ∃ n, ns !! vec (begin_pos T) = Some n ∧ val n ≠ [].
Proof.
  intros Hrep Hwf Hne. pose proof (begin_pos_head _ _ _ _ Hwf Hne) as Hh.
  unfold positions in Hh. destruct (items T) as [|[p x] l] eqn:Hi; [done|].
  injection Hh as Hh. rewrite <-Hh. eapply item_cell; [done|].
  rewrite Hi. left.
Qed.

Section forward.
Context (k : access) (s : Store) (t cap : nat) (R : Shape).
Context (Hcap : 1 ≤ cap).
Context (Hend : end_ k s t = Ok (of_vi (end_pos R))).

Lemma climb_up_step f temp c i nc a na :
  nodes s !! c = Some nc → root nc = t → parent nc = Some a →
  nodes s !! a = Some na → val na ≠ [] → c ≠ vec (end_pos R) →
  climb_up k (S f) s temp (at_ c i) =
    if decide (lower_bound (val na) temp ≠ length (val na))
    then Ok (at_ a (lower_bound (val na) temp))
    else climb_up k f s temp (at_ a (lower_bound (val na) temp)).
Proof.
  intros Hc Hroot Hpar Ha Hna Hne. cbn [climb_up at_ ptr]. unfold node_at.
  rewrite Hc. cbn [opt mbind Result_bind]. rewrite Hroot, Hend.
  cbn [mbind Result_bind]. unfold it_neq, it_eq. cbn [pos of_vi].
  rewrite bool_decide_eq_false_2; [|intros [= Heq]; apply Hne; by rewrite <-Heq].
  cbn [negb]. rewrite Hpar. cbn [opt mbind Result_bind]. rewrite Ha.
  cbn [opt mbind Result_bind idx pos]. rewrite !(val_it_nonempty na) by done.
  fold (@at_ k a (lower_bound (val na) temp)).
  repeat case_decide; (done || congruence).
Qed.

Lemma climb_up_stop f temp n :
  nodes s !! vec (end_pos R) = Some n → root n = t →
  climb_up k (S f) s temp (of_vi (end_pos R)) = Ok (of_vi (end_pos R)).
Proof.
  intros Hn Hroot. cbn [climb_up of_vi ptr]. unfold node_at.
  rewrite Hn. cbn [opt mbind Result_bind]. rewrite Hroot, Hend.
  cbn [mbind Result_bind]. unfold it_neq, it_eq. cbn [pos of_vi].
  by rewrite bool_decide_eq_true_2.
Qed.

Lemma climb_spine T : ∀ par lo hi temp,
  rep (linked t) (nodes s) cap par T → wfS cap lo hi T →
  vec (end_pos R) ∉ addrs T → last (elems T) = Some temp →
  ∃ d, d < height T ∧ ∀ f,
    climb_up k (d + f) s temp (of_vi (end_pos T))
    = climb_up k f s temp (at_ (saddr T) (length (sval T))).
Proof.
  induction T as [a v cs IH] using shape_ind.
  intros par lo hi temp Hrep Hwf Hout Hlast.
  rewrite (end_pos_node _ _ _ _ _ _ Hwf).
  rewrite (last_elems_node _ _ _ _ _ _ Hwf) in Hlast.
  pose proof Hwf as (Hs&_&Hv&Hlen&Hfull&Hkids)%wfS_inv.
  pose proof Hrep as (n&Hn&Hch&?&Hval&[Hroot Hpar]&Hcs)%rep_inv.
  cbn [saddr sval].
  destruct (cs !! length v) as [[c|]|] eqn:Hc;
    [|exists 0; split; [apply height_pos|done]..].
  assert (vec (end_pos R) ∉ addrs c) as Houtc.
  { intros ?. apply Hout, elem_of_addrs_node. eauto. }
  destruct (IH _ c Hc _ _ _ temp (Hcs _ _ Hc) (Hkids _ _ Hc) Houtc Hlast)
    as (d & Hd & Hclimb).
  pose proof (height_child a v cs _ c Hc).
  exists (S d). split; [lia|]. intros f.
  replace (S d + f) with (d + S f) by lia. rewrite Hclimb.
  destruct (rep_root _ _ _ _ _ (Hcs _ _ Hc)) as (nc&Hnc&_&_&_&[Hrc Hpc]).
  assert (val n ≠ []) as Hne.
  { rewrite Hval. destruct (Hfull _ _ Hc) as [Hl _]. intros ->. simpl in Hl. lia. }
  rewrite (climb_up_step f temp (saddr c) _ nc a n); try done.
  - rewrite Hval.
    assert (lower_bound v temp = length v) as ->.
    { eapply lower_bound_partition; [done|lia|].
      destruct (wfS_sorted _ _ _ _ (Hkids _ _ Hc)) as [_ Hw].
      rewrite Forall_forall in Hw. apply Hw.
      apply last_Some_elem_of in Hlast. done. }
    by rewrite decide_False by (intros ?; done).
  - intros Heq. apply Houtc. rewrite <-Heq. apply saddr_in_addrs.
Qed.

Lemma climb_exit a v cs j c par lo hi temp :
  rep (linked t) (nodes s) cap par (SNode a v cs) →
  wfS cap lo hi (SNode a v cs) →
  NoDup (addrs (SNode a v cs)) →
  cs !! j = Some (Some c) → j < length v →
  vec (end_pos R) ∉ addrs c → last (elems c) = Some temp →
  climb_up k (fuel_of s) s temp (of_vi (end_pos c)) = Ok (at_ a j).
Proof.
  intros Hrep Hwf Hnd Hc Hj Hout Hlast.
  pose proof Hwf as (Hs&_&Hv&Hlen&Hfull&Hkids)%wfS_inv.
  pose proof Hrep as (n&Hn&Hch&?&Hval&[Hroot Hpar]&Hcs)%rep_inv.
  apply NoDup_addrs_node in Hnd as [Hndk _]. destruct (Hndk _ _ Hc) as [_ Hndc].
  destruct (climb_spine c _ _ _ temp (Hcs _ _ Hc) (Hkids _ _ Hc) Hout Hlast)
    as (d & Hd & Hclimb).
  pose proof (height_lt_fuel _ _ _ _ _ (Hcs _ _ Hc) Hndc) as Hfuel.
  replace (fuel_of s) with (d + S (fuel_of s - d - 1)) by lia.
  rewrite Hclimb.
  destruct (rep_root _ _ _ _ _ (Hcs _ _ Hc)) as (nc&Hnc&_&_&_&[Hrc Hpc]).
  assert (val n ≠ []) as Hne.
  { rewrite Hval. destruct (Hfull _ _ Hc) as [Hl _]. intros ->. simpl in Hl. lia. }
  rewrite (climb_up_step _ temp (saddr c) _ nc a n); try done.
  - rewrite Hval.
    assert (lower_bound v temp = j) as ->.
    { eapply lower_bound_partition; [done|lia|].
      destruct (wfS_sorted _ _ _ _ (Hkids _ _ Hc)) as [_ Hw].
      rewrite Forall_forall in Hw. apply Hw.
      apply last_Some_elem_of in Hlast. done. }
    by rewrite decide_True by lia.
  - intros Heq. apply Hout. rewrite <-Heq. apply saddr_in_addrs.
Qed.
End forward.

Section forward_chain.
Context (k : access) (s : Store) (t cap : nat) (R : Shape).
Context (Hcap : 1 ≤ cap).
Context (Hend : end_ k s t = Ok (of_vi (end_pos R))).

(** The step from an entry of a node. *)
Lemma incr_own a v cs par lo hi j x nx :
  rep (linked t) (nodes s) cap par (SNode a v cs) →
  wfS cap lo hi (SNode a v cs) →
  NoDup (addrs (SNode a v cs)) →
  (∀ temp, last (elems (SNode a v cs)) = Some temp →
     climb_up k (fuel_of s) s temp (of_vi (end_pos (SNode a v cs)))
     = Ok (of_vi nx)) →
  v !! j = Some x →
  ∃ oc h, cs !! S j = Some oc ∧
    head (sub positions oc ++ [from_option (fun _ => mkVI a (S j)) nx (v !! S j)])
      = Some h ∧
    follows k s (mkVI a j) h.
Proof.
  intros Hrep Hwf Hnd Hclimb Hj.
  pose proof Hwf as (Hs&_&Hv&Hlen&Hfull&Hkids)%wfS_inv.
  pose proof Hrep as (n&Hn&Hch&?&Hval&[Hroot Hpar]&Hcs)%rep_inv.
  apply lookup_lt_Some in Hj as Hjlt.
  destruct (lookup_lt_is_Some_2 cs (S j)) as [oc Hoc]; [lia|].
  exists oc. unfold follows, incr, deref, node_at, offset_in, child_at.
  cbn [of_vi pos ptr opt mbind Result_bind]. cbn [vec idx]. rewrite Hn. cbn [opt mbind Result_bind].
  rewrite Hval, Hj. cbn [opt mbind Result_bind].
  destruct (decide (a = a)) as [_|]; [|done]. cbn [mbind Result_bind].
  rewrite Hch, list_lookup_fmap, Nat.add_1_r, Hoc.
  cbn [fmap option_fmap option_map opt mbind Result_bind].
  destruct oc as [c|]; cbn [fmap option_fmap option_map sub].
  - (* down to the first entry of the right child *)
    destruct (Hfull _ _ Hoc) as [_ Hne].
    apply NoDup_addrs_node in Hnd as [Hndk _].
    destruct (Hndk _ _ Hoc) as [_ Hndc].
    pose proof (height_lt_fuel _ _ _ _ _ (Hcs _ _ Hoc) Hndc) as Hfuel.
    destruct (leftmost_spec (linked t) s cap c (fuel_of s) _ _ _
                (Hcs _ _ Hoc) (Hkids _ _ Hoc) ltac:(lia)) as [Hl Hidx].
    exists (begin_pos c). split; [done|]. split.
    + pose proof (begin_pos_head _ _ _ _ (Hkids _ _ Hoc) Hne) as Hh.
      by destruct (positions c).
    + rewrite Hl. cbn [mbind Result_bind]. unfold node_at.
      destruct (begin_pos_cell _ _ _ _ _ _ _ (Hcs _ _ Hoc) (Hkids _ _ Hoc) Hne)
        as (ln & -> & Hln).
      cbn [opt mbind Result_bind]. rewrite (val_it_nonempty ln) by done.
      unfold of_vi. destruct (begin_pos c) as [bv bi]. simpl in *. by subst.
  - cbn [app head]. eexists. split; [done|]. split; [done|].
    rewrite (val_it_nonempty n) by (rewrite Hval; by destruct v).
    destruct (v !! S j) as [y|] eqn:Hy; cbn [from_option].
    + (* the next entry of the same node *)
      apply lookup_lt_Some in Hy.
      destruct (decide (_ = _)) as [[=]|]; [lia|done].
    + (* past the last entry: climb *)
      apply lookup_ge_None in Hy. assert (S j = length v) as HSj by lia.
      destruct (decide (_ = _)) as [_|Hn']; [|by rewrite HSj in Hn'].
      specialize (Hclimb x).
      rewrite (end_pos_node _ _ _ _ _ _ Hwf), <-HSj, Hoc in Hclimb.
      rewrite (last_elems_node _ _ _ _ _ _ Hwf), <-HSj, Hoc in Hclimb.
      unfold of_vi in Hclimb. cbn [vec] in Hclimb.
      apply Hclimb. rewrite last_lookup. by replace (pred (length v)) with j by lia.
Qed.

Lemma chain_subtree T : ∀ par lo hi nx,
  rep (linked t) (nodes s) cap par T → wfS cap lo hi T → NoDup (addrs T) →
  sval T ≠ [] →
  vec (end_pos R) ∉ addrs T ∨ end_pos T = end_pos R →
  (∀ temp, last (elems T) = Some temp →
     climb_up k (fuel_of s) s temp (of_vi (end_pos T)) = Ok (of_vi nx)) →
  chain (follows k s) (positions T ++ [nx]).
Proof.
  induction T as [a v cs IH] using shape_ind.
  intros par lo hi nx Hrep Hwf Hnd Hne Hside Hclimb.
  pose proof Hwf as (Hs&_&Hv&Hlen&Hfull&Hkids)%wfS_inv.
  pose proof Hrep as (n&Hn&Hch&?&Hval&[Hroot Hpar]&Hcs)%rep_inv.
  pose proof Hnd as [Hndk Hpair]%NoDup_addrs_node.
  rewrite positions_node. apply chain_weave.
  { rewrite length_fmap. lia. }
  - (* the segment of child [j] leads to entry [j], or out of the node *)
    intros j sb Hj Hjv. rewrite list_lookup_fmap in Hj.
    destruct (cs !! j) as [[c|]|] eqn:Hc; cbn in Hj;
      [|by injection Hj as <-|done].
    injection Hj as <-. cbn [sub].
    destruct (Hfull _ _ Hc) as [_ Hnec]. destruct (Hndk _ _ Hc) as [Hac Hndc].
    destruct (v !! j) as [x|] eqn:Hx; cbn [from_option].
    + apply lookup_lt_Some in Hx as Hjlt.
      assert (vec (end_pos R) ∉ addrs c) as Hout.
      { destruct Hside as [Hout|Heq].
        - intros ?. apply Hout, elem_of_addrs_node. eauto.
        - rewrite <-Heq, (end_pos_node _ _ _ _ _ _ Hwf).
          destruct (cs !! length v) as [[c'|]|] eqn:Hc'; cbn [vec]; [|done..].
          intros Hin.
          destruct (end_pos_spec _ _ _ _ _ c' _ (Hcs _ _ Hc') (Hkids _ _ Hc'))
            as [Hin' _].
          pose proof (Hpair _ _ _ _ _ Hc Hc' Hin Hin'). lia. }
      eapply IH; [done|by eauto|by eauto|done|done|by left|].
      intros temp Hlast.
      by erewrite climb_exit.
    + apply lookup_ge_None in Hx. assert (j = length v) as -> by lia.
      eapply IH; [done|by eauto|by eauto|done|done| |].
      * destruct Hside as [Hout|Heq].
        -- left. intros ?. apply Hout, elem_of_addrs_node. eauto.
        -- right. by rewrite <-Heq, (end_pos_node _ _ _ _ _ _ Hwf), Hc.
      * intros temp Hlast. specialize (Hclimb temp).
        rewrite (end_pos_node _ _ _ _ _ _ Hwf), Hc in Hclimb.
        rewrite (last_elems_node _ _ _ _ _ _ Hwf), Hc in Hclimb. auto.
  - (* entry [j] leads to the start of the next segment *)
    intros j x sb Hj Hsb. rewrite list_lookup_fmap in Hsb.
    destruct (incr_own a v cs par lo hi j x nx Hrep Hwf Hnd Hclimb Hj)
      as (oc & h & Hoc & Hh & Hstep).
    rewrite Hoc in Hsb. cbn in Hsb. injection Hsb as <-. eauto.
Qed.
End forward_chain.

(** ** One tree in the store *)

Lemma empty_root_items cap lo hi a cs :
  1 ≤ cap → wfS cap lo hi (SNode a [] cs) → items (SNode a [] cs) = [].
Proof.
  intros Hcap Hwf.
  pose proof (wfS_childless _ _ _ _ _ _ Hwf ltac:(simpl; lia)) as Hno.
  pose proof Hwf as (_&_&_&Hlen&_)%wfS_inv.
  rewrite items_node. destruct cs as [|c cs]; [done|]. cbn [fmap list_fmap weave].
  rewrite app_nil_r. destruct c as [c|]; [|done]. by destruct (Hno 0 c).
Qed.

Lemma position_nonempty cap lo hi T i p :
  1 ≤ cap → wfS cap lo hi T → positions T !! i = Some p → sval T ≠ [].
Proof.
  destruct T as [a v cs]. cbn [sval]. intros Hcap Hwf Hp ->.
  unfold positions in Hp. by rewrite (empty_root_items _ _ _ _ _ Hcap Hwf) in Hp.
Qed.

Lemma empty_iff cap lo hi T :
  1 ≤ cap → wfS cap lo hi T → sval T = [] ↔ elems T = [].
Proof.
  intros Hcap Hwf. split.
  - destruct T as [a v cs]. cbn [sval]. intros ->. unfold elems.
    by rewrite (empty_root_items _ _ _ _ _ Hcap Hwf).
  - intros He. destruct (decide (sval T = [])) as [|Hne]; [done|].
    pose proof (items_nonempty _ _ _ _ Hwf Hne). unfold elems in He.
    by apply fmap_nil_inv in He.
Qed.

Lemma place_nonempty {k} T p : sval T ≠ [] → @place k T p = of_vi p.
Proof. unfold place. by destruct (sval T). Qed.

Lemma place_empty {k} T p : sval T = [] → @place k T p = mkPos (vec p) None.
Proof. unfold place. by intros ->. Qed.

Lemma place_eq {k1 k2} T p q :
  (sval T = [] → p = q) →
  pos (@place k1 T p) = pos (@place k2 T q) ↔ p = q.
Proof.
  unfold place. destruct (sval T); cbn; intros H.
  - split; [auto|done].
  - split; [by intros [=]|by intros ->].
Qed.

Lemma place_ptr {k} T p : ptr (@place k T p) = vec p.
Proof. unfold place. by destruct (sval T). Qed.

Section tree.
Context (k : access) (s : Store) (t cap : nat) (R : Shape).
Context (Hcap : 1 ≤ cap).
Context (Htree : trees s !! t = Some (mkBtree (Some (saddr R)))).
Context (Hrep : rep (linked t) (nodes s) cap None R).
Context (Hwf : wfS cap None None R).
Context (Hnd : NoDup (addrs R)).

Lemma empty_tree_pos :
  sval R = [] →
  positions R = [] ∧ begin_pos R = end_pos R ∧ end_pos R = mkVI (saddr R) 0.
Proof.
  destruct R as [a v cs]. cbn [sval]. intros ->.
  unfold begin_pos, end_pos, positions.
  by rewrite (empty_root_items _ _ _ _ _ Hcap Hwf).
Qed.

Lemma end_spec : end_ k s t = Ok (place R (end_pos R)).
Proof.
  unfold end_, tree_at. rewrite Htree. cbn [opt mbind Result_bind rootNode].
  destruct (decide (sval R = [])) as [Hemp|Hne].
  - destruct (empty_tree_pos Hemp) as (_ & _ & ->).
    rewrite (place_empty _ _ Hemp). unfold fuel_of.
    by eapply nodeBegin_empty.
  - rewrite (place_nonempty _ _ Hne). eapply nodeEnd_spec; [done..| |done].
    pose proof (height_lt_fuel _ _ _ _ _ Hrep Hnd). lia.
Qed.

Lemma begin_spec : begin_ k s t = Ok (place R (begin_pos R)).
Proof.
  unfold begin_, tree_at. rewrite Htree. cbn [opt mbind Result_bind rootNode].
  destruct (decide (sval R = [])) as [Hemp|Hne].
  - destruct (empty_tree_pos Hemp) as (_ & -> & ->).
    rewrite (place_empty _ _ Hemp). unfold fuel_of.
    by eapply nodeBegin_empty.
  - rewrite (place_nonempty _ _ Hne). eapply nodeBegin_spec; [done..| |done].
    pose proof (height_lt_fuel _ _ _ _ _ Hrep Hnd). lia.
Qed.

Lemma end_spec_ne : sval R ≠ [] → end_ k s t = Ok (of_vi (end_pos R)).
Proof. intros Hne. by rewrite end_spec, place_nonempty. Qed.

Lemma begin_spec_ne : sval R ≠ [] → begin_ k s t = Ok (of_vi (begin_pos R)).
Proof. intros Hne. by rewrite begin_spec, place_nonempty. Qed.

Lemma chain_tree : chain (follows k s) (positions R ++ [end_pos R]).
Proof.
  destruct (decide (sval R = [])) as [Hemp|Hne].
  { destruct (empty_tree_pos Hemp) as [-> _]. done. }
  eapply chain_subtree; [done|by apply end_spec_ne|done..|by right|].
  intros temp _.
  destruct (end_pos_spec _ _ _ _ _ _ _ Hrep Hwf) as [Hin _].
  destruct (rep_linked_lookup _ _ _ _ _ _ Hrep Hin) as (n & Hn & Hroot).
  pose proof (height_lt_fuel _ _ _ _ _ Hrep Hnd) as Hfuel.
  unfold fuel_of in *.
  eapply climb_up_stop; [by apply end_spec_ne|done..].
Qed.

Lemma begin_pos_first : (positions R ++ [end_pos R]) !! 0 = Some (begin_pos R).
Proof.
  destruct (decide (sval R = [])) as [Hemp|Hne].
  { destruct (empty_tree_pos Hemp) as (-> & -> & _). done. }
  pose proof (begin_pos_head _ _ _ _ Hwf Hne) as Hh.
  by destruct (positions R).
Qed.

Lemma item_nonempty p x : (p, x) ∈ items R → sval R ≠ [].
Proof.
  intros Hin Hemp. destruct (empty_tree_pos Hemp) as (Hp & _).
  unfold positions in Hp. apply fmap_nil_inv in Hp. rewrite Hp in Hin.
  by apply elem_of_nil in Hin.
Qed.

Lemma item_place p x : (p, x) ∈ items R → place R p = @of_vi k p.
Proof. intros Hin. apply place_nonempty. by eapply item_nonempty. Qed.

Lemma item_deref p x : (p, x) ∈ items R → deref k s (of_vi p) = Ok x.
Proof.
  intros Hin. destruct (rep_items _ _ _ _ _ _ _ Hrep Hin) as (_ & n & Hn & Hx).
  unfold deref, node_at. cbn [of_vi pos opt mbind Result_bind]. rewrite Hn.
  cbn [opt mbind Result_bind]. by rewrite Hx.
Qed.

Lemma item_not_end p x : (p, x) ∈ items R → p ≠ end_pos R.
Proof.
  intros Hin ->.
  destruct (rep_items _ _ _ _ _ _ _ Hrep Hin) as (_ & n & Hn & Hx).
  destruct (end_pos_spec _ _ _ _ _ _ _ Hrep Hwf) as (_ & n' & Hn' & Hidx).
  assert (n' = n) as -> by congruence.
  apply lookup_lt_Some in Hx. lia.
Qed.

Lemma walk_from fuel : ∀ i p,
  (positions R ++ [end_pos R]) !! i = Some p →
  length (items R) - i < fuel →
  walk k fuel s t (place R p) = Ok (drop i (elems R)).
Proof.
  induction fuel as [|fuel IH]; intros i p Hp Hfuel; [lia|].
  cbn [walk]. rewrite end_spec. cbn [mbind Result_bind].
  unfold it_neq, it_eq.
  assert (length (positions R) = length (items R)) as Hlenp.
  { unfold positions. by rewrite length_fmap. }
  assert (length (elems R) = length (items R)) as Hlene.
  { unfold elems. by rewrite length_fmap. }
  destruct (decide (i < length (items R))) as [Hi|Hi].
  - rewrite lookup_app_l in Hp by lia.
    unfold positions in Hp. rewrite list_lookup_fmap in Hp.
    destruct (items R !! i) as [[q x]|] eqn:Hitem; simplify_eq/=.
    apply list_elem_of_lookup_2 in Hitem as Hin.
    rewrite !(place_nonempty R) by by eapply item_nonempty.
    cbn [of_vi pos].
    rewrite bool_decide_eq_false_2
      by (intros [= ?]; by eapply item_not_end).
    cbn [negb]. rewrite (item_deref _ _ Hin). cbn [mbind Result_bind].
    destruct (lookup_lt_is_Some_2 (positions R ++ [end_pos R]) (S i))
      as [q' Hq'].
    { rewrite length_app. simpl. lia. }
    assert (follows k s p q') as Hstep.
    { eapply (chain_lookup _ _ i); [apply chain_tree| |done].
      rewrite lookup_app_l by lia. unfold positions.
      by rewrite list_lookup_fmap, Hitem. }
    unfold follows in Hstep. rewrite Hstep. cbn [mbind Result_bind].
    rewrite <-(place_nonempty (k:=k) R q') by by eapply item_nonempty.
    rewrite (IH (S i) q' Hq') by lia. cbn [mbind Result_bind].
    f_equal. symmetry. apply drop_S. unfold elems.
    by rewrite list_lookup_fmap, Hitem.
  - assert (i = length (positions R)) as ->.
    { apply lookup_lt_Some in Hp. rewrite length_app in Hp. simpl in Hp. lia. }
    rewrite list_lookup_middle in Hp by done. simplify_eq.
    rewrite bool_decide_eq_true_2 by done. cbn [negb].
    by rewrite drop_ge by lia.
Qed.

Theorem traversal_spec : traversal k s t = Ok (elems R).
Proof.
  unfold traversal. rewrite begin_spec. cbn [mbind Result_bind].
  rewrite (walk_from _ 0 (begin_pos R)); [done|apply begin_pos_first|].
  pose proof (items_lt_fuel _ _ _ _ _ Hrep Hnd). lia.
Qed.

Lemma stations_nonempty i p :
  (positions R ++ [end_pos R]) !! S i = Some p → sval R ≠ [].
Proof.
  intros Hp Hemp. destruct (empty_tree_pos Hemp) as (Hnil & _).
  by rewrite Hnil in Hp.
Qed.

Lemma iter_incr_from n : ∀ i p q,
  (positions R ++ [end_pos R]) !! i = Some p →
  (positions R ++ [end_pos R]) !! (i + n) = Some q →
  iter_n k (incr k) n s (place R p) = Ok (place R q).
Proof.
  induction n as [|n IH]; intros i p q Hp Hq.
  { rewrite Nat.add_0_r in Hq. by simplify_eq. }
  destruct (lookup_lt_is_Some_2 (positions R ++ [end_pos R]) (S i)) as [p' Hp'].
  { apply lookup_lt_Some in Hq. lia. }
  pose proof (chain_lookup _ _ _ _ _ chain_tree Hp Hp') as Hstep.
  pose proof (stations_nonempty _ _ Hp') as Hne.
  cbn [iter_n]. unfold follows in Hstep.
  rewrite (place_nonempty R p Hne), Hstep. cbn [mbind Result_bind].
  rewrite <-(place_nonempty (k:=k) R p' Hne).
  apply (IH (S i)); [done|]. by rewrite Nat.add_succ_comm.
Qed.

Theorem forward_reaches_end :
  iter_n k (incr k) (length (elems R)) s (place R (begin_pos R))
  = Ok (place R (end_pos R)).
Proof.
  apply (iter_incr_from _ 0); [apply begin_pos_first|].
  rewrite Nat.add_0_l. unfold elems, positions. rewrite length_fmap.
  rewrite <-(length_fmap fst). by rewrite list_lookup_middle.
Qed.
End tree.

(** ** The store invariant *)

Lemma models_live s sh t cap T :
  models s sh → sh t = Some (cap, T) →
  trees s !! t = Some (mkBtree (Some (saddr T))) ∧ 1 ≤ cap ∧
  rep (linked t) (nodes s) cap None T ∧ wfS cap None None T ∧ NoDup (addrs T).
Proof.
  intros (Hok & Hnone & Hnd & _) Ht.
  destruct (trees s !! t) as [[r]|] eqn:Hb.
  - specialize (Hok t _ Hb). rewrite Ht in Hok. destruct Hok as (Hr&?&?&?&?).
    simpl in Hr. subst r. specialize (Hnd t). rewrite Ht in Hnd. done.
  - specialize (Hnone t Hb). congruence.
Qed.

Lemma models_bound s sh t cap T :
  models s sh → sh t = Some (cap, T) → (Z.of_nat cap < 2 ^ 31)%Z.
Proof.
  intros (Hok & Hnone & _) Ht.
  destruct (trees s !! t) as [b|] eqn:Hb.
  - specialize (Hok t _ Hb). rewrite Ht in Hok. by destruct Hok as (_&_&_&_&?).
  - specialize (Hnone t Hb). congruence.
Qed.

Lemma models_lookup s sh t r :
  models s sh → trees s !! t = Some (mkBtree (Some r)) →
  ∃ cap T, sh t = Some (cap, T) ∧ saddr T = r.
Proof.
  intros (Hok & _) Ht. specialize (Hok t _ Ht).
  destruct (sh t) as [[cap T]|]; [|done].
  destruct Hok as (Hr&_). simpl in Hr. exists cap, T. split; congruence.
Qed.

Lemma models_owned_lt s sh t a :
  models s sh → a ∈ owned (sh t) → a < length (nodes s).
Proof.
  intros Hm Ha. destruct (sh t) as [[cap T]|] eqn:Ht; [|by apply elem_of_nil in Ha].
  destruct (models_live _ _ _ _ _ Hm Ht) as (_&_&Hrep&_). by eapply rep_addr_lt.
Qed.

Lemma Inv_empty : Inv empty_store.
Proof.
  exists (fun _ => None). split_and!; try done.
  - intros t. constructor.
  - intros ??? Ha. by apply elem_of_nil in Ha.
Qed.

(** Giving tree object [t] the graph [o]: the other trees keep theirs as
    long as their cells are left alone and [o] takes none of them. *)
Lemma models_set s sh s' t o :
  models s sh →
  (∀ t', t' ≠ t → trees s' !! t' = trees s !! t') →
  (∀ b, trees s' !! t = Some b → tree_ok s' t b o) →
  (trees s' !! t = None → o = None) →
  NoDup (owned o) →
  (∀ a t', t' ≠ t → a ∈ owned (sh t') →
     (a ∉ owned o) ∧ nodes s' !! a = nodes s !! a) →
  models s' (<[t := o]> sh).
Proof.
  intros Hm Htrees Hok' Hnone' Hnd' Hframe.
  pose proof Hm as (Hok & Hnone & Hnd & Hdisj).
  split_and!.
  - intros t' b Hb. destruct (decide (t' = t)) as [->|Hne].
    + rewrite fn_lookup_insert. by apply Hok'.
    + rewrite fn_lookup_insert_ne by done. rewrite Htrees in Hb by done.
      specialize (Hok t' b Hb). destruct (sh t') as [[cap' T']|] eqn:Hsh; [|done].
      destruct Hok as (?&?&Hrep&?&?). split_and!; [done..| |done|done].
      eapply rep_frame; [done|]. intros a Ha.
      apply (Hframe a t'); [done|by rewrite Hsh].
  - intros t' Hb. destruct (decide (t' = t)) as [->|Hne].
    + rewrite fn_lookup_insert. by apply Hnone'.
    + rewrite fn_lookup_insert_ne by done. rewrite Htrees in Hb by done. auto.
  - intros t'. destruct (decide (t' = t)) as [->|Hne].
    + by rewrite fn_lookup_insert.
    + by rewrite fn_lookup_insert_ne.
  - intros t1 t2 a.
    destruct (decide (t1 = t)) as [->|H1], (decide (t2 = t)) as [->|H2];
      rewrite ?fn_lookup_insert, ?fn_lookup_insert_ne by done; [done|..].
    + intros Ha Ha2. by destruct (Hframe a t2 H2 Ha2).
    + intros Ha1 Ha. by destruct (Hframe a t1 H1 Ha1).
    + apply Hdisj.
Qed.

Lemma insert_models s sh t cap T e :
  models s sh → sh t = Some (cap, T) →
  ∃ s' T' it b,
    insert s t e = Ok (s', (it, b)) ∧
    inserted t cap None None None s T e s' T' it b ∧
    models s' (<[t := Some (cap, T')]> sh).
Proof.
  intros Hm Ht.
  destruct (models_live _ _ _ _ _ Hm Ht) as (Htree & Hcap & Hrep & Hwf & Hnd).
  pose proof (height_lt_fuel _ _ _ _ _ Hrep Hnd) as Hfuel.
  pose proof (models_bound _ _ _ _ _ Hm Ht) as Hbnd.
  destruct (nodeInsert_spec Mutable t cap Hcap Hbnd T (fuel_of s) s None None None e
              Hrep Hwf Hnd ltac:(done) Hfuel) as (s' & T' & it & b & Heq & Hins).
  exists s', T', it, b. split_and!; [|done|].
  { unfold insert, tree_at. rewrite Htree. done. }
  destruct Hins as [Htr Haddr Hrep' Hwf' Hnd' Hne' Hitem Hnew Hold
                      Hgrow Hframe Haddrs Hkeep Hspawn].
  pose proof Hm as (_ & _ & _ & Hdisj).
  apply (models_set s); [done|by rewrite Htr| |by rewrite Htr, Htree|done|].
  - intros b' Hb'. rewrite Htr, Htree in Hb'. simplify_eq.
    split_and!; [by rewrite Haddr|done..].
  - intros a t' Hne Ha. pose proof (models_owned_lt _ _ _ _ Hm Ha) as Hlt.
    assert (a ∉ addrs T) as Hout.
    { intros Ha'. apply Hne. apply (Hdisj t' t a); [done|by rewrite Ht]. }
    split; [|by apply Hframe]. cbn [owned].
    intros [?|?]%Haddrs; [done|lia].
Qed.

(** A new tree object whose graph is made of cells nobody owns. *)
Lemma models_new s sh s' b o :
  models s sh →
  trees s' = trees s ++ [b] →
  tree_ok s' (length (trees s)) b o →
  NoDup (owned o) →
  (∀ a, a ∈ owned o → length (nodes s) ≤ a) →
  (∀ a, a < length (nodes s) → nodes s' !! a = nodes s !! a) →
  models s' (<[length (trees s) := o]> sh).
Proof.
  intros Hm Htrees Hok Hnd Hfresh Hold.
  apply (models_set s); [done|..|done|].
  - intros t' Hne. rewrite Htrees.
    destruct (decide (t' < length (trees s))); [by rewrite lookup_app_l|].
    rewrite !lookup_ge_None_2; [done|lia|rewrite length_app; simpl; lia].
  - intros b'. rewrite Htrees, list_lookup_middle by done. by intros [= <-].
  - rewrite Htrees, list_lookup_middle by done. done.
  - intros a t' _ Ha. pose proof (models_owned_lt _ _ _ _ Hm Ha) as Hlt.
    split; [|by apply Hold]. intros ?%Hfresh. lia.
Qed.

Lemma construct_models s sh cap :
  models s sh → capacity_ok cap →
  models (construct s cap).1
    (<[length (trees s) := Some (cap, SNode (length (nodes s)) []
                                         (replicate (S cap) None))]> sh).
Proof.
  intros Hm [Hcap Hbnd].
  assert (addrs (SNode (length (nodes s)) [] (replicate (S cap) None))
          = [length (nodes s)]) as HaT.
  { apply addrs_childless, childless_replicate. }
  eapply models_new; [done|done| | | |].
  - split_and!; [done..| | |done].
    + eapply rep_leaf; [by apply list_lookup_middle| |done..|
                        apply childless_replicate].
      cbn. by rewrite fmap_replicate, (slots_small cap Hbnd).
    + apply wfS_leaf; [constructor|constructor|simpl; lia|
                       by rewrite length_replicate|apply childless_replicate].
  - cbn [owned]. rewrite HaT. apply NoDup_singleton.
  - cbn [owned]. rewrite HaT. intros a ->%list_elem_of_singleton. done.
  - intros a Ha. cbn. by apply lookup_app_l.
Qed.

(** ** Re-pointing the back-references *)

Lemma apart_tail c cs : apart (c :: cs) → apart cs.
Proof.
  intros H i j c' d x Hi Hj Hx Hx'.
  by specialize (H (S i) (S j) c' d x Hi Hj Hx Hx') as [= ->].
Qed.

Lemma for_children_spec (Q Q' : option addr → Node → Prop) cap a f :
  ∀ (rest : list (option Shape)) s,
    (∀ j c, rest !! j = Some (Some c) → rep Q (nodes s) cap (Some a) c) →
    apart rest →
    (∀ j c, rest !! j = Some (Some c) → ∀ s1,
       rep Q (nodes s1) cap (Some a) c →
       ∃ s2, f s1 (saddr c) = Ok s2 ∧ touches s1 s2 c ∧
             rep Q' (nodes s2) cap (Some a) c) →
    ∃ s', for_children f (fmap (M:=option) saddr <$> rest) s = Ok s' ∧
      trees s' = trees s ∧ length (nodes s') = length (nodes s) ∧
      (∀ x, (∀ j c, rest !! j = Some (Some c) → x ∉ addrs c) →
            nodes s' !! x = nodes s !! x) ∧
      (∀ j c, rest !! j = Some (Some c) → rep Q' (nodes s') cap (Some a) c).
Proof.
  induction rest as [|oc rest IH]; intros s Hrep Hap Hstep.
  { exists s. split_and!; try done. }
  cbn [fmap list_fmap for_children].
  destruct oc as [c|]; cbn [fmap option_fmap option_map mbind Result_bind].
  - destruct (Hstep 0 c eq_refl s (Hrep 0 c eq_refl)) as (s2 & -> & Ht & Hc).
    destruct Ht as (Htr & Hlen & Hfr). cbn [mbind Result_bind].
    destruct (IH s2) as (s' & -> & Htr' & Hlen' & Hfr' & Hrep').
    + intros j d Hj. eapply rep_frame; [exact (Hrep (S j) d Hj)|].
      intros x Hx. apply Hfr. intros Hxc.
      by specialize (Hap 0 (S j) c d x eq_refl Hj Hxc Hx).
    + by eapply apart_tail.
    + intros j d Hj. apply (Hstep (S j) d Hj).
    + exists s'. split_and!; [done|congruence|congruence| |].
      * intros x Hx. rewrite Hfr'; [apply Hfr, (Hx 0 c eq_refl)|].
        intros j d Hj. apply (Hx (S j) d Hj).
      * intros [|j] d Hj; simpl in Hj; [|by eauto]. simplify_eq.
        eapply rep_frame; [exact Hc|]. intros x Hx. apply Hfr'.
        intros j d' Hj Hxd. by specialize (Hap 0 (S j) _ _ x eq_refl Hj Hx Hxd).
  - destruct (IH s) as (s' & -> & Htr' & Hlen' & Hfr' & Hrep').
    + intros j d Hj. apply (Hrep (S j) d Hj).
    + by eapply apart_tail.
    + intros j d Hj. apply (Hstep (S j) d Hj).
    + exists s'. split_and!; [done..| |].
      * intros x Hx. apply Hfr'. intros j d Hj. apply (Hx (S j) d Hj).
      * intros [|j] d Hj; simpl in Hj; [done|by eauto].
Qed.

Section rehoming.
Context (Q Q' : option addr → Node → Prop) (cap : nat).

Lemma changeRoot_spec b T :
  (∀ p n, Q p n → Q' p (with_root n b)) →
  ∀ fuel s par,
    rep Q (nodes s) cap par T → NoDup (addrs T) → height T ≤ fuel →
    ∃ s', changeRoot fuel b s (saddr T) = Ok s' ∧ touches s s' T ∧
          rep Q' (nodes s') cap par T.
Proof.
  intros HQ. induction T as [a v cs IH] using shape_ind.
  intros fuel s par Hrep Hnd Hfuel.
  pose proof Hrep as (n&Hn&Hch&Hms&Hval&HQn&Hcs)%rep_inv.
  pose proof Hnd as [Hndk Hpair]%NoDup_addrs_node.
  destruct fuel as [|fuel]; [pose proof (height_pos (SNode a v cs)); lia|].
  cbn [changeRoot saddr]. unfold node_at. rewrite Hn. cbn [opt mbind Result_bind].
  rewrite Hch.
  assert (a < length (nodes s)) as Ha by by eapply lookup_lt_Some.
  destruct (for_children_spec Q Q' cap a (changeRoot fuel b) cs
              (set_node s a (with_root n b)))
    as (s' & -> & Htr & Hlen & Hfr & Hrep').
  - intros j c Hj. eapply rep_frame; [exact (Hcs j c Hj)|].
    intros x Hx. cbn. apply list_lookup_insert_ne. intros ->.
    by destruct (Hndk j c Hj).
  - exact Hpair.
  - intros j c Hj s1 Hc. eapply IH; [done..|by apply Hndk in Hj as [_ ?]|].
    pose proof (height_child a v cs j c Hj). lia.
  - exists s'. split_and!; [done|..].
    + split_and!; [done|by rewrite Hlen; cbn; rewrite length_insert|].
      intros x Hx. rewrite Hfr.
      * cbn. apply list_lookup_insert_ne. intros ->.
        apply Hx, (saddr_in_addrs (SNode _ _ _)).
      * intros j c Hj Hxc. apply Hx, elem_of_addrs_node. eauto.
    + econstructor; [| | | |by apply HQ, HQn|done].
      * rewrite Hfr; [cbn; by apply list_lookup_insert_eq|].
        intros j c Hj. by destruct (Hndk j c Hj).
      * done.
      * done.
      * done.
Qed.

Lemma changeParent_spec T :
  (∀ p p' n, Q p n → Q' p' (with_parent n p')) →
  ∀ fuel s par par',
    rep Q (nodes s) cap par T → NoDup (addrs T) → height T ≤ fuel →
    ∃ s', changeParent fuel par' s (saddr T) = Ok s' ∧ touches s s' T ∧
          rep Q' (nodes s') cap par' T.
Proof.
  intros HQ. induction T as [a v cs IH] using shape_ind.
  intros fuel s par par' Hrep Hnd Hfuel.
  pose proof Hrep as (n&Hn&Hch&Hms&Hval&HQn&Hcs)%rep_inv.
  pose proof Hnd as [Hndk Hpair]%NoDup_addrs_node.
  destruct fuel as [|fuel]; [pose proof (height_pos (SNode a v cs)); lia|].
  cbn [changeParent saddr]. unfold node_at. rewrite Hn.
  cbn [opt mbind Result_bind]. rewrite Hch.
  assert (a < length (nodes s)) as Ha by by eapply lookup_lt_Some.
  destruct (for_children_spec Q Q' cap a (changeParent fuel (Some a)) cs
              (set_node s a (with_parent n par')))
    as (s' & -> & Htr & Hlen & Hfr & Hrep').
  - intros j c Hj. eapply rep_frame; [exact (Hcs j c Hj)|].
    intros x Hx. cbn. apply list_lookup_insert_ne. intros ->.
    by destruct (Hndk j c Hj).
  - exact Hpair.
  - intros j c Hj s1 Hc. eapply IH; [done..|by apply Hndk in Hj as [_ ?]|].
    pose proof (height_child a v cs j c Hj). lia.
  - exists s'. split_and!; [done|..].
    + split_and!; [done|by rewrite Hlen; cbn; rewrite length_insert|].
      intros x Hx. rewrite Hfr.
      * cbn. apply list_lookup_insert_ne. intros ->.
        apply Hx, (saddr_in_addrs (SNode _ _ _)).
      * intros j c Hj Hxc. apply Hx, elem_of_addrs_node. eauto.
    + econstructor; [| | | |by eapply HQ, HQn|done].
      * rewrite Hfr; [cbn; by apply list_lookup_insert_eq|].
        intros j c Hj. by destruct (Hndk j c Hj).
      * done.
      * done.
      * done.
Qed.
End rehoming.

(** ** Deep copy *)

Lemma rep_loose_par ns cap par par' T :
  rep loose ns cap par T → rep loose ns cap par' T.
Proof.
  destruct T as [a v cs]. intros (n&?&?&?&?&?&?)%rep_inv. by econstructor.
Qed.

Lemma twin_wfS cap lo hi a a' v cs cs' :
  Forall2 (twin cap) cs cs' →
  wfS cap lo hi (SNode a v cs) → wfS cap lo hi (SNode a' v cs').
Proof.
  intros Htw (?&?&?&Hlen&Hfull&Hkids)%wfS_inv.
  constructor; [done..|by rewrite <-(Forall2_length _ _ _ Htw)| |].
  - intros i c' Hi.
    destruct (Forall2_lookup_r _ _ _ _ _ Htw Hi) as ([c|] & Hc & Ht); [|done].
    destruct Ht as (_ & _ & Hv). destruct (Hfull i c Hc). split; congruence.
  - intros i c' Hi.
    destruct (Forall2_lookup_r _ _ _ _ _ Htw Hi) as ([c|] & Hc & Ht); [|done].
    destruct Ht as (Hw & _). eauto.
Qed.

Lemma twin_elems cap a a' v cs cs' :
  Forall2 (twin cap) cs cs' → elems (SNode a' v cs') = elems (SNode a v cs).
Proof.
  intros Htw. rewrite !elems_node. f_equal.
  induction Htw as [|oc oc' cs cs' Ht _ IH]; [done|]. cbn. f_equal; [|done].
  destruct oc, oc'; try done. by destruct Ht as (_ & ? & _).
Qed.

Section copy.
Context (cap : nat).

Lemma copy_children_spec cp s0 proto :
  ∀ (rest done : list (option Shape)) s,
    length done + length rest = S cap →
    copying cap s0 (length (nodes s0)) proto s done →
    length (nodes s0) < length (nodes s) →
    (∀ j c, rest !! j = Some (Some c) → ∀ s1,
       (∀ a, a < length (nodes s0) → nodes s1 !! a = nodes s0 !! a) →
       ∃ s2 c', cp s1 (saddr c) = Ok (s2, saddr c') ∧ copied cap s1 c s2 c') →
    ∃ s' done',
      copy_children cp (length (nodes s0)) (length done)
                    (fmap (M:=option) saddr <$> rest) s = Ok s' ∧
      copying cap s0 (length (nodes s0)) proto s' (done ++ done') ∧
      length (nodes s0) < length (nodes s') ∧
      Forall2 (twin cap) rest done'.
Proof.
  set (this := length (nodes s0)).
  induction rest as [|oc rest IH]; intros done s Hlen Hcp Hthis Hstep.
  { exists s, []. rewrite app_nil_r. split_and!; try done. }
  cbn [fmap list_fmap copy_children]. simpl in Hlen.
  destruct Hcp as (Htr & Hold & Hcell & Hdone & Hap).
  destruct oc as [c|]; cbn [fmap option_fmap option_map mbind Result_bind].
  - destruct (Hstep 0 c eq_refl s Hold) as (s2 & c' & -> & Hc).
    destruct Hc as [Htr2 Hold2 Hrep2 Hfresh2 Hnd2 Hwf2 He2 Hv2 Ha2].
    cbn [mbind Result_bind]. unfold node_at.
    rewrite (Hold2 this Hthis), Hcell. cbn [opt mbind Result_bind].
    unfold child_at. cbn [children with_children].
    assert (length (fmap (M:=option) saddr <$> done) = length done) as Hld
      by by rewrite length_fmap.
    rewrite lookup_app_r, Hld, Nat.sub_diag by lia.
    rewrite lookup_replicate_2 by lia. cbn [opt mbind Result_bind].
    set (m' := with_children _ _).
    assert (this < length (nodes s2)) as Hthis2.
    { apply (lookup_lt_Some (nodes s2) this (with_children proto
        ((fmap (M:=option) saddr <$> done) ++ replicate (S cap - length done) None))).
      by rewrite (Hold2 this Hthis). }
    destruct (IH (done ++ [Some c']) (set_node s2 this m'))
      as (s' & done' & Heq & Hcp' & Hthis' & Htw).
    + rewrite length_app. simpl. lia.
    + split_and!.
      * cbn. congruence.
      * intros a Ha. cbn. rewrite list_lookup_insert_ne by lia.
        rewrite Hold2 by lia. by apply Hold.
      * cbn. rewrite list_lookup_insert_eq by done. f_equal.
        unfold m'. cbn [with_children children root parent maxSize val].
        f_equal. rewrite fmap_app, length_app. cbn.
        rewrite <-Hld at 1. rewrite <-(Nat.add_0_r (length (_ <$> done))) at 1.
        rewrite insert_app_r.
        replace (S cap - length done) with (S (cap - length done)) by lia.
        cbn. rewrite <-app_assoc. cbn. do 3 f_equal. lia.
      * intros j d Hj. apply lookup_app_Some in Hj as [Hj|[_ Hj]].
        -- destruct (Hdone j d Hj) as (Hr & Hn & Hgt). split_and!; [|done..].
           eapply rep_frame; [exact Hr|]. intros x Hx. cbn.
           rewrite list_lookup_insert_ne by (specialize (Hgt x Hx); lia).
           apply Hold2. by eapply rep_addr_lt.
        -- apply list_lookup_singleton_Some in Hj as [_ [= <-]].
           split_and!; [|done|].
           ++ eapply rep_frame; [by eapply rep_loose_par|].
              intros x Hx. cbn. apply list_lookup_insert_ne.
              specialize (Hfresh2 x Hx). lia.
           ++ intros x Hx. specialize (Hfresh2 x Hx). lia.
      * intros i j d1 d2 x Hi Hj Hx1 Hx2.
        apply lookup_app_Some in Hi as [Hi|[Hi1 Hi]];
          apply lookup_app_Some in Hj as [Hj|[Hj1 Hj]].
        -- by eapply Hap.
        -- apply list_lookup_singleton_Some in Hj as [_ [= <-]].
           destruct (Hdone i d1 Hi) as (Hr & _).
           pose proof (rep_addr_lt _ _ _ _ _ _ Hr Hx1).
           specialize (Hfresh2 x Hx2). lia.
        -- apply list_lookup_singleton_Some in Hi as [_ [= <-]].
           destruct (Hdone j d2 Hj) as (Hr & _).
           pose proof (rep_addr_lt _ _ _ _ _ _ Hr Hx2).
           specialize (Hfresh2 x Hx1). lia.
        -- apply list_lookup_singleton_Some in Hi as [? _].
           apply list_lookup_singleton_Some in Hj as [? _]. lia.
    + cbn. by rewrite length_insert.
    + intros j d Hj. apply (Hstep (S j) d Hj).
    + exists s', (Some c' :: done'). rewrite length_app in Heq. simpl in Heq.
      rewrite Nat.add_1_r in Heq. rewrite Heq.
      rewrite <-app_assoc in Hcp'. split_and!; [done..|].
      constructor; [|done]. by split_and!.
  - destruct (IH (done ++ [None]) s) as (s' & done' & Heq & Hcp' & Hthis' & Htw).
    + rewrite length_app. simpl. lia.
    + split_and!; [done..| | |].
      * rewrite Hcell. do 2 f_equal. rewrite fmap_app, length_app. cbn.
        replace (S cap - length done) with (S (cap - length done)) by lia.
        cbn. rewrite <-app_assoc. cbn. do 3 f_equal. lia.
      * intros j d Hj. apply lookup_app_Some in Hj as [Hj|[_ Hj]]; [by eauto|].
        by apply list_lookup_singleton_Some in Hj as [_ [=]].
      * intros i j d1 d2 x Hi Hj Hx1 Hx2.
        apply lookup_app_Some in Hi as [Hi|[_ Hi]];
          [|by apply list_lookup_singleton_Some in Hi as [_ [=]]].
        apply lookup_app_Some in Hj as [Hj|[_ Hj]];
          [|by apply list_lookup_singleton_Some in Hj as [_ [=]]].
        by eapply Hap.
    + done.
    + intros j d Hj. apply (Hstep (S j) d Hj).
    + exists s', (None :: done'). rewrite length_app in Heq. simpl in Heq.
      rewrite Nat.add_1_r in Heq. rewrite Heq.
      rewrite <-app_assoc in Hcp'. split_and!; [done..|].
      by constructor.
Qed.
End copy.

Lemma copyNode_spec cap T :
  (Z.of_nat cap < 2 ^ 31)%Z →
  ∀ fuel s Q par lo hi,
    rep Q (nodes s) cap par T → wfS cap lo hi T → height T ≤ fuel →
    ∃ s' T', copyNode fuel s (saddr T) = Ok (s', saddr T') ∧ copied cap s T s' T'.
Proof.
  intros Hbnd. induction T as [a v cs IH] using shape_ind.
  intros fuel s Q par lo hi Hrep Hwf Hfuel.
  pose proof Hwf as (_&_&_&Hlen&Hfull&Hkids)%wfS_inv.
  pose proof Hrep as (n&Hn&Hch&Hms&Hval&_&Hcs)%rep_inv.
  destruct fuel as [|fuel]; [pose proof (height_pos (SNode a v cs)); lia|].
  cbn [copyNode saddr]. unfold node_at. rewrite Hn. cbn [opt mbind Result_bind alloc].
  set (this := length (nodes s)).
  set (proto := mkNode (root n) (parent n) (replicate (slots (maxSize n)) None)
                       (maxSize n) (val n)).
  set (s1 := mkStore (nodes s ++ [proto]) (trees s)).
  rewrite Hch.
  assert (match fmap (M:=option) saddr <$> cs with
          | [] => Ok (s1, this)
          | o :: l =>
            copy_children (copyNode fuel) this 0 (o :: l) s1
            ≫= λ s2, Ok (s2, this)
          end
          = copy_children (copyNode fuel) this 0 (fmap (M:=option) saddr <$> cs) s1
            ≫= λ s2, Ok (s2, this)) as ->.
  { destruct cs; [simpl in Hlen; lia|done]. }
  destruct (copy_children_spec cap (copyNode fuel) s proto cs [] s1)
    as (s' & cs' & Heq & Hcp & Hthis & Htw).
  - simpl. lia.
  - split_and!; [done| | |done|].
    + intros x Hx. cbn. by apply lookup_app_l.
    + cbn. rewrite list_lookup_middle by done. f_equal. unfold proto, with_children.
      cbn. by rewrite Hms, (slots_small cap Hbnd).
    + intros ????? Hi. by rewrite lookup_nil in Hi.
  - cbn. rewrite length_app. simpl. lia.
  - intros j c Hj s1' Hold.
    eapply (IH j c Hj fuel s1' Q (Some a)); [|by eauto|].
    + eapply rep_frame; [exact (Hcs j c Hj)|]. intros x Hx. apply Hold.
      eapply rep_addr_lt; [exact (Hcs j c Hj)|done].
    + pose proof (height_child a v cs j c Hj). lia.
  - cbn [length] in Heq. fold this in Heq. rewrite Heq. cbn [mbind Result_bind].
    exists s', (SNode this v cs'). split; [done|].
    destruct Hcp as (Htr & Hold & Hcell & Hdone & Hap).
    cbn [app] in Hcell, Hdone, Hap.
    assert (length cs' = S cap) as Hlen'.
    { by rewrite <-(Forall2_length _ _ _ Htw). }
    rewrite Hlen', Nat.sub_diag in Hcell. cbn [replicate] in Hcell.
    rewrite app_nil_r in Hcell.
    split; cbn [saddr sval].
    + done.
    + done.
    + econstructor; [exact Hcell|done|by cbn|by cbn|done|].
      intros i c' Hi. by destruct (Hdone i c' Hi).
    + intros x [->|(i&c'&Hi&Hx)]%elem_of_addrs_node; [done|].
      destruct (Hdone i c' Hi) as (_&_&Hgt). specialize (Hgt x Hx).
      fold this. lia.
    + apply NoDup_addrs_node. split; [|done].
      intros i c' Hi. destruct (Hdone i c' Hi) as (_&?&Hgt). split; [|done].
      intros Hin. specialize (Hgt _ Hin). lia.
    + intros lo' hi'. by apply twin_wfS.
    + by eapply twin_elems.
    + done.
    + done.
Qed.

Lemma touches_trans s1 s2 s3 T : touches s1 s2 T → touches s2 s3 T → touches s1 s3 T.
Proof.
  intros (?&?&H12) (?&?&H23). split_and!; [congruence..|].
  intros x Hx. by rewrite H23, H12.
Qed.

Lemma rehome_spec Q s this cap par T :
  trees s !! this = Some (mkBtree (Some (saddr T))) →
  rep Q (nodes s) cap par T → NoDup (addrs T) →
  ∃ s', rehome s this = Ok s' ∧ touches s s' T ∧
        rep (linked this) (nodes s') cap None T.
Proof.
  intros Ht Hrep Hnd. unfold rehome, tree_at. rewrite Ht.
  cbn [opt mbind Result_bind rootNode].
  destruct (changeRoot_spec Q (rooted this) cap this T ltac:(done)
              (fuel_of s) s par Hrep Hnd) as (s1 & -> & Ht1 & Hrep1).
  { pose proof (height_lt_fuel _ _ _ _ _ Hrep Hnd). lia. }
  cbn [mbind Result_bind].
  destruct (changeParent_spec (rooted this) (linked this) cap T ltac:(done)
              (fuel_of s1) s1 par None Hrep1 Hnd) as (s2 & -> & Ht2 & Hrep2).
  { pose proof (height_lt_fuel _ _ _ _ _ Hrep1 Hnd). lia. }
  exists s2. split_and!; [done|by eapply touches_trans|done].
Qed.

(** The cells reachable from a root are those of its graph. *)
Lemma reach_spec Q s cap T : ∀ fuel par,
  rep Q (nodes s) cap par T → height T ≤ fuel →
  reach fuel s (saddr T) = addrs T.
Proof.
  induction T as [a v cs IH] using shape_ind. intros fuel par Hrep Hfuel.
  pose proof Hrep as (n&Hn&Hch&_&_&_&Hcs)%rep_inv.
  destruct fuel as [|fuel]; [pose proof (height_pos (SNode a v cs)); lia|].
  cbn [reach saddr]. rewrite Hn, Hch, addrs_node. f_equal. f_equal.
  rewrite <-list_fmap_compose. apply list_eq. intros i.
  rewrite !list_lookup_fmap.
  destruct (cs !! i) as [[c|]|] eqn:Hc; cbn; [|done..]. f_equal.
  eapply IH; [done|by eauto|]. pose proof (height_child a v cs i c Hc). lia.
Qed.

Lemma nodes_of_spec s sh t cap T :
  models s sh → sh t = Some (cap, T) → nodes_of s t = addrs T.
Proof.
  intros Hm Ht.
  destruct (models_live _ _ _ _ _ Hm Ht) as (Htree & _ & Hrep & _ & Hnd).
  unfold nodes_of. rewrite Htree. eapply reach_spec; [done|].
  pose proof (height_lt_fuel _ _ _ _ _ Hrep Hnd). lia.
Qed.

Lemma nodes_of_dead s sh t : models s sh → sh t = None → nodes_of s t = [].
Proof.
  intros (Hok & _) Ht. unfold nodes_of.
  destruct (trees s !! t) as [[[r|]]|] eqn:Hb; [|done..].
  specialize (Hok t _ Hb). rewrite Ht in Hok. done.
Qed.

(** ** The operations of [btree] preserve the invariant *)

Lemma copy_construct_models s sh t cap T :
  models s sh → sh t = Some (cap, T) →
  ∃ s' T',
    copy_construct s t = Ok (s', length (trees s)) ∧
    models s' (<[length (trees s) := Some (cap, T')]> sh) ∧
    elems T' = elems T.
Proof.
  intros Hm Ht.
  destruct (models_live _ _ _ _ _ Hm Ht) as (Htree & Hcap & Hrep & Hwf & Hnd).
  unfold copy_construct, tree_at. rewrite Htree.
  cbn [opt mbind Result_bind rootNode].
  pose proof (models_bound _ _ _ _ _ Hm Ht) as Hbnd.
  destruct (copyNode_spec cap T Hbnd (fuel_of s) s _ _ _ _ Hrep Hwf)
    as (s1 & T' & -> & Hc).
  { pose proof (height_lt_fuel _ _ _ _ _ Hrep Hnd). lia. }
  destruct Hc as [Htr Hold Hrep1 Hfresh Hnd1 Hwf1 He Hv Ha].
  cbn [mbind Result_bind new_tree]. rewrite Htr.
  set (s2 := mkStore (nodes s1) (trees s ++ [mkBtree (Some (saddr T'))])).
  destruct (rehome_spec loose s2 (length (trees s)) cap None T')
    as (s3 & -> & (Htr3 & Hlen3 & Hfr3) & Hrep3); [|done..|].
  { cbn. by apply list_lookup_middle. }
  cbn [mbind Result_bind]. exists s3, T'. split_and!; [done| |done].
  eapply models_new; [done|by rewrite Htr3| |done|done|].
  - split_and!; [done..|by apply Hwf1|done].
  - intros a Ha'. rewrite Hfr3; [by apply Hold|].
    intros ?%Hfresh. lia.
Qed.

Lemma models_drop s sh t :
  models s sh → is_Some (trees s !! t) →
  models (set_tree s t (mkBtree None)) (<[t := None]> sh).
Proof.
  intros Hm [b Hb]. apply (models_set s); [done|..].
  - intros t' Hne. cbn. by apply list_lookup_insert_ne.
  - intros b'. cbn. rewrite list_lookup_insert_eq by by eapply lookup_lt_Some.
    by intros [= <-].
  - cbn. rewrite list_lookup_insert_eq by by eapply lookup_lt_Some. done.
  - constructor.
  - intros a t' _ _. split; [by intros ?%elem_of_nil|done].
Qed.

(** The graph of [src] becomes the graph of [dst]; its cells may have been
    rewritten, all others are as before. *)
Lemma models_transfer s sh s' src dst cap T :
  models s sh → sh src = Some (cap, T) → src ≠ dst →
  (∀ t', t' ≠ src → t' ≠ dst → trees s' !! t' = trees s !! t') →
  trees s' !! src = Some (mkBtree None) →
  trees s' !! dst = Some (mkBtree (Some (saddr T))) →
  rep (linked dst) (nodes s') cap None T →
  (∀ a, a ∉ addrs T → nodes s' !! a = nodes s !! a) →
  models s' (<[dst := Some (cap, T)]> (<[src := None]> sh)).
Proof.
  intros Hm Hsrc Hne Htrees Hts Htd Hrep Hfr.
  destruct (models_live _ _ _ _ _ Hm Hsrc) as (Htree & Hcap & _ & Hwf & Hnd).
  pose proof Hm as (_ & _ & _ & Hdisj).
  assert (models (set_tree s src (mkBtree None)) (<[src := None]> sh)) as HmA.
  { apply models_drop; [done|]. by rewrite Htree. }
  apply (models_set (set_tree s src (mkBtree None))); [done|..].
  - intros t' Hne'. cbn. destruct (decide (t' = src)) as [->|Hne''].
    + rewrite Hts, list_lookup_insert_eq; [done|]. by eapply lookup_lt_Some.
    + rewrite list_lookup_insert_ne by done. by apply Htrees.
  - intros b. rewrite Htd. intros [= <-]. split_and!; [done..|]. exact (models_bound _ _ _ _ _ Hm Hsrc).
  - by rewrite Htd.
  - done.
  - intros a t' Hne' Ha. cbn [set_tree nodes].
    destruct (decide (t' = src)) as [->|Hne''].
    { rewrite fn_lookup_insert in Ha. by apply elem_of_nil in Ha. }
    rewrite fn_lookup_insert_ne in Ha by done.
    assert (a ∉ addrs T) as Hout.
    { intros Ha'. apply Hne''. apply (Hdisj t' src a); [done|by rewrite Hsrc]. }
    split; [done|by apply Hfr].
Qed.

Lemma move_construct_models s sh t cap T :
  models s sh → sh t = Some (cap, T) →
  ∃ s', move_construct s t = Ok (s', length (trees s)) ∧
    models s' (<[length (trees s) := Some (cap, T)]> (<[t := None]> sh)).
Proof.
  intros Hm Ht.
  destruct (models_live _ _ _ _ _ Hm Ht) as (Htree & Hcap & Hrep & Hwf & Hnd).
  apply lookup_lt_Some in Htree as Htlt.
  unfold move_construct, tree_at. rewrite Htree.
  cbn [opt mbind Result_bind rootNode new_tree set_tree nodes trees].
  rewrite length_insert.
  set (s1 := mkStore _ _).
  destruct (rehome_spec (linked t) s1 (length (trees s)) cap None T)
    as (s2 & -> & (Htr2 & Hlen2 & Hfr2) & Hrep2); [|done..|].
  { cbn. rewrite <-(length_insert (trees s) t (mkBtree None)).
    by apply list_lookup_middle. }
  cbn [mbind Result_bind]. exists s2. split; [done|].
  apply (models_transfer s); [done|done|lia|..|done|done].
  - intros t' H1 H2. rewrite Htr2. cbn.
    destruct (decide (t' < length (trees s))).
    + rewrite lookup_app_l by by rewrite length_insert.
      by apply list_lookup_insert_ne.
    + rewrite !lookup_ge_None_2; [done|lia|].
      rewrite length_app, length_insert. simpl. lia.
  - rewrite Htr2. cbn. rewrite lookup_app_l by by rewrite length_insert.
    by apply list_lookup_insert_eq.
  - rewrite Htr2. cbn. rewrite <-(length_insert (trees s) t (mkBtree None)).
    by apply list_lookup_middle.
Qed.

Lemma move_assign_models s sh this rhs cap T :
  models s sh → sh rhs = Some (cap, T) → this ≠ rhs →
  is_Some (trees s !! this) →
  ∃ s', move_assign s this rhs = Ok s' ∧
    models s' (<[this := Some (cap, T)]> (<[rhs := None]> sh)).
Proof.
  intros Hm Hr Hne [b Hb].
  destruct (models_live _ _ _ _ _ Hm Hr) as (Htree & Hcap & Hrep & Hwf & Hnd).
  apply lookup_lt_Some in Htree as Hrlt. apply lookup_lt_Some in Hb as Htlt.
  unfold move_assign, tree_at. rewrite decide_False by done.
  rewrite Hb, Htree. cbn [opt mbind Result_bind rootNode].
  set (s1 := set_tree (set_tree s this _) rhs _).
  destruct (changeRoot_spec (linked rhs) (linked this) cap this T
              ltac:(by intros ?? [_ ?]) (fuel_of s1) s1 None Hrep Hnd)
    as (s2 & -> & (Htr2 & Hlen2 & Hfr2) & Hrep2).
  { pose proof (height_lt_fuel _ s1 _ _ _ Hrep Hnd). lia. }
  cbn [mbind Result_bind]. eexists. split; [done|].
  apply (models_transfer s); [done|done|done|..|done|done]; cbn; rewrite Htr2; cbn.
  - intros t' H1 H2. by rewrite !list_lookup_insert_ne.
  - apply list_lookup_insert_eq. by rewrite !length_insert.
  - rewrite !list_lookup_insert_ne by done. apply list_lookup_insert_eq. done.
Qed.

Lemma copy_assign_models s sh this rhs cap T :
  models s sh → sh rhs = Some (cap, T) → this ≠ rhs →
  is_Some (trees s !! this) →
  ∃ s' T' sh',
    copy_assign s this rhs = Ok s' ∧ models s' sh' ∧
    sh' this = Some (cap, T') ∧ (∀ u, u ≠ this → u < length (trees s) → sh' u = sh u) ∧
    elems T' = elems T.
Proof.
  intros Hm Hr Hne [b Hb].
  apply lookup_lt_Some in Hb as Htlt.
  unfold copy_assign, tree_at. rewrite decide_False by done.
  rewrite Hb. cbn [opt mbind Result_bind].
  pose proof (models_drop s sh this Hm ltac:(by rewrite Hb)) as Hm0.
  set (s0 := set_tree s this (mkBtree None)) in *.
  destruct (copy_construct_models s0 _ rhs cap T Hm0) as (s1 & T' & -> & Hm1 & He).
  { by rewrite fn_lookup_insert_ne. }
  cbn [mbind Result_bind].
  assert (length (trees s0) = length (trees s)) as Hl0 by apply length_insert.
  rewrite Hl0 in *. set (tmp := length (trees s)) in *.
  destruct (models_live _ _ _ _ _ Hm1 (fn_lookup_insert _ _ _))
    as (Htmp & _).
  destruct (move_assign_models s1 _ this tmp cap T' Hm1) as (s2 & -> & Hm2).
  { by rewrite fn_lookup_insert. }
  { unfold tmp. lia. }
  { destruct Hm1 as (_ & Hnone & _).
    destruct (trees s1 !! this) eqn:Hx; [done|].
    specialize (Hnone this Hx). rewrite fn_lookup_insert_ne in Hnone by (unfold tmp; lia).
    apply lookup_ge_None in Hx. apply lookup_lt_Some in Htmp. unfold tmp in *. lia. }
  cbn [mbind Result_bind].
  destruct (models_live _ _ _ _ _ Hm2 (fn_lookup_insert _ _ _))
    as (Hthis2 & Hcap2 & Hrep2 & Hwf2 & Hnd2).
  destruct (rehome_spec (linked this) s2 this cap None T' Hthis2 Hrep2 Hnd2)
    as (s3 & -> & (Htr3 & Hlen3 & Hfr3) & Hrep3).
  match type of Hm2 with models _ ?f => set (sh2 := f) in * end.
  exists s3, T', (<[this := Some (cap, T')]> sh2).
  split_and!; [done| | | |done].
  - pose proof Hm2 as (_ & _ & _ & Hdisj2).
    apply (models_set s2); [done|by rewrite Htr3| |by rewrite Htr3, Hthis2|done|].
    + intros b'. rewrite Htr3, Hthis2. intros [= <-]. split_and!; [done..|].
      exact (models_bound _ _ _ _ _ Hm2 (fn_lookup_insert _ _ _)).
    + intros a t' Hne' Ha.
      assert (a ∉ addrs T') as Hout.
      { intros Ha'. apply Hne'.
        apply (Hdisj2 t' this a); [done|]. unfold sh2.
        by rewrite fn_lookup_insert. }
      split; [done|by apply Hfr3].
  - by rewrite fn_lookup_insert.
  - intros u Hu Hlt. unfold sh2.
    rewrite !fn_lookup_insert_ne by (done || unfold tmp; lia). done.
Qed.

Lemma insert_Ok_live s t e res :
  insert s t e = Ok res → ∃ r, trees s !! t = Some (mkBtree (Some r)).
Proof.
  unfold insert, tree_at. destruct (trees s !! t) as [[[r|]]|]; [eauto|done..].
Qed.

Lemma move_assign_Ok s this rhs s' :
  move_assign s this rhs = Ok s' → this ≠ rhs →
  is_Some (trees s !! this) ∧ ∃ r, trees s !! rhs = Some (mkBtree (Some r)).
Proof.
  intros Hma Hne. unfold move_assign, tree_at in Hma.
  rewrite decide_False in Hma by done.
  destruct (trees s !! this) as [b|]; [|done].
  destruct (trees s !! rhs) as [[[r|]]|]; [|done..]. eauto.
Qed.

Lemma copy_construct_dead s t s' t' :
  trees s !! t = Some (mkBtree None) → copy_construct s t = Ok (s', t') →
  s' = (new_tree s None).1 ∧ t' = length (trees s).
Proof.
  intros Ht. unfold copy_construct, tree_at. rewrite Ht. cbn. by intros [= <- <-].
Qed.

Lemma built_Inv s : built s → Inv s.
Proof.
  induction 1 as [|s cap _ [sh Hm] Hcap|s t e s' r _ [sh Hm] Hins
                  |s t s' t' _ [sh Hm] Hcp|s t s' t' _ [sh Hm] Hmv
                  |s t u s' _ [sh Hm] Hca|s t u s' _ [sh Hm] Hma].
  - apply Inv_empty.
  - eexists. by apply construct_models.
  - destruct (insert_Ok_live _ _ _ _ Hins) as [r0 Ht].
    destruct (models_lookup _ _ _ _ Hm Ht) as (cap & T & Hsh & _).
    destruct (insert_models s sh t cap T e Hm Hsh) as (s2 & T' & it & b & Heq & _ & Hm').
    rewrite Heq in Hins. injection Hins as <- _. by eexists.
  - unfold copy_construct, tree_at in Hcp.
    destruct (trees s !! t) as [[[r|]]|] eqn:Ht; [| |done].
    + destruct (models_lookup _ _ _ _ Hm Ht) as (cap & T & Hsh & _).
      destruct (copy_construct_models s sh t cap T Hm Hsh) as (s2 & T' & Heq & Hm' & _).
      unfold copy_construct, tree_at in Heq. rewrite Ht in Heq.
      rewrite Heq in Hcp. injection Hcp as <- _. by eexists.
    + cbn in Hcp. injection Hcp as <- _.
      exists (<[length (trees s) := None]> sh).
      eapply models_new; [done|done|done|constructor| |done].
      by intros ??%elem_of_nil.
  - unfold move_construct, tree_at in Hmv.
    destruct (trees s !! t) as [[[r|]]|] eqn:Ht; [| |done].
    + destruct (models_lookup _ _ _ _ Hm Ht) as (cap & T & Hsh & _).
      destruct (move_construct_models s sh t cap T Hm Hsh) as (s2 & Heq & Hm').
      unfold move_construct, tree_at in Heq. rewrite Ht in Heq.
      rewrite Heq in Hmv. injection Hmv as <- _. by eexists.
    + exfalso. cbn [opt mbind Result_bind rootNode new_tree] in Hmv.
      unfold rehome, tree_at in Hmv. cbn [trees] in Hmv.
      by rewrite list_lookup_middle in Hmv.
  - destruct (decide (t = u)) as [->|Hne].
    { unfold copy_assign in Hca. rewrite decide_True in Hca by done.
      injection Hca as <-. by eexists. }
    assert (is_Some (trees s !! t)) as Hlt.
    { unfold copy_assign, tree_at in Hca. rewrite decide_False in Hca by done.
      by destruct (trees s !! t). }
    destruct (trees s !! u) as [[[r|]]|] eqn:Hu.
    + destruct (models_lookup _ _ _ _ Hm Hu) as (cap & T & Hsh & _).
      destruct (copy_assign_models s sh t u cap T Hm Hsh Hne Hlt)
        as (s2 & T' & sh' & Heq & Hm' & _).
      rewrite Heq in Hca. injection Hca as <-. by eexists.
    + exfalso. destruct Hlt as [b Hb]. apply lookup_lt_Some in Hb as Htlt.
      unfold copy_assign, tree_at in Hca. rewrite decide_False in Hca by done.
      rewrite Hb in Hca. cbn [opt mbind Result_bind] in Hca.
      apply bind_Ok in Hca as ([s1 tmp] & Hcc & Hca).
      apply bind_Ok in Hca as (s2 & Hmv & _).
      apply copy_construct_dead in Hcc as [-> ->];
        [|cbn; by rewrite list_lookup_insert_ne].
      cbn [new_tree fst set_tree trees nodes] in Hmv.
      apply move_assign_Ok in Hmv as [_ [r Hr]];
        [|rewrite length_insert; lia].
      cbn [trees] in Hr. by rewrite list_lookup_middle in Hr.
    + exfalso. destruct Hlt as [b Hb].
      unfold copy_assign, tree_at in Hca. rewrite decide_False in Hca by done.
      rewrite Hb in Hca. cbn [opt mbind Result_bind] in Hca.
      apply bind_Ok in Hca as ([s1 tmp] & Hcc & _).
      unfold copy_construct, tree_at in Hcc. cbn [set_tree trees] in Hcc.
      by rewrite list_lookup_insert_ne, Hu in Hcc by done.
  - destruct (decide (t = u)) as [->|Hne].
    { unfold move_assign in Hma. rewrite decide_True in Hma by done.
      injection Hma as <-. by eexists. }
    unfold move_assign, tree_at in Hma. rewrite decide_False in Hma by done.
    destruct (trees s !! t) as [b|] eqn:Hb; [|done].
    destruct (trees s !! u) as [[[r|]]|] eqn:Hu; [| |done].
    + destruct (models_lookup _ _ _ _ Hm Hu) as (cap & T & Hsh & _).
      destruct (move_assign_models s sh t u cap T Hm Hsh Hne ltac:(by rewrite Hb))
        as (s2 & Heq & Hm').
      unfold move_assign, tree_at in Heq. rewrite decide_False in Heq by done.
      rewrite Hb, Hu in Heq. rewrite Heq in Hma. injection Hma as <-. by eexists.
    + done.
Qed.

(** ** What a client observes of a live tree *)

Lemma models_traversal k s sh t cap T :
  models s sh → sh t = Some (cap, T) → traversal k s t = Ok (elems T).
Proof.
  intros Hm Ht.
  destruct (models_live _ _ _ _ _ Hm Ht) as (Htree & Hcap & Hrep & Hwf & Hnd).
  by eapply traversal_spec.
Qed.

Lemma traversal_Ok_live k s t l :
  traversal k s t = Ok l → ∃ r, trees s !! t = Some (mkBtree (Some r)).
Proof.
  unfold traversal, begin_, tree_at.
  destruct (trees s !! t) as [[[r|]]|]; [eauto|done..].
Qed.

Lemma models_observe k s sh t l :
  models s sh → traversal k s t = Ok l →
  ∃ cap T, sh t = Some (cap, T) ∧ l = elems T.
Proof.
  intros Hm Htr. destruct (traversal_Ok_live _ _ _ _ Htr) as [r Ht].
  destruct (models_lookup _ _ _ _ Hm Ht) as (cap & T & Hsh & _).
  exists cap, T. split; [done|].
  rewrite (models_traversal k _ _ _ _ _ Hm Hsh) in Htr. congruence.
Qed.

(** A dead tree object faults on every traversal, whatever the cells hold. *)
Lemma traversal_dead k s s' t :
  trees s' = trees s →
  (∀ r, trees s !! t ≠ Some (mkBtree (Some r))) →
  traversal k s' t = traversal k s t.
Proof.
  intros Htr Hdead. unfold traversal, begin_, tree_at. rewrite Htr.
  destruct (trees s !! t) as [[[r|]]|] eqn:Ht; [|done..]. by destruct (Hdead r).
Qed.

Lemma sorted_NoDup (l : list Z) : StronglySorted Z.lt l → NoDup l.
Proof.
  induction 1 as [|x l _ IH Hall]; constructor; [|done].
  intros Hx. rewrite Forall_forall in Hall. specialize (Hall x Hx). lia.
Qed.

Lemma items_elems_NoDup cap lo hi T : wfS cap lo hi T → NoDup (elems T).
Proof. intros Hwf. apply sorted_NoDup. by destruct (wfS_sorted _ _ _ _ Hwf). Qed.

(** The position of an element is unique. *)
Lemma items_pos_unique cap lo hi T p q e :
  wfS cap lo hi T → (p, e) ∈ items T → (q, e) ∈ items T → p = q.
Proof.
  intros Hwf [i Hi]%list_elem_of_lookup [j Hj]%list_elem_of_lookup.
  pose proof (items_elems_NoDup _ _ _ _ Hwf) as Hnd.
  assert (i = j) as ->; [|congruence].
  eapply NoDup_lookup; [exact Hnd|..]; unfold elems; rewrite list_lookup_fmap.
  - by rewrite Hi.
  - by rewrite Hj.
Qed.

Lemma inserted_elems {k} t cap par lo hi s T e s' T' (it : position k) b :
  inserted t cap par lo hi s T e s' T' it b →
  ∀ x, x ∈ elems T' ↔ x = e ∨ x ∈ elems T.
Proof.
  intros Hins x. destruct b.
  - destruct (ins_new _ _ _ _ _ _ _ _ _ _ _ _ Hins eq_refl) as [_ Hperm].
    by rewrite Hperm, elem_of_cons.
  - destruct (ins_old _ _ _ _ _ _ _ _ _ _ _ _ Hins eq_refl) as (He & _ & ->).
    split; [auto|]. by intros [->|?].
Qed.

Lemma inserts_models s sh t cap T es :
  models s sh → sh t = Some (cap, T) →
  ∃ s' T' sh',
    inserts s t es = Ok s' ∧ models s' sh' ∧ sh' t = Some (cap, T') ∧
    (∀ u, u ≠ t → sh' u = sh u) ∧
    (∀ x, x ∈ elems T' ↔ x ∈ elems T ∨ x ∈ es).
Proof.
  revert s sh T. induction es as [|e es IH]; intros s sh T Hm Ht.
  { exists s, T, sh. split_and!; try done. intros x. split; [auto|].
    by intros [?|?%elem_of_nil]. }
  destruct (insert_models s sh t cap T e Hm Ht)
    as (s1 & T1 & it & b & Heq & Hins & Hm1).
  destruct (IH s1 _ T1 Hm1 (fn_lookup_insert _ _ _))
    as (s' & T' & sh' & Heq' & Hm' & Ht' & Hothers & Helems).
  exists s', T', sh'. cbn [inserts]. rewrite Heq. cbn [mbind Result_bind].
  split_and!; [done..| |].
  - intros u Hu. rewrite Hothers by done. by apply fn_lookup_insert_ne.
  - intros x. rewrite Helems, (inserted_elems _ _ _ _ _ _ _ _ _ _ _ _ Hins).
    rewrite elem_of_cons. tauto.
Qed.

Lemma full_if_children Q ns cap lo hi T a n : ∀ par,
  rep Q ns cap par T → wfS cap lo hi T → a ∈ addrs T → ns !! a = Some n →
  (∃ i c, children n !! i = Some (Some c)) → length (val n) = maxSize n.
Proof.
  revert lo hi. induction T as [a0 v cs IH] using shape_ind.
  intros lo hi par Hrep Hwf Ha Hn Hkid.
  pose proof Hwf as (_&_&_&_&Hfull&Hkids)%wfS_inv.
  pose proof Hrep as (n0&Hn0&Hch&Hms&Hval&_&Hcs)%rep_inv.
  apply elem_of_addrs_node in Ha as [->|(i&c&Hi&Ha)].
  - assert (n0 = n) as -> by congruence. destruct Hkid as (i & c & Hi).
    rewrite Hch, list_lookup_fmap in Hi.
    destruct (cs !! i) as [[c'|]|] eqn:Hc; simplify_eq/=.
    destruct (Hfull i c' Hc) as [? _]. congruence.
  - eapply (IH i c Hi); eauto.
Qed.

Lemma insert_other k s t e s' r u :
  built s → insert s t e = Ok (s', r) → u ≠ t →
  traversal k s' u = traversal k s u.
Proof.
  intros [sh Hm]%built_Inv Hins Hne.
  destruct (insert_Ok_live _ _ _ _ Hins) as [r0 Ht].
  destruct (models_lookup _ _ _ _ Hm Ht) as (cap & T & Hsh & _).
  destruct (insert_models s sh t cap T e Hm Hsh)
    as (s2 & T' & it & b & Heq & Hi & Hm').
  rewrite Heq in Hins. injection Hins as <- _.
  destruct (sh u) as [[capu U]|] eqn:Hu.
  - rewrite (models_traversal k _ _ _ _ _ Hm Hu).
    eapply models_traversal; [done|]. by rewrite fn_lookup_insert_ne.
  - unfold traversal, begin_, tree_at.
    rewrite (ins_trees _ _ _ _ _ _ _ _ _ _ _ _ Hi).
    destruct (trees s !! u) as [[[ru|]]|] eqn:Htu; [|done..].
    destruct (models_lookup _ _ _ _ Hm Htu) as (? & ? & ? & _). congruence.
Qed.

Lemma inserts_other k es : ∀ s t s' u,
  built s → inserts s t es = Ok s' → u ≠ t →
  traversal k s' u = traversal k s u.
Proof.
  induction es as [|e es IH]; intros s t s' u Hb Hins Hne.
  { by injection Hins as <-. }
  cbn [inserts] in Hins. apply bind_Ok in Hins as ([s1 r] & Hi & Hins).
  rewrite (IH s1 t s' u); [by eapply insert_other|by eapply built_insert|done..].
Qed.

Lemma built_apart s t u a :
  built s → t ≠ u → a ∈ nodes_of s t → a ∉ nodes_of s u.
Proof.
  intros [sh Hm]%built_Inv Hne Ht Hu.
  destruct (sh t) as [[capt T]|] eqn:Hsht;
    [|rewrite (nodes_of_dead _ _ _ Hm Hsht) in Ht; by apply elem_of_nil in Ht].
  destruct (sh u) as [[capu U]|] eqn:Hshu;
    [|rewrite (nodes_of_dead _ _ _ Hm Hshu) in Hu; by apply elem_of_nil in Hu].
  rewrite (nodes_of_spec _ _ _ _ _ Hm Hsht) in Ht.
  rewrite (nodes_of_spec _ _ _ _ _ Hm Hshu) in Hu.
  destruct Hm as (_ & _ & _ & Hdisj). apply Hne, (Hdisj t u a).
  - by rewrite Hsht.
  - by rewrite Hshu.
Qed.

Lemma built_inserts es : ∀ s t s', built s → inserts s t es = Ok s' → built s'.
Proof.
  induction es as [|e es IH]; intros s t s' Hb Hins.
  { by injection Hins as <-. }
  cbn [inserts] in Hins. apply bind_Ok in Hins as ([s1 r] & Hi & Hins).
  eapply IH; [|done]. by eapply built_insert.
Qed.

Lemma built_build cap es s t :
  capacity_ok cap → build cap es = Ok (s, t) → built s.
Proof.
  intros Hcap Hb. unfold build in Hb.
  destruct (construct empty_store cap) as [s0 t0] eqn:Hc.
  apply bind_Ok in Hb as (s' & Hins & [= <- <-]).
  eapply built_inserts; [|done].
  replace s0 with (construct empty_store cap).1 by by rewrite Hc.
  apply built_construct; [constructor|done].
Qed.

(** ** Independence of a copy, and the example tree *)

Lemma inserts_total k s t l es :
  built s → traversal k s t = Ok l → ∃ s', inserts s t es = Ok s'.
Proof.
  intros [sh Hm]%built_Inv Htr.
  destruct (models_observe _ _ _ _ _ Hm Htr) as (cap & T & Hsh & _).
  destruct (inserts_models s sh t cap T es Hm Hsh) as (s' & _ & _ & Hins & _).
  by exists s'.
Qed.

Lemma independent_copy_intro k l s' t t' :
  built s' → t ≠ t' →
  traversal k s' t = Ok l → traversal k s' t' = Ok l →
  independent_copy k l s' t t'.
Proof.
  intros Hb Hne Ht Ht'. split_and!; [|done..| |].
  - intros a. by apply built_apart.
  - intros es. destruct (inserts_total k s' t' l es Hb Ht') as [s'' Hins].
    exists s''. split; [done|]. rewrite <-Ht. by eapply inserts_other.
  - intros es. destruct (inserts_total k s' t l es Hb Ht) as [s'' Hins].
    exists s''. split; [done|]. rewrite <-Ht'. by eapply inserts_other.
Qed.

Lemma built_sample : built sample.
Proof.
  apply (built_build 3 [5; 3; 8; 1; 4; 7; 2; 6]%Z sample 0); [split; lia|].
  vm_compute. reflexivity.
Defined.

Lemma built_pair : built pair.
Proof. apply built_construct; [exact built_sample|split; lia]. Defined.

(** ** Stepping backward *)

Lemma chain_snoc {A} (R : A → A → Prop) l x :
  chain R l → (∀ y, last l = Some y → R y x) → chain R (l ++ [x]).
Proof.
  induction l as [|z l IH]; intros Hl Hx; [done|].
  destruct Hl as [Hz Hl]. split.
  - destruct l as [|w l]; [by apply Hx|done].
  - apply IH; [done|]. intros y Hy. apply Hx. by destruct l.
Qed.

(** The chain through a node, read backward: every entry is reached from
    the end of the segment before it, every segment from the entry before
    it. *)
Lemma chain_weave_back {A} (R : A → A → Prop) (mk : nat → Z → A) i subs v pre :
  length v < length subs →
  (∀ j sub, subs !! j = Some sub → j ≤ length v →
     chain R (before mk i pre v j ++ sub)) →
  (∀ j x sub y, v !! j = Some x → subs !! j = Some sub →
     last (before mk i pre v j ++ sub) = Some y → R y (mk (i + j) x)) →
  chain R (pre ++ weave mk i subs v).
Proof.
  revert i v pre. induction subs as [|sub subs IH]; intros i v pre Hlen Hseg Hstep.
  { simpl in Hlen. lia. }
  cbn [weave]. destruct v as [|x v].
  { rewrite app_nil_r. apply (Hseg 0 sub eq_refl). simpl. lia. }
  rewrite app_assoc. apply chain_app.
  - apply chain_snoc; [apply (Hseg 0 sub eq_refl); simpl; lia|].
    intros y Hy. specialize (Hstep 0 x sub y eq_refl eq_refl Hy).
    by rewrite Nat.add_0_r in Hstep.
  - apply (IH (S i) v [mk i x]).
    + simpl in *. lia.
    + intros j sb Hj Hjv. specialize (Hseg (S j) sb Hj ltac:(simpl; lia)).
      destruct j as [|j]; cbn [before lookup list_lookup from_option] in *.
      * by rewrite Nat.add_0_r in Hseg.
      * by rewrite Nat.add_succ_r in Hseg.
    + intros j y sb z Hj Hsb Hz. rewrite Nat.add_succ_l, <-Nat.add_succ_r.
      apply (Hstep (S j) y sb z Hj Hsb).
      destruct j as [|j]; cbn [before lookup list_lookup from_option] in *.
      * by rewrite Nat.add_0_r.
      * by rewrite Nat.add_succ_r.
Qed.

Lemma rightmost_spec Q s cap T : ∀ fuel par lo hi,
  rep Q (nodes s) cap par T → wfS cap lo hi T → height T ≤ fuel →
  rightmost fuel s (saddr T) = Ok (vec (end_pos T)).
Proof.
  induction T as [a v cs IH] using shape_ind. intros fuel par lo hi Hrep Hwf Hh.
  rewrite (end_pos_node _ _ _ _ _ _ Hwf).
  pose proof Hwf as (_&_&Hv&Hlen&Hfull&Hkids)%wfS_inv.
  apply rep_inv in Hrep as (n&Hn&Hch&?&?&?&Hcs).
  destruct fuel as [|fuel]; [pose proof (height_pos (SNode a v cs)); lia|].
  simpl. unfold node_at. rewrite Hn. simpl. unfold child_at. rewrite Hch.
  rewrite list_lookup_fmap. subst v.
  destruct (cs !! length (val n)) as [[c|]|] eqn:Hc; simpl.
  - eapply IH; eauto. pose proof (height_child a (val n) cs _ c Hc). lia.
  - done.
  - apply lookup_ge_None in Hc. lia.
Qed.

Lemma head_elems_node cap lo hi a v cs :
  wfS cap lo hi (SNode a v cs) →
  head (elems (SNode a v cs)) =
    match cs !! 0 with
    | Some (Some c) => head (elems c)
    | _ => head v
    end.
Proof.
  intros Hwf. pose proof Hwf as (_&_&_&Hlen&Hfull&Hkids)%wfS_inv.
  rewrite elems_node. destruct cs as [|c0 cs]; [done|]. cbn [weave fmap list_fmap].
  destruct c0 as [c|]; cbn [sub lookup list_lookup].
  - destruct (Hfull 0 c eq_refl) as [_ Hne].
    pose proof (items_nonempty _ _ _ _ (Hkids 0 c eq_refl) Hne) as Hp.
    unfold elems in *. by destruct (items c).
  - by destruct v.
Qed.

(** The last position of a tree is the one before [end()]. *)
Lemma last_positions T p :
  last (positions T) = Some p →
  p = mkVI (vec (end_pos T)) (idx (end_pos T) - 1) ∧ idx (end_pos T) ≠ 0.
Proof.
  intros Hl. unfold end_pos. rewrite Hl. cbn [vec idx].
  rewrite Nat.sub_1_r. cbn [pred]. by destruct p.
Qed.

Lemma begin_pos_spec Q ns cap lo hi T : ∀ par,
  rep Q ns cap par T → wfS cap lo hi T →
  vec (begin_pos T) ∈ addrs T ∧ idx (begin_pos T) = 0 ∧
  ∃ n, ns !! vec (begin_pos T) = Some n ∧ children n !! 0 = Some None.
Proof.
  revert lo hi. induction T as [a v cs IH] using shape_ind.
  intros lo hi par Hrep Hwf.
  rewrite (begin_pos_node _ _ _ _ _ _ Hwf).
  pose proof Hwf as (_&_&Hv&Hlen&Hfull&Hkids)%wfS_inv.
  apply rep_inv in Hrep as (n&Hn&Hch&?&?&?&Hcs).
  destruct (cs !! 0) as [[c|]|] eqn:Hc.
  - destruct (IH _ c Hc _ _ _ (Hcs _ _ Hc) (Hkids _ _ Hc)) as [Hin Hnode].
    split; [|done]. apply elem_of_addrs_node. eauto.
  - split; [apply (saddr_in_addrs (SNode _ _ _))|]. split; [done|].
    exists n. split; [done|]. by rewrite Hch, list_lookup_fmap, Hc.
  - apply lookup_ge_None in Hc. lia.
Qed.

Section backward.
Context (k : access) (s : Store) (t cap : nat) (R : Shape).
Context (Hcap : 1 ≤ cap).
Context (Hbegin : begin_ k s t = Ok (of_vi (begin_pos R))).

Lemma climb_down_step f temp c i nc a na :
  nodes s !! c = Some nc → root nc = t → parent nc = Some a →
  nodes s !! a = Some na → val na ≠ [] → c ≠ vec (begin_pos R) →
  climb_down k (S f) s temp (at_ c i) =
    if decide (lower_bound (val na) temp ≠ 0)
    then Ok (at_ a (lower_bound (val na) temp - 1))
    else climb_down k f s temp (at_ a (lower_bound (val na) temp)).
Proof.
  intros Hc Hroot Hpar Ha Hna Hne. cbn [climb_down at_ ptr]. unfold node_at.
  rewrite Hc. cbn [opt mbind Result_bind]. rewrite Hroot, Hbegin.
  cbn [mbind Result_bind]. unfold it_neq, it_eq. cbn [pos of_vi].
  rewrite bool_decide_eq_false_2; [|intros [= Heq]; apply Hne; by rewrite <-Heq].
  cbn [negb]. rewrite Hpar. cbn [opt mbind Result_bind]. rewrite Ha.
  cbn [opt mbind Result_bind idx pos]. rewrite !(val_it_nonempty na) by done.
  fold (@at_ k a (lower_bound (val na) temp)).
  repeat case_decide; (done || congruence).
Qed.

Lemma climb_down_spine T : ∀ par lo hi temp,
  rep (linked t) (nodes s) cap par T → wfS cap lo hi T →
  vec (begin_pos R) ∉ addrs T → head (elems T) = Some temp →
  ∃ d, d < height T ∧ ∀ f,
    climb_down k (d + f) s temp (of_vi (begin_pos T))
    = climb_down k f s temp (at_ (saddr T) 0).
Proof.
  induction T as [a v cs IH] using shape_ind.
  intros par lo hi temp Hrep Hwf Hout Hhead.
  rewrite (begin_pos_node _ _ _ _ _ _ Hwf).
  rewrite (head_elems_node _ _ _ _ _ _ Hwf) in Hhead.
  pose proof Hwf as (Hs&_&Hv&Hlen&Hfull&Hkids)%wfS_inv.
  pose proof Hrep as (n&Hn&Hch&?&Hval&[Hroot Hpar]&Hcs)%rep_inv.
  cbn [saddr].
  destruct (cs !! 0) as [[c|]|] eqn:Hc;
    [|exists 0; split; [apply height_pos|done]..].
  assert (vec (begin_pos R) ∉ addrs c) as Houtc.
  { intros ?. apply Hout, elem_of_addrs_node. eauto. }
  destruct (IH _ c Hc _ _ _ temp (Hcs _ _ Hc) (Hkids _ _ Hc) Houtc Hhead)
    as (d & Hd & Hclimb).
  pose proof (height_child a v cs _ c Hc).
  exists (S d). split; [lia|]. intros f.
  replace (S d + f) with (d + S f) by lia. rewrite Hclimb.
  destruct (rep_root _ _ _ _ _ (Hcs _ _ Hc)) as (nc&Hnc&_&_&_&[Hrc Hpc]).
  assert (val n ≠ []) as Hne.
  { rewrite Hval. destruct (Hfull _ _ Hc) as [Hl _]. intros ->. simpl in Hl. lia. }
  rewrite (climb_down_step f temp (saddr c) _ nc a n); try done.
  - rewrite Hval.
    assert (lower_bound v temp = 0) as ->.
    { eapply lower_bound_partition; [done|lia|].
      destruct (wfS_sorted _ _ _ _ (Hkids _ _ Hc)) as [_ Hw].
      rewrite Forall_forall in Hw. apply Hw.
      apply head_Some_elem_of in Hhead. done. }
    by rewrite decide_False by (intros ?; done).
  - intros Heq. apply Houtc. rewrite <-Heq. apply saddr_in_addrs.
Qed.

Lemma climb_down_exit a v cs j c par lo hi temp :
  rep (linked t) (nodes s) cap par (SNode a v cs) →
  wfS cap lo hi (SNode a v cs) →
  NoDup (addrs (SNode a v cs)) →
  cs !! S j = Some (Some c) → j < length v →
  vec (begin_pos R) ∉ addrs c → head (elems c) = Some temp →
  climb_down k (fuel_of s) s temp (of_vi (begin_pos c)) = Ok (at_ a j).
Proof.
  intros Hrep Hwf Hnd Hc Hj Hout Hhead.
  pose proof Hwf as (Hs&_&Hv&Hlen&Hfull&Hkids)%wfS_inv.
  pose proof Hrep as (n&Hn&Hch&?&Hval&[Hroot Hpar]&Hcs)%rep_inv.
  apply NoDup_addrs_node in Hnd as [Hndk _]. destruct (Hndk _ _ Hc) as [_ Hndc].
  destruct (climb_down_spine c _ _ _ temp (Hcs _ _ Hc) (Hkids _ _ Hc) Hout Hhead)
    as (d & Hd & Hclimb).
  pose proof (height_lt_fuel _ _ _ _ _ (Hcs _ _ Hc) Hndc) as Hfuel.
  replace (fuel_of s) with (d + S (fuel_of s - d - 1)) by lia.
  rewrite Hclimb.
  destruct (rep_root _ _ _ _ _ (Hcs _ _ Hc)) as (nc&Hnc&_&_&_&[Hrc Hpc]).
  assert (val n ≠ []) as Hne.
  { rewrite Hval. destruct (Hfull _ _ Hc) as [Hl _]. intros ->. simpl in Hl. lia. }
  rewrite (climb_down_step _ temp (saddr c) _ nc a n); try done.
  - rewrite Hval.
    assert (lower_bound v temp = S j) as ->.
    { eapply lower_bound_partition; [done|lia|].
      destruct (wfS_sorted _ _ _ _ (Hkids _ _ Hc)) as [_ Hw].
      rewrite Forall_forall in Hw. apply Hw.
      apply head_Some_elem_of in Hhead. done. }
    rewrite decide_True by lia. do 2 f_equal. lia.
  - intros Heq. apply Hout. rewrite <-Heq. apply saddr_in_addrs.
Qed.
End backward.

Lemma chain_short {A} (R : A → A → Prop) l : length l ≤ 1 → chain R l.
Proof. destruct l as [|x [|y l]]; simpl; [done..|lia]. Qed.

Lemma before_short {A} (mk : nat → Z → A) i pre v j :
  length pre ≤ 1 → length (before mk i pre v j) ≤ 1.
Proof.
  intros Hp. destruct j as [|j]; [done|]. simpl. destruct (v !! j); simpl; lia.
Qed.

Section backward_chain.
Context (k : access) (s : Store) (t cap : nat) (R : Shape).
Context (Hcap : 1 ≤ cap).
Context (Hbegin : begin_ k s t = Ok (of_vi (begin_pos R))).

(** The step back to an entry of a node. *)
Lemma decr_own a v cs par lo hi j x pre oc y :
  rep (linked t) (nodes s) cap par (SNode a v cs) →
  wfS cap lo hi (SNode a v cs) →
  NoDup (addrs (SNode a v cs)) →
  (∀ temp px, head (elems (SNode a v cs)) = Some temp → last pre = Some px →
     climb_down k (fuel_of s) s temp (of_vi (begin_pos (SNode a v cs)))
     = Ok (of_vi px)) →
  v !! j = Some x → cs !! j = Some oc →
  last (before (fun i _ => mkVI a i) 0 pre v j ++ sub positions oc) = Some y →
  precedes k s y (mkVI a j).
Proof.
  intros Hrep Hwf Hnd Hclimb Hj Hoc Hy.
  pose proof Hwf as (Hs&_&Hv&Hlen&Hfull&Hkids)%wfS_inv.
  pose proof Hrep as (n&Hn&Hch&?&Hval&[Hroot Hpar]&Hcs)%rep_inv.
  apply lookup_lt_Some in Hj as Hjlt.
  unfold precedes, decr, deref, node_at, offset_in, child_at.
  cbn [of_vi pos ptr opt mbind Result_bind]. cbn [vec idx].
  rewrite Hn. cbn [opt mbind Result_bind].
  rewrite (val_it_nonempty n) by (rewrite Hval; by destruct v).
  rewrite Hval, Hj. cbn [opt mbind Result_bind].
  destruct (decide (a = a)) as [_|]; [|done]. cbn [mbind Result_bind].
  rewrite Hch, list_lookup_fmap, Hoc.
  cbn [fmap option_fmap option_map opt mbind Result_bind].
  destruct oc as [c|]; cbn [fmap option_fmap option_map sub] in *.
  - (* down to the last entry of the left child *)
    destruct (Hfull _ _ Hoc) as [_ Hne].
    apply NoDup_addrs_node in Hnd as [Hndk _].
    destruct (Hndk _ _ Hoc) as [_ Hndc].
    pose proof (height_lt_fuel _ _ _ _ _ (Hcs _ _ Hoc) Hndc) as Hfuel.
    rewrite (rightmost_spec (linked t) s cap c (fuel_of s) _ _ _
               (Hcs _ _ Hoc) (Hkids _ _ Hoc)) by lia.
    cbn [mbind Result_bind].
    destruct (end_pos_spec _ _ _ _ _ c _ (Hcs _ _ Hoc) (Hkids _ _ Hoc))
      as (_ & rn & Hrn & Hidx).
    rewrite Hrn. cbn [opt mbind Result_bind].
    pose proof (positions_nonempty _ _ _ _ (Hkids _ _ Hoc) Hne) as Hp.
    rewrite last_app in Hy.
    destruct (last (positions c)) as [z|] eqn:Hz; [|by apply last_None in Hz].
    injection Hy as ->. apply last_positions in Hz as [-> Hnz].
    rewrite <-Hidx. destruct (idx (end_pos c)) as [|m]; [done|].
    unfold at_, of_vi. cbn [vec]. by rewrite Nat.sub_1_r.
  - rewrite app_nil_r in Hy.
    destruct j as [|j]; cbn [before] in Hy.
    + (* the first entry of a node without a first child: climb *)
      destruct (decide (_ = _)) as [_|Hn']; [|done].
      specialize (Hclimb x y).
      rewrite (begin_pos_node _ _ _ _ _ _ Hwf), Hoc in Hclimb.
      rewrite (head_elems_node _ _ _ _ _ _ Hwf), Hoc in Hclimb.
      apply Hclimb; [|done]. by destruct v.
    + (* the entry before, in the same node *)
      destruct (decide (_ = _)) as [[=]|_].
      destruct (lookup_lt_is_Some_2 v j) as [w Hw]; [lia|].
      rewrite Hw in Hy. cbn in Hy. by injection Hy as <-.
Qed.

Lemma chain_back T : ∀ par lo hi pre,
  rep (linked t) (nodes s) cap par T → wfS cap lo hi T → NoDup (addrs T) →
  sval T ≠ [] → length pre ≤ 1 →
  vec (begin_pos R) ∉ addrs T ∨ begin_pos T = begin_pos R →
  (∀ temp px, head (elems T) = Some temp → last pre = Some px →
     climb_down k (fuel_of s) s temp (of_vi (begin_pos T)) = Ok (of_vi px)) →
  chain (precedes k s) (pre ++ positions T).
Proof.
  induction T as [a v cs IH] using shape_ind.
  intros par lo hi pre Hrep Hwf Hnd Hne Hpre Hside Hclimb.
  pose proof Hwf as (Hs&_&Hv&Hlen&Hfull&Hkids)%wfS_inv.
  pose proof Hrep as (n&Hn&Hch&?&Hval&[Hroot Hpar]&Hcs)%rep_inv.
  pose proof Hnd as [Hndk Hpair]%NoDup_addrs_node.
  rewrite positions_node. apply chain_weave_back.
  { rewrite length_fmap. lia. }
  - (* the segment of child [j] is reached from what comes before it *)
    intros j sb Hj Hjv. rewrite list_lookup_fmap in Hj.
    destruct (cs !! j) as [[c|]|] eqn:Hc; cbn in Hj; [| |done].
    2:{ injection Hj as <-. rewrite app_nil_r. by apply chain_short, before_short. }
    injection Hj as <-. cbn [sub].
    destruct (Hfull _ _ Hc) as [_ Hnec]. destruct (Hndk _ _ Hc) as [Hac Hndc].
    destruct j as [|j].
    + eapply IH; [done|by eauto|by eauto|done|done|done| |].
      * destruct Hside as [Hout|Heq].
        -- left. intros ?. apply Hout, elem_of_addrs_node. eauto.
        -- right. by rewrite <-Heq, (begin_pos_node _ _ _ _ _ _ Hwf), Hc.
      * intros temp px Hhead Hpx. specialize (Hclimb temp px).
        rewrite (begin_pos_node _ _ _ _ _ _ Hwf), Hc in Hclimb.
        rewrite (head_elems_node _ _ _ _ _ _ Hwf), Hc in Hclimb. auto.
    + assert (vec (begin_pos R) ∉ addrs c) as Hout.
      { destruct Hside as [Hout|Heq].
        - intros ?. apply Hout, elem_of_addrs_node. eauto.
        - rewrite <-Heq, (begin_pos_node _ _ _ _ _ _ Hwf).
          destruct (cs !! 0) as [[c'|]|] eqn:Hc'; cbn [vec]; [|done..].
          intros Hin.
          destruct (begin_pos_spec _ _ _ _ _ c' _ (Hcs _ _ Hc') (Hkids _ _ Hc'))
            as [Hin' _].
          pose proof (Hpair _ _ _ _ _ Hc Hc' Hin Hin'). lia. }
      eapply IH; [done|by eauto|by eauto|done|done|by apply before_short|by left|].
      intros temp px Hhead Hpx. cbn [before] in Hpx.
      destruct (lookup_lt_is_Some_2 v j) as [w Hw]; [lia|].
      rewrite Hw in Hpx. cbn in Hpx. injection Hpx as <-.
      by erewrite climb_down_exit.
  - (* entry [j] is reached from the end of the segment before it *)
    intros j x sb y Hj Hsb Hy. rewrite list_lookup_fmap in Hsb.
    destruct (cs !! j) as [oc|] eqn:Hoc; [|done]. cbn in Hsb. injection Hsb as <-.
    by eapply decr_own.
Qed.
End backward_chain.

Section tree_backward.
Context (k : access) (s : Store) (t cap : nat) (R : Shape).
Context (Hcap : 1 ≤ cap).
Context (Htree : trees s !! t = Some (mkBtree (Some (saddr R)))).
Context (Hrep : rep (linked t) (nodes s) cap None R).
Context (Hwf : wfS cap None None R).
Context (Hnd : NoDup (addrs R)).

Lemma chain_back_tree : chain (precedes k s) (positions R).
Proof.
  destruct (decide (sval R = [])) as [Hemp|Hne].
  { destruct (empty_tree_pos s t cap R Hcap Htree Hrep Hwf Hnd Hemp) as [-> _]. done. }
  apply (chain_back k s t cap R Hcap
           (begin_spec_ne k s t cap R Hcap Htree Hrep Hwf Hnd Hne)
           R None None None []); [done..|simpl; lia|by right|done].
Qed.

Lemma iter_decr_from n : ∀ i p q,
  positions R !! i = Some q → positions R !! (i + n) = Some p →
  iter_n k (decr k) n s (of_vi p) = Ok (of_vi q).
Proof.
  induction n as [|n IH]; intros i p q Hq Hp.
  { rewrite Nat.add_0_r in Hp. by simplify_eq. }
  destruct (lookup_lt_is_Some_2 (positions R) (i + n)) as [p' Hp'].
  { apply lookup_lt_Some in Hp. lia. }
  rewrite Nat.add_succ_r in Hp.
  pose proof (chain_lookup _ _ _ _ _ chain_back_tree Hp' Hp) as Hstep.
  cbn [iter_n]. unfold precedes in Hstep. rewrite Hstep. cbn [mbind Result_bind].
  by apply (IH i).
Qed.

Lemma there_and_back i p q :
  positions R !! i = Some p → positions R !! S i = Some q →
  incr k s (of_vi p) = Ok (of_vi q) ∧ decr k s (of_vi q) = Ok (of_vi p).
Proof.
  intros Hp Hq. split.
  - apply (chain_lookup _ _ i _ _
             (chain_tree k s t cap R Hcap Htree Hrep Hwf Hnd));
      by apply lookup_app_l_Some.
  - apply (chain_lookup _ _ i _ _ chain_back_tree Hp Hq).
Qed.
End tree_backward.

(** ** Capacity *)

Lemma within_capacity Q ns cap lo hi T a n : ∀ par,
  rep Q ns cap par T → wfS cap lo hi T → a ∈ addrs T → ns !! a = Some n →
  length (val n) ≤ maxSize n.
Proof.
  revert lo hi. induction T as [a0 v cs IH] using shape_ind.
  intros lo hi par Hrep Hwf Ha Hn.
  pose proof Hwf as (_&_&Hlen&_&_&Hkids)%wfS_inv.
  pose proof Hrep as (n0&Hn0&Hch&Hms&Hval&_&Hcs)%rep_inv.
  apply elem_of_addrs_node in Ha as [->|(i&c&Hi&Ha)].
  - assert (n0 = n) as -> by congruence. congruence.
  - eapply (IH i c Hi); eauto.
Qed.

(** ** [find], in general *)

(** Whenever the sought element is greater than everything in the buffer
    of the node at hand, [nodeFind] dereferences [val.end()]. *)
Lemma nodeFind_past_end k fuel s this n e :
  nodes s !! this = Some n → lower_bound (val n) e = length (val n) →
  nodeFind k (S fuel) s this e = Fault.
Proof.
  intros Hn Hlb. cbn [nodeFind]. unfold node_at. rewrite Hn.
  cbn [opt mbind Result_bind]. rewrite Hlb.
  by rewrite (lookup_ge_None_2 (val n) (length (val n))) by lia.
Qed.

Lemma lower_bound_all_lt v e :
  (∀ x, x ∈ v → (x < e)%Z) → lower_bound v e = length v.
Proof.
  induction v as [|x v IH]; intros Hlt; [done|]. cbn [lower_bound length].
  rewrite (proj2 (Z.ltb_lt x e)) by (apply Hlt; left).
  rewrite IH; [done|]. intros y Hy. apply Hlt. by right.
Qed.

(** X13. Looking for anything greater than every element of the tree
    faults at the root; on the empty tree that is every search. *)
Theorem find_above_faults k s t l e :
  built s → traversal k s t = Ok l → (∀ x, x ∈ l → (x < e)%Z) →
  find s t e = Fault ∧ cfind s t e = Fault.
Proof.
  intros [sh Hm]%built_Inv Htr Hlt.
  destruct (models_observe _ _ _ _ _ Hm Htr) as (cap & T & Hsh & ->).
  destruct (models_live _ _ _ _ _ Hm Hsh) as (Htree & Hcap & Hrep & Hwf & Hnd).
  destruct T as [a v cs].
  pose proof Hrep as (n & Hn & _ & _ & Hval & _)%rep_inv.
  assert (lower_bound (val n) e = length (val n)) as Hlb.
  { apply lower_bound_all_lt. intros x Hx. apply Hlt.
    subst v. apply list_elem_of_lookup in Hx as [j Hj].
    pose proof Hwf as (_ & _ & Hlen & Hcs & _)%wfS_inv.
    apply elem_of_elems_node. right. exists j. split; [done|].
    apply lookup_lt_Some in Hj. lia. }
  unfold find, cfind, tree_at. rewrite Htree. cbn [opt mbind Result_bind rootNode saddr].
  unfold fuel_of. split; by eapply nodeFind_past_end.
Qed.

(** When the search does not fault it gives the right answer, and it never
    runs out of fuel. *)
Lemma nodeFind_spec k s t cap last T : ∀ fuel par lo hi e,
  end_ k s t = Ok last →
  rep (linked t) (nodes s) cap par T → wfS cap lo hi T → height T < fuel →
  nodeFind k fuel s (saddr T) e ≠ OutOfFuel ∧
  ∀ it, nodeFind k fuel s (saddr T) e = Ok it →
    (∃ q, it = of_vi q ∧ (q, e) ∈ items T) ∨
    ((e ∉ elems T) ∧ it = last).
Proof.
  induction T as [a v cs IH] using shape_ind.
  intros fuel par lo hi e Hend Hrep Hwf Hfuel.
  pose proof Hwf as (Hs&Hv&Hvlen&Hlen&Hfull&Hkids)%wfS_inv.
  pose proof Hrep as (n&Hn&Hch&Hms&Hval&[Hroot Hpar]&Hcs)%rep_inv.
  destruct fuel as [|fuel]; [lia|].
  cbn [nodeFind saddr]. unfold node_at. rewrite Hn. cbn [opt mbind Result_bind].
  rewrite Hval. set (p := lower_bound v e).
  destruct (v !! p) as [x|] eqn:Hx; cbn [opt mbind Result_bind]; [|done].
  apply lookup_lt_Some in Hx as Hp.
  destruct (decide (x = e)) as [->|Hne].
  { split; [done|]. intros it [= <-]. left. exists (mkVI a p). split; [done|].
    apply elem_of_items_node. right. exists p. split_and!; [done|lia|done]. }
  assert (v !! p ≠ Some e) as Hmiss by congruence.
  pose proof (lower_bound_notin _ _ Hs Hmiss) as Hnin.
  assert (∀ c, cs !! p = Some c →
            (∀ d, c = Some d → e ∉ elems d) → e ∉ elems (SNode a v cs)) as Hout.
  { intros c Hc Hd [(j & d & Hj & Hjv & He)|(j & Hj & _)]%elem_of_elems_node.
    - pose proof (elem_of_elems_child _ _ _ _ _ _ _ _ _ Hwf Hj Hjv He) as ->.
      fold p in Hj. rewrite Hc in Hj. injection Hj as ->. by eapply Hd.
    - apply Hnin. by eapply list_elem_of_lookup_2. }
  unfold child_at. rewrite Hch, list_lookup_fmap.
  destruct (lookup_lt_is_Some_2 cs p) as [oc Hoc]; [lia|].
  rewrite Hoc. cbn [fmap option_fmap option_map opt mbind Result_bind].
  destruct oc as [c|]; cbn [fmap option_fmap option_map].
  - pose proof (height_child a v cs p c Hoc) as Hhc.
    destruct (IH p c Hoc fuel (Some a) _ _ e Hend (Hcs _ _ Hoc) (Hkids _ _ Hoc)
                ltac:(lia)) as [Hfu Hres].
    split; [done|]. intros it Hit.
    destruct (Hres it Hit) as [(q & Hq & Hi)|[He Hlast]].
    + left. exists q. split; [done|]. apply elem_of_items_node. left. exists p, c.
      split_and!; [done|lia|done].
    + right. split; [|done]. apply (Hout _ Hoc). by intros d [= <-].
  - rewrite Hroot, Hend. split; [done|]. intros it [= <-]. right.
    split; [|done]. by apply (Hout _ Hoc).
Qed.

(** X12. [find] and its const overload on a tree built through the
    interface: no search runs out of fuel, and a search that does not fault
    returns a position of the element when the tree holds it and [end()]
    when it does not. *)
Theorem find_sound s t l e :
  built s → traversal Mutable s t = Ok l →
  find s t e ≠ OutOfFuel ∧ cfind s t e ≠ OutOfFuel ∧
  (∀ it, find s t e = Ok it →
     (e ∈ l ∧ deref Mutable s it = Ok e) ∨ ((e ∉ l) ∧ end_ Mutable s t = Ok it)) ∧
  (∀ it, cfind s t e = Ok it →
     (e ∈ l ∧ deref ReadOnly s it = Ok e) ∨ ((e ∉ l) ∧ cend s t = Ok it)).
Proof.
  intros [sh Hm]%built_Inv Htr.
  destruct (models_observe _ _ _ _ _ Hm Htr) as (cap & T & Hsh & ->).
  destruct (models_live _ _ _ _ _ Hm Hsh) as (Htree & Hcap & Hrep & Hwf & Hnd).
  assert (∀ k, end_ k s t = Ok (place T (end_pos T))) as Hend.
  { intros k. by eapply end_spec. }
  assert (height T < fuel_of s) as Hfuel by by eapply height_lt_fuel.
  assert (∀ k q, (q, e) ∈ items T →
            e ∈ elems T ∧ deref k s (of_vi q) = Ok e) as Hhit.
  { intros k q Hi. split.
    - unfold elems. apply list_elem_of_fmap. by exists (q, e).
    - by eapply item_deref. }
  unfold find, cfind, cend, tree_at. rewrite Htree.
  cbn [opt mbind Result_bind rootNode].
  destruct (nodeFind_spec Mutable s t cap _ T (fuel_of s) None None None e
              (Hend _) Hrep Hwf Hfuel) as [Hf1 Hr1].
  destruct (nodeFind_spec ReadOnly s t cap _ T (fuel_of s) None None None e
              (Hend _) Hrep Hwf Hfuel) as [Hf2 Hr2].
  split_and!; [done|done| |].
  - intros it Hit. destruct (Hr1 it Hit) as [(q & -> & Hi)|[He ->]]; [left|right].
    + by apply Hhit.
    + by rewrite Hend.
  - intros it Hit. destruct (Hr2 it Hit) as [(q & -> & Hi)|[He ->]]; [left|right].
    + by apply Hhit.
    + by rewrite Hend.
Qed.

(** ** Stepping, in general *)

(** Stepping forward from [begin()] once per element reaches [end()]. *)
Theorem forward_n_reaches_end k s t l :
  built s → traversal k s t = Ok l →
  ∃ b e, begin_ k s t = Ok b ∧ end_ k s t = Ok e ∧
         iter_n k (incr k) (length l) s b = Ok e.
Proof.
  intros [sh Hm]%built_Inv Htr.
  destruct (models_observe _ _ _ _ _ Hm Htr) as (cap & T & Hsh & ->).
  destruct (models_live _ _ _ _ _ Hm Hsh) as (Htree & Hcap & Hrep & Hwf & Hnd).
  exists (place T (begin_pos T)), (place T (end_pos T)).
  split_and!; [by eapply begin_spec|by eapply end_spec|].
  by eapply forward_reaches_end.
Qed.

(** [operator--] reads [*pos] first; at [end()] that is one past the last
    element of the buffer. *)
Theorem decr_end_faults k s t l :
  built s → traversal k s t = Ok l →
  ∃ e, end_ k s t = Ok e ∧ decr k s e = Fault.
Proof.
  intros [sh Hm]%built_Inv Htr.
  destruct (models_observe _ _ _ _ _ Hm Htr) as (cap & T & Hsh & ->).
  destruct (models_live _ _ _ _ _ Hm Hsh) as (Htree & Hcap & Hrep & Hwf & Hnd).
  exists (place T (end_pos T)). split; [by eapply end_spec|].
  destruct (end_pos_spec _ _ _ _ _ _ _ Hrep Hwf) as (_ & n & Hn & Hidx).
  unfold decr, deref, node_at, place, of_vi. destruct (sval T); [done|].
  cbn [pos opt mbind Result_bind]. rewrite Hn.
  cbn [opt mbind Result_bind]. rewrite Hidx.
  by rewrite (lookup_ge_None_2 (val n) (length (val n))) by lia.
Qed.

(** X10. From the position of the last element, stepping backward once
    per remaining element reaches [begin()]. *)
Theorem backward_from_last k s t l :
  built s → traversal k s t = Ok l → l ≠ [] →
  ∃ b p, begin_ k s t = Ok b ∧
         iter_n k (incr k) (length l - 1) s b = Ok p ∧
         iter_n k (decr k) (length l - 1) s p = Ok b.
Proof.
  intros [sh Hm]%built_Inv Htr Hl.
  destruct (models_observe _ _ _ _ _ Hm Htr) as (cap & T & Hsh & ->).
  destruct (models_live _ _ _ _ _ Hm Hsh) as (Htree & Hcap & Hrep & Hwf & Hnd).
  assert (length (positions T) = length (elems T)) as Hlen.
  { unfold positions, elems. by rewrite !length_fmap. }
  assert (0 < length (elems T)) as Hpos by (destruct (elems T); [done|simpl; lia]).
  destruct (lookup_lt_is_Some_2 (positions T) (length (elems T) - 1)) as [p Hp];
    [lia|].
  destruct (lookup_lt_is_Some_2 (positions T) 0) as [b Hb]; [lia|].
  assert (b = begin_pos T) as ->.
  { unfold begin_pos. destruct (positions T); by simplify_eq/=. }
  pose proof (position_nonempty _ _ _ _ _ _ Hcap Hwf Hp) as Hne.
  exists (place T (begin_pos T)), (place T p). split_and!.
  - apply (begin_spec k s t cap T Hcap Htree Hrep Hwf Hnd).
  - eapply (iter_incr_from k s t cap T Hcap Htree Hrep Hwf Hnd _ 0);
      by apply lookup_app_l_Some.
  - rewrite !(place_nonempty T) by done.
    by eapply (iter_decr_from k s t cap T Hcap Htree Hrep Hwf Hnd _ 0).
Qed.

(** X11. From every element but the last, a step forward followed by a
    step backward returns to the element. *)
Theorem forward_then_backward k s t l i :
  built s → traversal k s t = Ok l → S i < length l →
  ∃ b p q, begin_ k s t = Ok b ∧ iter_n k (incr k) i s b = Ok p ∧
           incr k s p = Ok q ∧ decr k s q = Ok p.
Proof.
  intros [sh Hm]%built_Inv Htr Hi.
  destruct (models_observe _ _ _ _ _ Hm Htr) as (cap & T & Hsh & ->).
  destruct (models_live _ _ _ _ _ Hm Hsh) as (Htree & Hcap & Hrep & Hwf & Hnd).
  assert (length (positions T) = length (elems T)) as Hlen.
  { unfold positions, elems. by rewrite !length_fmap. }
  destruct (lookup_lt_is_Some_2 (positions T) i) as [p Hp]; [lia|].
  destruct (lookup_lt_is_Some_2 (positions T) (S i)) as [q Hq]; [lia|].
  destruct (lookup_lt_is_Some_2 (positions T) 0) as [b Hb]; [lia|].
  assert (b = begin_pos T) as ->.
  { unfold begin_pos. destruct (positions T); by simplify_eq/=. }
  destruct (there_and_back k s t cap T Hcap Htree Hrep Hwf Hnd i p q Hp Hq)
    as [Hfw Hbw].
  pose proof (position_nonempty _ _ _ _ _ _ Hcap Hwf Hp) as Hne.
  exists (place T (begin_pos T)), (of_vi p), (of_vi q). split_and!; [| |done..].
  - apply (begin_spec k s t cap T Hcap Htree Hrep Hwf Hnd).
  - rewrite <-(place_nonempty (k:=k) T p Hne).
    eapply (iter_incr_from k s t cap T Hcap Htree Hrep Hwf Hnd _ 0);
      by apply lookup_app_l_Some.
Qed.

(** In the tree of the example, a step forward followed by a step back
    returns to where it started, from every element but the last. *)
Lemma sample_round_trip i :
  i < 7 →
  (b ← begin sample 0; p ← iter_n Mutable (incr Mutable) i sample b;
   q ← incr Mutable sample p; r ← decr Mutable sample q;
   Ok (it_eq r p && bool_decide (ptr r = ptr p))) = Ok true.
Proof.
  intros Hi. do 7 (destruct i as [|i]; [vm_compute; reflexivity|]). lia.
Qed.

(** ** The dump, in general *)

(** The loop of [operator<<] is the client loop with another body. *)
Lemma dump_loop_walk s t fuel : ∀ it l,
  walk ReadOnly fuel s t it = Ok l → dump_loop fuel s t it = Ok (render l).
Proof.
  induction fuel as [|fuel IH]; intros it l Hw; [done|].
  cbn [walk dump_loop] in *. unfold cend.
  destruct (end_ ReadOnly s t) as [e| |]; [|done..]. cbn [mbind Result_bind] in *.
  destruct (it_neq it e); [|by injection Hw as <-].
  destruct (deref ReadOnly s it) as [x| |]; [|done..]. cbn [mbind Result_bind] in *.
  destruct (incr ReadOnly s it) as [it'| |]; [|done..]. cbn [mbind Result_bind] in *.
  destruct (walk ReadOnly fuel s t it') as [xs| |] eqn:Hxs; [|done..].
  cbn [mbind Result_bind] in *. injection Hw as <-.
  by rewrite (IH _ _ Hxs).
Qed.

(** X14. Whenever the traversal succeeds, the dump does: it writes the
    first element, then every element (the first one again) behind a
    space. *)
Theorem dump_spec s t l :
  traversal ReadOnly s t = Ok l →
  dump s t = Ok (match l with [] => "" | x :: _ => pretty x +:+ render l end).
Proof.
  unfold traversal, dump, cbegin, cend. intros Htr.
  destruct (begin_ ReadOnly s t) as [b| |]; [|done..]. cbn [mbind Result_bind] in *.
  rewrite (dump_loop_walk _ _ _ _ _ Htr).
  unfold fuel_of in Htr. cbn [walk] in Htr.
  destruct (end_ ReadOnly s t) as [e| |]; [|done..]. cbn [mbind Result_bind] in *.
  destruct (it_neq b e); [|by injection Htr as <-].
  destruct (deref ReadOnly s b) as [x| |]; [|done..]. cbn [mbind Result_bind] in *.
  apply bind_Ok in Htr as (it' & _ & Htr). apply bind_Ok in Htr as (xs & _ & Htr).
  by injection Htr as <-.
Qed.

(** ** The example tree *)

Lemma sample_traversal k : traversal k sample 0 = Ok [1; 2; 3; 4; 5; 6; 7; 8]%Z.
Proof. destruct k; vm_compute; reflexivity. Qed.

(** * The specification, claim by claim *)

(** C1, as the specification states it, fails: not every capacity of at
    least one will do.  The capacity is a [size_t], the root gets
    [size + 1] child slots, and for the capacity [2^64 - 1] that sum is 0: the
    root has no child slot, and [begin()] indexes [children[0]] outside the
    vector, before and after an insertion. *)
Lemma full_capacity_faults :
  1 ≤ Z.to_nat (2 ^ 64 - 1) ∧
  (∃ s t, build (Z.to_nat (2 ^ 64 - 1)) [] = Ok (s, t) ∧
          traversal Mutable s t = Fault ∧ traversal ReadOnly s t = Fault) ∧
  (∃ s t, build (Z.to_nat (2 ^ 64 - 1)) [1%Z] = Ok (s, t) ∧
          traversal Mutable s t = Fault ∧ traversal ReadOnly s t = Fault).
Proof.
  assert (slots (Z.to_nat (2 ^ 64 - 1)) = 0) as Hslots.
  { unfold slots. rewrite Z2Nat.id by lia. reflexivity. }
  split; [lia|]. generalize dependent (Z.to_nat (2 ^ 64 - 1)). intros cap Hslots.
  unfold build, construct, alloc, new_node. rewrite Hslots.
  split; eexists _, _; (split; [reflexivity|split; reflexivity]).
Qed.

(** C1, amended.  For every capacity from 1 up to [2^31 - 1] and every
    sequence of insertions into a new tree, stepping from [begin()] to
    [end()] yields a strictly increasing sequence without duplicates whose
    members are exactly the inserted elements. *)
Theorem inorder_sorted_distinct (k : access) (cap : nat) (es : list Z) :
  capacity_ok cap →
  ∃ s t l,
    build cap es = Ok (s, t) ∧ traversal k s t = Ok l ∧
    StronglySorted Z.lt l ∧ NoDup l ∧ ∀ x, x ∈ l ↔ x ∈ es.
Proof.
  intros Hcap. destruct Inv_empty as [sh0 Hsh0].
  pose proof (construct_models empty_store sh0 cap Hsh0 Hcap) as Hm.
  set (s0 := (construct empty_store cap).1) in *.
  assert (construct empty_store cap = (s0, 0)) as Hc by reflexivity.
  change (length (trees empty_store)) with 0 in Hm.
  change (length (nodes empty_store)) with 0 in Hm.
  set (T0 := SNode 0 [] (replicate (S cap) None)) in *.
  destruct (inserts_models _ _ 0 cap T0 es Hm (fn_lookup_insert _ _ _))
    as (s' & T' & sh' & Heq & Hm' & Ht' & _ & Helems).
  exists s', 0, (elems T'). unfold build. rewrite Hc, Heq.
  cbn [mbind Result_bind].
  destruct (models_live _ _ _ _ _ Hm' Ht') as (_ & _ & _ & Hwf & _).
  destruct (wfS_sorted _ _ _ _ Hwf) as [Hs _].
  split_and!; [done|by eapply models_traversal|done|by apply sorted_NoDup|].
  intros x. rewrite Helems.
  assert (elems T0 = []) as ->.
  { apply leaf_elems; [apply childless_replicate|].
    rewrite length_replicate. simpl. lia. }
  split; [by intros [?%elem_of_nil|?]|auto].
Qed.

Lemma inorder_sorted_distinct_witness :
  capacity_ok 3 ∧
  ∃ s t l,
    build 3 [5; 3; 8; 1; 4; 7; 2; 6]%Z = Ok (s, t) ∧
    traversal Mutable s t = Ok l ∧
    StronglySorted Z.lt l ∧ NoDup l ∧
    ∀ x, x ∈ l ↔ x ∈ [5; 3; 8; 1; 4; 7; 2; 6]%Z.
Proof.
  split; [split; lia|].
  apply (inorder_sorted_distinct Mutable 3 [5; 3; 8; 1; 4; 7; 2; 6]%Z).
  split; lia.
Defined.

(** C2. Inserting [e] into a live tree with elements [l] returns a position
    of [e].  When [e] is already there the store is left as it is and the
    flag is [false]; otherwise the flag is [true] and the tree holds [e] and
    the elements it had, one element more.  Inserting [e] a second time
    changes nothing and returns the same position with [false]. *)
Theorem insert_if_absent s t l e :
  built s → traversal Mutable s t = Ok l →
  ∃ s' it b,
    insert s t e = Ok (s', (it, b)) ∧
    deref Mutable s' it = Ok e ∧
    (e ∈ l → b = false ∧ s' = s) ∧
    (e ∉ l → b = true ∧
       ∃ l', traversal Mutable s' t = Ok l' ∧ l' ≡ₚ e :: l ∧
             length l' = S (length l)) ∧
    insert s' t e = Ok (s', (it, false)).
Proof.
  intros [sh Hm]%built_Inv Htr.
  destruct (models_observe _ _ _ _ _ Hm Htr) as (cap & T & Hsh & ->).
  destruct (insert_models s sh t cap T e Hm Hsh)
    as (s' & T' & it & b & Heq & Hins & Hm').
  exists s', it, b.
  pose proof (ins_item _ _ _ _ _ _ _ _ _ _ _ _ Hins) as (q & Hq & Hitem).
  pose proof (ins_rep _ _ _ _ _ _ _ _ _ _ _ _ Hins) as Hrep'.
  pose proof (ins_wf _ _ _ _ _ _ _ _ _ _ _ _ Hins) as Hwf'.
  split_and!; [done|..].
  - rewrite Hq. by eapply item_deref.
  - intros He. destruct b.
    + by destruct (ins_new _ _ _ _ _ _ _ _ _ _ _ _ Hins eq_refl).
    + by destruct (ins_old _ _ _ _ _ _ _ _ _ _ _ _ Hins eq_refl) as (_ & ? & _).
  - intros He. destruct b.
    + destruct (ins_new _ _ _ _ _ _ _ _ _ _ _ _ Hins eq_refl) as [_ Hperm].
      split; [done|]. exists (elems T'). split_and!; [|done|by rewrite Hperm].
      eapply models_traversal; [done|apply fn_lookup_insert].
    + by destruct (ins_old _ _ _ _ _ _ _ _ _ _ _ _ Hins eq_refl) as (? & _).
  - destruct (insert_models s' _ t cap T' e Hm' (fn_lookup_insert _ _ _))
      as (s2 & T2 & it2 & b2 & Heq2 & Hins2 & _).
    rewrite Heq2.
    assert (e ∈ elems T') as He'.
    { unfold elems. apply list_elem_of_fmap. by exists (q, e). }
    destruct b2.
    { by destruct (ins_new _ _ _ _ _ _ _ _ _ _ _ _ Hins2 eq_refl). }
    destruct (ins_old _ _ _ _ _ _ _ _ _ _ _ _ Hins2 eq_refl) as (_ & -> & ->).
    pose proof (ins_item _ _ _ _ _ _ _ _ _ _ _ _ Hins2) as (q2 & Hq2 & Hitem2).
    pose proof (items_pos_unique _ _ _ _ _ _ _ Hwf' Hitem Hitem2) as Hpos.
    by rewrite Hq, Hq2, Hpos.
Qed.

Lemma insert_if_absent_witness :
  built (construct empty_store 3).1 ∧
  traversal Mutable (construct empty_store 3).1 0 = Ok [] ∧
  ∃ s' it b,
    insert (construct empty_store 3).1 0 5 = Ok (s', (it, b)) ∧
    deref Mutable s' it = Ok 5%Z ∧
    (5%Z ∈ [] → b = false ∧ s' = (construct empty_store 3).1) ∧
    (5%Z ∉ [] → b = true ∧
       ∃ l', traversal Mutable s' 0 = Ok l' ∧ l' ≡ₚ [5%Z] ∧ length l' = 1) ∧
    insert s' 0 5 = Ok (s', (it, false)).
Proof.
  assert (built (construct empty_store 3).1) as Hb.
  { apply built_construct; [constructor|split; lia]. }
  split; [exact Hb|]. split; [reflexivity|].
  apply (insert_if_absent (construct empty_store 3).1 0 [] 5%Z Hb). reflexivity.
Defined.

(** C3. An element that was inserted is not found, and an element that was
    not inserted does not give [end()]: after [1 2 3 4] went into a tree of
    capacity 3, [find(4)] and [find(5)] fault, as does [find] on the empty
    tree and [find(9)] in the specification's own example.  (A search that
    does not fault is right: see [find_sound].) *)
Lemma find_faults :
  ('(s, t) ← build 3 [1; 2; 3; 4]%Z; find s t 4) = Fault ∧
  ('(s, t) ← build 3 [1; 2; 3; 4]%Z; cfind s t 4) = Fault ∧
  ('(s, t) ← build 3 [1; 2; 3; 4]%Z; find s t 5) = Fault ∧
  ('(s, t) ← build 3 []; find s t 1) = Fault ∧
  ('(s, t) ← build 3 [5; 3; 8; 1; 4; 7; 2; 6]%Z; find s t 9) = Fault.
Proof. repeat split; reflexivity. Qed.

(** C4. With [1] stored in a tree of capacity 3, looking for [2] compares
    the element one past the end of the root's buffer, in both overloads:
    the bounds check the claim asks for is missing. *)
Lemma nodeFind_reads_past_end :
  ('(s, t) ← build 3 [1%Z]; nodeFind Mutable (fuel_of s) s 0 2) = Fault ∧
  ('(s, t) ← build 3 [1%Z]; nodeFind ReadOnly (fuel_of s) s 0 2) = Fault.
Proof. split; reflexivity. Qed.

(** C5. With [1] stored in a tree of capacity 3, the first step backward
    from [end()] faults, for both iterator classes; so does the step back
    after stepping forward from the last element.  (The rest of the claim
    holds: see [forward_n_reaches_end], [backward_from_last] and
    [forward_then_backward].) *)
Lemma retreat_from_end_faults :
  ('(s, t) ← build 3 [1%Z]; e ← end_ Mutable s t; decr Mutable s e) = Fault ∧
  ('(s, t) ← build 3 [1%Z]; e ← cend s t; decr ReadOnly s e) = Fault ∧
  ('(s, t) ← build 3 [1%Z]; b ← begin s t; e ← incr Mutable s b;
   decr Mutable s e) = Fault.
Proof. repeat split; reflexivity. Qed.

(** C6. The dump of the specification's example writes the first element
    twice. *)
Lemma dump_repeats_first :
  ('(s, t) ← build 3 [5; 3; 8; 1; 4; 7; 2; 6]%Z; dump s t)
  = Ok "1 1 2 3 4 5 6 7 8".
Proof. vm_compute. reflexivity. Qed.

(** C7. The copy constructor and the copy assignment of a tree in use (one
    that traverses: it was not moved from) succeed and give the destination
    a graph of its own: no cell belongs to both trees, both traverse as the
    source did, and insertions into either tree succeed and leave the
    traversal of the other as it was. *)
Theorem copy_is_independent (k : access) (s : Store) (l : list Z) :
  built s →
  (∀ t, traversal k s t = Ok l →
     ∃ s' t', copy_construct s t = Ok (s', t') ∧ t' ≠ t ∧
              independent_copy k l s' t t') ∧
  (∀ this rhs, this ≠ rhs → is_Some (trees s !! this) →
     traversal k s rhs = Ok l →
     ∃ s', copy_assign s this rhs = Ok s' ∧ independent_copy k l s' rhs this).
Proof.
  intros Hb. pose proof (built_Inv _ Hb) as [sh Hm]. split.
  - intros t Htr.
    destruct (models_observe _ _ _ _ _ Hm Htr) as (cap & T & Hsh & ->).
    destruct (copy_construct_models s sh t cap T Hm Hsh)
      as (s' & T' & Heq & Hm' & He).
    destruct (traversal_Ok_live _ _ _ _ Htr) as [r Ht].
    apply lookup_lt_Some in Ht as Hlt.
    exists s', (length (trees s)). split_and!; [done|lia|].
    apply independent_copy_intro; [by eapply built_copy|lia|..].
    + eapply models_traversal; [done|]. by rewrite fn_lookup_insert_ne by lia.
    + rewrite <-He. eapply models_traversal; [done|]. by rewrite fn_lookup_insert.
  - intros this rhs Hne Hthis Htr.
    destruct (models_observe _ _ _ _ _ Hm Htr) as (cap & T & Hsh & ->).
    destruct (copy_assign_models s sh this rhs cap T Hm Hsh Hne Hthis)
      as (s' & T' & sh' & Heq & Hm' & Hthis' & Hothers & He).
    destruct (traversal_Ok_live _ _ _ _ Htr) as [r Ht].
    apply lookup_lt_Some in Ht as Hlt.
    exists s'. split; [done|].
    apply independent_copy_intro; [by eapply built_copy_assign|done|..].
    + eapply models_traversal; [done|]. by rewrite Hothers.
    + rewrite <-He. by eapply models_traversal.
Qed.

Lemma copy_is_independent_witness :
  built pair ∧
  traversal Mutable pair 0 = Ok [1; 2; 3; 4; 5; 6; 7; 8]%Z ∧
  1 ≠ 0 ∧ is_Some (trees pair !! 1) ∧
  (∃ s' t', copy_construct pair 0 = Ok (s', t') ∧ t' ≠ 0 ∧
            independent_copy Mutable [1; 2; 3; 4; 5; 6; 7; 8]%Z s' 0 t') ∧
  (∃ s', copy_assign pair 1 0 = Ok s' ∧
         independent_copy Mutable [1; 2; 3; 4; 5; 6; 7; 8]%Z s' 0 1).
Proof.
  assert (traversal Mutable pair 0 = Ok [1; 2; 3; 4; 5; 6; 7; 8]%Z) as Htr.
  { vm_compute. reflexivity. }
  assert (is_Some (trees pair !! 1)) as Hlive.
  { eexists. reflexivity. }
  split; [exact built_pair|]. split; [exact Htr|].
  split; [discriminate|]. split; [exact Hlive|].
  split.
  - exact (proj1 (copy_is_independent Mutable pair [1; 2; 3; 4; 5; 6; 7; 8]%Z
                    built_pair) 0 Htr).
  - refine (proj2 (copy_is_independent Mutable pair [1; 2; 3; 4; 5; 6; 7; 8]%Z
                     built_pair) 1 0 _ Hlive Htr).
    discriminate.
Defined.

(** C8, as the specification states it, fails: [begin()] of one empty tree
    and [cbegin()] of another compare equal in either order, and not
    unequal, although they are positions in two different nodes.  The
    operators compare the vector iterators only, and the iterators of a
    vector without elements are null whichever vector it is. *)
Lemma empty_trees_compare_equal :
  ∃ (b : btree_iterator) (cb : const_btree_iterator),
    begin two_empty 0 = Ok b ∧ cbegin two_empty 1 = Ok cb ∧
    it_eq b cb = true ∧ it_eq cb b = true ∧
    it_neq b cb = false ∧ it_neq cb b = false ∧
    ptr b ≠ ptr cb.
Proof.
  exists (mkPos 0 None), (mkPos 1 None). by repeat split.
Qed.

(** C8, amended.  For a mutable and a read-only position whose iterators
    point into the buffers of their own nodes, [==] in either order holds
    exactly when node and index agree or both iterators are null (the
    positions of nodes without elements); [!=] is its negation. *)
Theorem cross_variant_equality (a : btree_iterator) (b : const_btree_iterator) :
  own_buffer a → own_buffer b →
  (it_eq a b = true ↔
     (ptr a = ptr b ∧ idx <$> pos a = idx <$> pos b) ∨
     (pos a = None ∧ pos b = None)) ∧
  (it_eq b a = true ↔
     (ptr a = ptr b ∧ idx <$> pos a = idx <$> pos b) ∨
     (pos a = None ∧ pos b = None)) ∧
  it_neq a b = negb (it_eq a b) ∧
  it_neq b a = negb (it_eq b a).
Proof.
  destruct a as [pa [[va ia]|]], b as [pb [[vb ib]|]]; unfold own_buffer; cbn;
    intros Ha Hb; unfold it_eq; cbn; rewrite !bool_decide_eq_true;
    (split_and!; [| |done..]); try (split; [done|by intros [[_ [=]]|[[=] [=]]]]).
  - specialize (Ha _ eq_refl). specialize (Hb _ eq_refl). simpl in *. subst.
    split; [intros [= -> ->]; by left|by intros [[-> [= ->]]|[[=] _]]].
  - specialize (Ha _ eq_refl). specialize (Hb _ eq_refl). simpl in *. subst.
    split; [intros [= -> ->]; by left|by intros [[-> [= ->]]|[[=] _]]].
  - split; [by right|done].
  - split; [by right|done].
Qed.

Lemma cross_variant_equality_witness :
  own_buffer (at_ (k:=Mutable) 2 1) ∧ own_buffer (at_ (k:=ReadOnly) 2 1) ∧
  (it_eq (at_ (k:=Mutable) 2 1) (at_ (k:=ReadOnly) 2 1) = true ↔
     (ptr (at_ (k:=Mutable) 2 1) = ptr (at_ (k:=ReadOnly) 2 1) ∧
      idx <$> pos (at_ (k:=Mutable) 2 1) = idx <$> pos (at_ (k:=ReadOnly) 2 1)) ∨
     (pos (at_ (k:=Mutable) 2 1) = None ∧ pos (at_ (k:=ReadOnly) 2 1) = None)) ∧
  (it_eq (at_ (k:=ReadOnly) 2 1) (at_ (k:=Mutable) 2 1) = true ↔
     (ptr (at_ (k:=Mutable) 2 1) = ptr (at_ (k:=ReadOnly) 2 1) ∧
      idx <$> pos (at_ (k:=Mutable) 2 1) = idx <$> pos (at_ (k:=ReadOnly) 2 1)) ∨
     (pos (at_ (k:=Mutable) 2 1) = None ∧ pos (at_ (k:=ReadOnly) 2 1) = None)) ∧
  it_neq (at_ (k:=Mutable) 2 1) (at_ (k:=ReadOnly) 2 1)
    = negb (it_eq (at_ (k:=Mutable) 2 1) (at_ (k:=ReadOnly) 2 1)) ∧
  it_neq (at_ (k:=ReadOnly) 2 1) (at_ (k:=Mutable) 2 1)
    = negb (it_eq (at_ (k:=ReadOnly) 2 1) (at_ (k:=Mutable) 2 1)).
Proof.
  assert (∀ k, own_buffer (at_ (k:=k) 2 1)) as H.
  { intros k c Hc. injection Hc as <-. reflexivity. }
  split; [exact (H Mutable)|]. split; [exact (H ReadOnly)|].
  apply (cross_variant_equality (at_ 2 1) (at_ 2 1)); apply H.
Defined.

(** C9. In every store built through the interface, a node of a tree never
    holds more than [maxSize] elements and has children only when it holds
    exactly [maxSize]; and a cell created by an insertion is a child hung
    into a slot that was empty, under a node of the tree that was full. *)
Theorem fill_policy s :
  built s →
  (∀ t a n, a ∈ nodes_of s t → nodes s !! a = Some n →
     length (val n) ≤ maxSize n ∧
     ((∃ i c, children n !! i = Some (Some c)) → length (val n) = maxSize n)) ∧
  (∀ t e s' r, insert s t e = Ok (s', r) →
     ∀ a, length (nodes s) ≤ a → a < length (nodes s') →
       ∃ p np np' na i,
         p ∈ nodes_of s t ∧ nodes s !! p = Some np ∧
         length (val np) = maxSize np ∧ children np !! i = Some None ∧
         nodes s' !! p = Some np' ∧ children np' !! i = Some (Some a) ∧
         nodes s' !! a = Some na ∧ parent na = Some p).
Proof.
  intros [sh Hm]%built_Inv. split.
  - intros t a n Ha Hn.
    destruct (sh t) as [[cap T]|] eqn:Hsh;
      [|rewrite (nodes_of_dead _ _ _ Hm Hsh) in Ha; by apply elem_of_nil in Ha].
    rewrite (nodes_of_spec _ _ _ _ _ Hm Hsh) in Ha.
    destruct (models_live _ _ _ _ _ Hm Hsh) as (_ & _ & Hrep & Hwf & _).
    split; [by eapply within_capacity|by eapply full_if_children].
  - intros t e s' r Hins a Ha1 Ha2.
    destruct (insert_Ok_live _ _ _ _ Hins) as [r0 Ht].
    destruct (models_lookup _ _ _ _ Hm Ht) as (cap & T & Hsh & _).
    destruct (insert_models s sh t cap T e Hm Hsh)
      as (s2 & T' & it & b & Heq & Hi & _).
    rewrite Heq in Hins. injection Hins as <- _.
    rewrite (nodes_of_spec _ _ _ _ _ Hm Hsh).
    apply (ins_spawn _ _ _ _ _ _ _ _ _ _ _ _ Hi a Ha1 Ha2).
Qed.

Lemma fill_policy_witness :
  built sample ∧
  (∀ t a n, a ∈ nodes_of sample t → nodes sample !! a = Some n →
     length (val n) ≤ maxSize n ∧
     ((∃ i c, children n !! i = Some (Some c)) → length (val n) = maxSize n)) ∧
  (∀ t e s' r, insert sample t e = Ok (s', r) →
     ∀ a, length (nodes sample) ≤ a → a < length (nodes s') →
       ∃ p np np' na i,
         p ∈ nodes_of sample t ∧ nodes sample !! p = Some np ∧
         length (val np) = maxSize np ∧ children np !! i = Some None ∧
         nodes s' !! p = Some np' ∧ children np' !! i = Some (Some a) ∧
         nodes s' !! a = Some na ∧ parent na = Some p).
Proof.
  split; [exact built_sample|]. exact (fill_policy sample built_sample).
Defined.

(** C10. On a tree whose root holds no element and has no child, [begin()]
    equals [end()], [cbegin()] equals [cend()], and the dump writes
    nothing. *)
Theorem empty_tree_begin_is_end s t r n :
  trees s !! t = Some (mkBtree (Some r)) → nodes s !! r = Some n →
  val n = [] → children n ≠ [] →
  (∀ i c, children n !! i = Some c → c = None) →
  ∃ b e cb ce,
    begin s t = Ok b ∧ end_ Mutable s t = Ok e ∧ it_eq b e = true ∧
    cbegin s t = Ok cb ∧ cend s t = Ok ce ∧ it_eq cb ce = true ∧
    dump s t = Ok "".
Proof.
  intros Ht Hn Hval Hne Hnone.
  assert (children n !! 0 = Some None) as H0.
  { destruct (children n) as [|c cs] eqn:Hc; [done|].
    by rewrite (Hnone 0 c). }
  assert (∀ k, begin_ k s t = Ok (mkPos r None)) as Hbegin.
  { intros k. unfold begin_, tree_at, fuel_of. rewrite Ht.
    cbn [opt mbind Result_bind rootNode nodeBegin]. unfold node_at, child_at.
    rewrite Hn. cbn [opt mbind Result_bind]. rewrite H0.
    cbn [opt mbind Result_bind]. by rewrite val_it_empty. }
  assert (∀ k, end_ k s t = Ok (mkPos r None)) as Hend.
  { intros k. unfold end_, tree_at, fuel_of. rewrite Ht.
    cbn [opt mbind Result_bind rootNode nodeEnd]. unfold node_at, child_at.
    rewrite Hn. cbn [opt mbind Result_bind]. rewrite Hval. cbn [length].
    rewrite H0. cbn [opt mbind Result_bind]. by rewrite val_it_empty. }
  exists (mkPos r None), (mkPos r None), (mkPos r None), (mkPos r None).
  unfold begin, cbegin, cend, dump. rewrite !Hbegin, !Hend.
  split_and!; try done.
  unfold cbegin, cend. rewrite Hbegin, Hend. cbn [mbind Result_bind].
  unfold it_neq, it_eq. rewrite bool_decide_eq_true_2 by done.
  cbn [negb mbind Result_bind]. unfold fuel_of. cbn [dump_loop].
  unfold cend. rewrite Hend. cbn [mbind Result_bind].
  unfold it_neq, it_eq. by rewrite bool_decide_eq_true_2 by done.
Qed.

Lemma empty_tree_begin_is_end_witness :
  trees (construct empty_store 3).1 !! 0 = Some (mkBtree (Some 0)) ∧
  nodes (construct empty_store 3).1 !! 0 = Some (new_node 0 None 3) ∧
  val (new_node 0 None 3) = [] ∧ children (new_node 0 None 3) ≠ [] ∧
  (∀ i c, children (new_node 0 None 3) !! i = Some c → c = None) ∧
  ∃ b e cb ce,
    begin (construct empty_store 3).1 0 = Ok b ∧
    end_ Mutable (construct empty_store 3).1 0 = Ok e ∧ it_eq b e = true ∧
    cbegin (construct empty_store 3).1 0 = Ok cb ∧
    cend (construct empty_store 3).1 0 = Ok ce ∧ it_eq cb ce = true ∧
    dump (construct empty_store 3).1 0 = Ok "".
Proof.
  assert (∀ i c, children (new_node 0 None 3) !! i = Some c → c = None) as H.
  { intros i c Hi. apply lookup_replicate in Hi as [-> _]. reflexivity. }
  split; [reflexivity|]. split; [reflexivity|]. split; [reflexivity|].
  split; [discriminate|]. split; [exact H|].
  apply (empty_tree_begin_is_end (construct empty_store 3).1 0 0 (new_node 0 None 3));
    [reflexivity|reflexivity|reflexivity|discriminate|exact H].
Defined.

(** * Further properties of the code *)

(** ** Every node of a graph heads a graph of its own *)

Lemma subtree_at Q ns cap T : ∀ par lo hi a,
  rep Q ns cap par T → wfS cap lo hi T → NoDup (addrs T) → a ∈ addrs T →
  ∃ par' lo' hi' v cs,
    rep Q ns cap par' (SNode a v cs) ∧ wfS cap lo' hi' (SNode a v cs) ∧
    NoDup (addrs (SNode a v cs)) ∧
    (SNode a v cs = T ∧ par' = par ∨ v ≠ []) ∧
    (∀ x, x ∈ addrs (SNode a v cs) → x ∈ addrs T) ∧
    (∀ x, x ∈ elems (SNode a v cs) → x ∈ elems T).
Proof.
  induction T as [a0 v cs IH] using shape_ind.
  intros par lo hi a Hrep Hwf Hnd Ha.
  pose proof Hwf as (Hs&Hv&Hvlen&Hlen&Hfull&Hkids)%wfS_inv.
  pose proof Hrep as (n&Hn&Hch&Hms&Hval&HQ&Hcs)%rep_inv.
  pose proof Hnd as [Hndk Hpair]%NoDup_addrs_node.
  apply elem_of_addrs_node in Ha as [->|(i&c&Hi&Ha)].
  { exists par, lo, hi, v, cs. split_and!; auto. }
  destruct (Hndk _ _ Hi) as [_ Hndc].
  destruct (IH i c Hi _ _ _ a (Hcs _ _ Hi) (Hkids _ _ Hi) Hndc Ha)
    as (par' & lo' & hi' & v' & cs' & Hrep' & Hwf' & Hnd' & Hne & Hsub & Hel).
  exists par', lo', hi', v', cs'. split_and!; [done..| | |].
  - right. destruct Hne as [[<- _]|Hne]; [|done].
    by destruct (Hfull _ _ Hi) as [_ Hne].
  - intros x Hx. apply elem_of_addrs_node. right. exists i, c. auto.
  - intros x Hx. apply elem_of_elems_node. left. exists i, c.
    split_and!; [done| |auto].
    destruct (Hfull _ _ Hi) as [Hvc _]. apply lookup_lt_Some in Hi. lia.
Qed.

(** Every value stored in a cell of a graph is an element of the graph. *)
Lemma val_in_elems Q ns cap par lo hi T d nd x :
  rep Q ns cap par T → wfS cap lo hi T → NoDup (addrs T) →
  d ∈ addrs T → ns !! d = Some nd → x ∈ val nd → x ∈ elems T.
Proof.
  intros Hrep Hwf Hnd Hd Hnd' Hx.
  destruct (subtree_at _ _ _ _ _ _ _ d Hrep Hwf Hnd Hd)
    as (par' & lo' & hi' & v & cs & Hrep' & Hwf' & _ & _ & _ & Hel).
  apply Hel. apply rep_inv in Hrep' as (n&Hn&_&_&Hval&_).
  assert (n = nd) as -> by congruence. subst v.
  apply wfS_inv in Hwf' as (_&_&Hvlen&Hlen&_).
  apply list_elem_of_lookup in Hx as [j Hj].
  apply elem_of_elems_node. right. exists j. split; [done|].
  apply lookup_lt_Some in Hj. lia.
Qed.

(** X1. In every store built through the interface the back-pointers of a
    tree are consistent with its child pointers: the root has no parent,
    every node names the tree as its owner, and every child names as parent
    the node whose slot holds it. *)
Theorem back_references s :
  built s →
  ∀ t r, trees s !! t = Some (mkBtree (Some r)) →
    r ∈ nodes_of s t ∧
    (∃ nr, nodes s !! r = Some nr ∧ parent nr = None) ∧
    ∀ a, a ∈ nodes_of s t →
      ∃ n, nodes s !! a = Some n ∧ root n = t ∧
        ∀ i c, children n !! i = Some (Some c) →
          c ∈ nodes_of s t ∧ ∃ nc, nodes s !! c = Some nc ∧ parent nc = Some a.
Proof.
  intros [sh Hm]%built_Inv t r Ht.
  destruct (models_lookup _ _ _ _ Hm Ht) as (cap & T & Hsh & <-).
  destruct (models_live _ _ _ _ _ Hm Hsh) as (_ & Hcap & Hrep & Hwf & Hnd).
  rewrite (nodes_of_spec _ _ _ _ _ Hm Hsh). split_and!.
  - apply saddr_in_addrs.
  - destruct (rep_root _ _ _ _ _ Hrep) as (nr & Hnr & _ & _ & _ & [_ Hp]). eauto.
  - intros a Ha.
    destruct (subtree_at _ _ _ _ _ _ _ a Hrep Hwf Hnd Ha)
      as (par' & lo' & hi' & v & cs & Hrep' & Hwf' & _ & _ & Hsub & _).
    pose proof Hrep' as (n&Hn&Hch&_&_&[Hroot _]&Hcs)%rep_inv.
    exists n. split_and!; [done..|]. intros i c Hi.
    rewrite Hch, list_lookup_fmap in Hi.
    destruct (cs !! i) as [[C|]|] eqn:HC; cbn in Hi; [|done..]. injection Hi as <-. split.
    + apply Hsub, elem_of_addrs_node. right. exists i, C.
      split; [done|apply saddr_in_addrs].
    + destruct (rep_root _ _ _ _ _ (Hcs _ _ HC)) as (nc & Hnc & _ & _ & _ & [_ Hp]).
      eauto.
Qed.

Lemma back_references_witness :
  built sample ∧
  ∀ t r, trees sample !! t = Some (mkBtree (Some r)) →
    r ∈ nodes_of sample t ∧
    (∃ nr, nodes sample !! r = Some nr ∧ parent nr = None) ∧
    ∀ a, a ∈ nodes_of sample t →
      ∃ n, nodes sample !! a = Some n ∧ root n = t ∧
        ∀ i c, children n !! i = Some (Some c) →
          c ∈ nodes_of sample t ∧
          ∃ nc, nodes sample !! c = Some nc ∧ parent nc = Some a.
Proof.
  split; [exact built_sample|exact (back_references sample built_sample)].
Defined.

(** X2. In every store built through the interface, where the capacities
    given to the constructor lie between 1 and [2^31 - 1], all nodes of a tree
    have the capacity of its root, which is such a capacity, and one child
    slot more than that ([size + 1] does not wrap around); and every node
    but the root holds at least one element. *)
Theorem node_layout s :
  built s →
  ∀ t r, trees s !! t = Some (mkBtree (Some r)) →
    ∃ nr, nodes s !! r = Some nr ∧ capacity_ok (maxSize nr) ∧
      ∀ a, a ∈ nodes_of s t →
        ∃ n, nodes s !! a = Some n ∧ maxSize n = maxSize nr ∧
             length (children n) = maxSize n + 1 ∧ (a ≠ r → val n ≠ []).
Proof.
  intros [sh Hm]%built_Inv t r Ht.
  destruct (models_lookup _ _ _ _ Hm Ht) as (cap & T & Hsh & <-).
  destruct (models_live _ _ _ _ _ Hm Hsh) as (_ & Hcap & Hrep & Hwf & Hnd).
  pose proof (models_bound _ _ _ _ _ Hm Hsh) as Hbnd.
  rewrite (nodes_of_spec _ _ _ _ _ Hm Hsh).
  destruct (rep_root _ _ _ _ _ Hrep) as (nr & Hnr & _ & Hms & _).
  exists nr. split; [done|]. split; [by rewrite Hms|]. intros a Ha.
  destruct (subtree_at _ _ _ _ _ _ _ a Hrep Hwf Hnd Ha)
    as (par' & lo' & hi' & v & cs & Hrep' & Hwf' & _ & Hne & _ & _).
  pose proof Hrep' as (n&Hn&Hch&Hms'&Hval&_)%rep_inv.
  pose proof Hwf' as (_&_&_&Hlen&_)%wfS_inv.
  exists n. split_and!; [done|congruence| |].
  - rewrite Hch, length_fmap. lia.
  - intros Hr. destruct Hne as [[<- _]|Hne]; [done|by subst v].
Qed.

Lemma node_layout_witness :
  built sample ∧
  ∀ t r, trees sample !! t = Some (mkBtree (Some r)) →
    ∃ nr, nodes sample !! r = Some nr ∧ capacity_ok (maxSize nr) ∧
      ∀ a, a ∈ nodes_of sample t →
        ∃ n, nodes sample !! a = Some n ∧ maxSize n = maxSize nr ∧
             length (children n) = maxSize n + 1 ∧ (a ≠ r → val n ≠ []).
Proof.
  split; [exact built_sample|exact (node_layout sample built_sample)].
Defined.

(** X3. The search-tree order: in every store built through the interface
    the buffer of a node is strictly increasing, and whatever is stored at
    or below its child in slot [i] lies strictly between entry [i - 1] and
    entry [i] of the buffer. *)
Theorem search_order s :
  built s →
  ∀ t a n, a ∈ nodes_of s t → nodes s !! a = Some n →
    StronglySorted Z.lt (val n) ∧
    ∀ i c d nd x,
      children n !! i = Some (Some c) → d ∈ reach (fuel_of s) s c →
      nodes s !! d = Some nd → x ∈ val nd →
      (∀ y, val n !! i = Some y → (x < y)%Z) ∧
      (∀ j y, i = S j → val n !! j = Some y → (y < x)%Z).
Proof.
  intros [sh Hm]%built_Inv t a n Ha Hn.
  destruct (sh t) as [[cap T]|] eqn:Hsh;
    [|rewrite (nodes_of_dead _ _ _ Hm Hsh) in Ha; by apply elem_of_nil in Ha].
  rewrite (nodes_of_spec _ _ _ _ _ Hm Hsh) in Ha.
  destruct (models_live _ _ _ _ _ Hm Hsh) as (_ & Hcap & Hrep & Hwf & Hnd).
  destruct (subtree_at _ _ _ _ _ _ _ a Hrep Hwf Hnd Ha)
    as (par' & lo' & hi' & v & cs & Hrep' & Hwf' & Hnd' & _ & _ & _).
  pose proof Hrep' as (n'&Hn'&Hch&_&Hval&_&Hcs)%rep_inv.
  assert (n' = n) as -> by congruence.
  pose proof Hwf' as (Hs&_&_&_&_&Hkids)%wfS_inv.
  pose proof Hnd' as [Hndk _]%NoDup_addrs_node.
  rewrite Hval. split; [done|]. intros i c d nd x Hi Hd Hnd0 Hx.
  rewrite Hch, list_lookup_fmap in Hi.
  destruct (cs !! i) as [[C|]|] eqn:HC; cbn in Hi; [|done..]. injection Hi as <-.
  destruct (Hndk _ _ HC) as [_ HndC].
  rewrite (reach_spec _ _ _ _ _ _ (Hcs _ _ HC)) in Hd
    by (pose proof (height_lt_fuel _ _ _ _ _ (Hcs _ _ HC) HndC); lia).
  pose proof (val_in_elems _ _ _ _ _ _ _ _ _ _ (Hcs _ _ HC) (Hkids _ _ HC)
                HndC Hd Hnd0 Hx) as Hel.
  destruct (wfS_sorted _ _ _ _ (Hkids _ _ HC)) as [_ Hw].
  rewrite Forall_forall in Hw. destruct (Hw _ Hel) as [Hlo Hhi]. split.
  - intros y Hy. unfold upper in Hhi. by rewrite Hy in Hhi.
  - intros j y -> Hy. cbn [lower] in Hlo. by rewrite Hy in Hlo.
Qed.

Lemma search_order_witness :
  built sample ∧
  ∀ t a n, a ∈ nodes_of sample t → nodes sample !! a = Some n →
    StronglySorted Z.lt (val n) ∧
    ∀ i c d nd x,
      children n !! i = Some (Some c) → d ∈ reach (fuel_of sample) sample c →
      nodes sample !! d = Some nd → x ∈ val nd →
      (∀ y, val n !! i = Some y → (x < y)%Z) ∧
      (∀ j y, i = S j → val n !! j = Some y → (y < x)%Z).
Proof.
  split; [exact built_sample|exact (search_order sample built_sample)].
Defined.

(** ** The positions of a tree *)

Lemma positions_NoDup Q ns cap par lo hi T :
  rep Q ns cap par T → wfS cap lo hi T → NoDup (positions T).
Proof.
  intros Hrep Hwf. unfold positions. apply NoDup_fmap_2_strong.
  - intros [p x] [q y] Hp Hq Heq. cbn in Heq. subst q. f_equal.
    destruct (rep_items _ _ _ _ _ _ _ Hrep Hp) as (_ & n & Hn & Hx).
    destruct (rep_items _ _ _ _ _ _ _ Hrep Hq) as (_ & n' & Hn' & Hy).
    congruence.
  - apply (NoDup_fmap_1 snd). by eapply items_elems_NoDup.
Qed.

Lemma stations_length R : length (positions R ++ [end_pos R]) = S (length (elems R)).
Proof.
  rewrite length_app. unfold positions, elems. rewrite !length_fmap. simpl. lia.
Qed.

(** Where the positions of a graph lie: at an element of the buffer of one
    of its nodes, or, for [end()], one past the last element. *)
Lemma item_in_buffer {k} Q ns cap par T p x :
  rep Q ns cap par T → (p, x) ∈ items T →
  vec p ∈ addrs T ∧
  ∃ n, ns !! vec p = Some n ∧ idx p < length (val n) ∧
       @of_vi k p = mkPos (vec p) (val_it n (vec p) (idx p)).
Proof.
  intros Hrep Hin.
  destruct (rep_items _ _ _ _ _ _ _ Hrep Hin) as (Ha & n & Hn & Hx).
  split; [done|]. exists n. split_and!; [done|by eapply lookup_lt_Some|].
  rewrite val_it_nonempty; [by destruct p|]. intros Heq. by rewrite Heq in Hx.
Qed.

Lemma station_in_buffer {k} Q ns cap par lo hi T i p :
  1 ≤ cap → rep Q ns cap par T → wfS cap lo hi T →
  (positions T ++ [end_pos T]) !! i = Some p →
  vec p ∈ addrs T ∧
  ∃ n, ns !! vec p = Some n ∧ idx p ≤ length (val n) ∧
       @place k T p = mkPos (vec p) (val_it n (vec p) (idx p)).
Proof.
  intros Hcap Hrep Hwf Hp.
  destruct (decide (i < length (positions T))) as [Hi|Hi].
  - rewrite lookup_app_l in Hp by done.
    pose proof (position_nonempty _ _ _ _ _ _ Hcap Hwf Hp) as Hne.
    unfold positions in Hp. rewrite list_lookup_fmap in Hp.
    destruct (items T !! i) as [[q x]|] eqn:Hit; simplify_eq/=.
    apply list_elem_of_lookup_2 in Hit.
    destruct (item_in_buffer (k:=k) _ _ _ _ _ _ _ Hrep Hit)
      as (Ha & n & Hn & Hlt & Heq).
    split; [done|]. exists n. split_and!; [done|lia|].
    by rewrite place_nonempty.
  - assert (i = length (positions T)) as ->.
    { apply lookup_lt_Some in Hp. rewrite length_app in Hp. simpl in Hp. lia. }
    rewrite list_lookup_middle in Hp by done. injection Hp as <-.
    destruct (end_pos_spec _ _ _ _ _ _ _ Hrep Hwf) as (Hin & n & Hn & Hidx).
    split; [done|]. exists n. split_and!; [done|lia|].
    destruct (decide (sval T = [])) as [Hemp|Hne].
    + rewrite (place_empty _ _ Hemp), val_it_empty; [done|].
      destruct T as [a v cs]. cbn [sval] in Hemp. subst v.
      unfold end_pos, positions in Hn.
      rewrite (empty_root_items _ _ _ _ _ Hcap Hwf) in Hn. cbn in Hn.
      apply rep_inv in Hrep as (n' & Hn' & _ & _ & Hval & _). congruence.
    + rewrite (place_nonempty _ _ Hne).
      pose proof (positions_nonempty _ _ _ _ Hwf Hne) as Hpos.
      destruct (last (positions T)) as [q|] eqn:Hq; [|by apply last_None in Hq].
      pose proof Hq as [Hq' _]%last_positions.
      apply last_Some_elem_of in Hq. unfold positions in Hq.
      apply list_elem_of_fmap in Hq as ([q0 x] & Hq0 & Hit). cbn in Hq0. subst q0.
      destruct (item_cell _ _ _ _ _ _ _ Hrep Hit) as (n' & Hn' & Hv).
      rewrite Hq' in Hn'. cbn [vec] in Hn'.
      assert (n' = n) as -> by congruence.
      rewrite val_it_nonempty by done. by destruct (end_pos T).
Qed.

(** A position inside a buffer has its iterator in the buffer of its own
    node. *)
Lemma in_buffer_own {k} s t (p : position k) : in_buffer s t p → own_buffer p.
Proof.
  intros (_ & n & i & _ & _ & Hp) c Hc. rewrite Hp in Hc. unfold val_it in Hc.
  destruct (val n); [done|]. by injection Hc as <-.
Qed.

Section tree_positions.
Context (k : access) (s : Store) (t cap : nat) (R : Shape).
Context (Hcap : 1 ≤ cap).
Context (Htree : trees s !! t = Some (mkBtree (Some (saddr R)))).
Context (Hrep : rep (linked t) (nodes s) cap None R).
Context (Hwf : wfS cap None None R).
Context (Hnd : NoDup (addrs R)).

Lemma stations_NoDup : NoDup (positions R ++ [end_pos R]).
Proof.
  apply NoDup_app. split_and!.
  - by eapply positions_NoDup.
  - intros p Hp Heq%list_elem_of_singleton. unfold positions in Hp.
    apply list_elem_of_fmap in Hp as ([q x] & Hq & Hin). cbn in Hq. subst.
    by eapply (item_not_end s t cap R Hcap Hrep Hwf).
  - apply NoDup_singleton.
Qed.

(** The position reached after [i] steps from [begin()]. *)
Lemma nth_station i p :
  (positions R ++ [end_pos R]) !! i = Some p →
  (b ← begin_ k s t; iter_n k (incr k) i s b) = Ok (place R p).
Proof.
  intros Hp. rewrite (begin_spec k s t cap R) by done. cbn [mbind Result_bind].
  apply (iter_incr_from k s t cap R Hcap Htree Hrep Hwf Hnd i 0); [|done].
  by apply (begin_pos_first s t cap R).
Qed.

Lemma station_item i x :
  elems R !! i = Some x →
  ∃ p, (positions R ++ [end_pos R]) !! i = Some p ∧ (p, x) ∈ items R.
Proof.
  intros Hx. unfold elems in Hx. rewrite list_lookup_fmap in Hx.
  destruct (items R !! i) as [[p y]|] eqn:Hi; simplify_eq/=.
  exists p. split.
  - apply lookup_app_l_Some. unfold positions. by rewrite list_lookup_fmap, Hi.
  - by eapply list_elem_of_lookup_2.
Qed.

Lemma begin_stays x :
  head (elems R) = Some x →
  decr k s (of_vi (begin_pos R)) = Ok (of_vi (begin_pos R)).
Proof.
  intros Hx. rewrite head_lookup in Hx.
  destruct (station_item 0 x Hx) as (p & Hp & Hin).
  rewrite (begin_pos_first s t cap R) in Hp by done. injection Hp as <-.
  destruct (begin_pos_spec _ _ _ _ _ _ _ Hrep Hwf) as (Hin' & Hidx & n & Hn & Hc0).
  destruct (rep_linked_lookup _ _ _ _ _ _ Hrep Hin') as (n' & Hn' & Hroot).
  assert (n' = n) as -> by congruence.
  destruct (item_cell _ _ _ _ _ _ _ Hrep Hin) as (n2 & Hn2 & Hv).
  assert (n2 = n) as -> by congruence.
  assert (sval R ≠ []) as Hne.
  { intros Hemp.
    destruct (empty_tree_pos s t cap R Hcap Htree Hrep Hwf Hnd Hemp) as (Hnil & _).
    unfold positions in Hnil. apply fmap_nil_inv in Hnil. rewrite Hnil in Hin.
    by apply elem_of_nil in Hin. }
  unfold decr. rewrite (item_deref k s t cap R Hrep _ _ Hin).
  cbn [mbind Result_bind]. unfold node_at, offset_in, child_at.
  cbn [of_vi ptr pos opt mbind Result_bind]. rewrite Hn.
  cbn [opt mbind Result_bind].
  destruct (decide (vec (begin_pos R) = vec (begin_pos R))) as [_|]; [|done].
  cbn [mbind Result_bind]. rewrite Hidx, Hc0. cbn [opt mbind Result_bind].
  rewrite (val_it_nonempty n) by done.
  destruct (decide (Some (begin_pos R) = Some (mkVI (vec (begin_pos R)) 0)))
    as [_|Hne'].
  2:{ destruct Hne'. destruct (begin_pos R). cbn in *. by subst. }
  unfold fuel_of. cbn [climb_down ptr of_vi]. unfold node_at. rewrite Hn.
  cbn [opt mbind Result_bind].
  rewrite Hroot, (begin_spec_ne k s t cap R) by done.
  cbn [mbind Result_bind]. unfold it_neq, it_eq.
  by rewrite bool_decide_eq_true_2.
Qed.
End tree_positions.

(** A live tree of a store that satisfies the invariant, opened. *)
Ltac open_tree Hb Htr :=
  let sh := fresh "sh" in let Hm := fresh "Hm" in
  let cap := fresh "cap" in let T := fresh "T" in let Hsh := fresh "Hsh" in
  destruct (built_Inv _ Hb) as [sh Hm];
  destruct (models_observe _ _ _ _ _ Hm Htr) as (cap & T & Hsh & ->);
  destruct (models_live _ _ _ _ _ Hm Hsh) as (?Htree & ?Hcap & ?Hrep & ?Hwf & ?Hnd).

(** ** Positions handed out by the interface *)

(** X4. Every position the interface hands out lies inside the buffer of its
    own node: it names a node of the tree, and its iterator is that node's
    [val.begin() + i] with [i] at most [val.size()] (the null iterator when
    the node holds no element).  This holds of the positions reached from
    [begin()] by stepping forward up to and including [end()], of the one
    an insertion returns, and of the one a [find] returns. *)
Theorem positions_in_buffer k s t l :
  built s → traversal k s t = Ok l →
  (∀ i, i ≤ length l →
     ∃ p, (b ← begin_ k s t; iter_n k (incr k) i s b) = Ok p ∧
          in_buffer s t p) ∧
  (∃ e, end_ k s t = Ok e ∧ in_buffer s t e) ∧
  (∀ x, ∃ s' it b, insert s t x = Ok (s', (it, b)) ∧ in_buffer s' t it) ∧
  (∀ x it, find s t x = Ok it → in_buffer s t it) ∧
  (∀ x it, cfind s t x = Ok it → in_buffer s t it).
Proof.
  intros Hb Htr. open_tree Hb Htr.
  pose proof (nodes_of_spec _ _ _ _ _ Hm Hsh) as Hnodes.
  assert (∀ k' i p, (positions T ++ [end_pos T]) !! i = Some p →
            in_buffer s t (@place k' T p)) as Hstation.
  { intros k' i p Hp.
    destruct (station_in_buffer (k:=k') _ _ _ _ _ _ _ _ _ Hcap Hrep Hwf Hp)
      as (Ha & n & Hn & Hle & Heq).
    rewrite Heq. split; cbn [ptr pos]; [by rewrite Hnodes|]. by exists n, (idx p). }
  assert ((positions T ++ [end_pos T]) !! length (elems T) = Some (end_pos T))
    as Hlast.
  { apply list_lookup_middle. unfold positions, elems. by rewrite !length_fmap. }
  assert (∀ k', end_ k' s t = Ok (place T (end_pos T))) as Hend.
  { intros k'. by eapply end_spec. }
  assert (height T < fuel_of s) as Hfuel by by eapply height_lt_fuel.
  assert (∀ k' x (it : position k'),
            (∃ q, it = of_vi q ∧ (q, x) ∈ items T) ∨
            ((x ∉ elems T) ∧ it = place T (end_pos T)) →
            in_buffer s t it) as Hfound.
  { intros k' x it [(q & -> & Hq)|[_ ->]]; [|by eapply Hstation].
    destruct (item_in_buffer (k:=k') _ _ _ _ _ _ _ Hrep Hq)
      as (Ha & n & Hn & Hlt & Heq).
    rewrite Heq. split; cbn [ptr pos]; [by rewrite Hnodes|].
    exists n, (idx q). split_and!; [done|lia|done]. }
  split_and!.
  - intros i Hi.
    destruct (lookup_lt_is_Some_2 (positions T ++ [end_pos T]) i) as [p Hp].
    { rewrite (stations_length T). lia. }
    exists (place T p). split; [|by eapply Hstation].
    by apply (nth_station k s t cap T Hcap Htree Hrep Hwf Hnd).
  - exists (place T (end_pos T)). split; [apply Hend|by eapply Hstation].
  - intros x.
    destruct (insert_models s sh t cap T x Hm Hsh)
      as (s' & T' & it & b & Heq & Hi & Hm').
    exists s', it, b. split; [done|].
    destruct (ins_item _ _ _ _ _ _ _ _ _ _ _ _ Hi) as (q & -> & Hq).
    destruct (item_in_buffer (k:=Mutable) _ _ _ _ _ _ _
                (ins_rep _ _ _ _ _ _ _ _ _ _ _ _ Hi) Hq)
      as (Ha & n & Hn & Hlt & Heq').
    rewrite Heq'. split; cbn [ptr pos].
    + by rewrite (nodes_of_spec _ _ _ _ _ Hm' (fn_lookup_insert _ _ _)).
    + exists n, (idx q). split_and!; [done|lia|done].
  - intros x it Hit. unfold find, tree_at in Hit. rewrite Htree in Hit.
    cbn [opt mbind Result_bind rootNode] in Hit.
    destruct (nodeFind_spec Mutable s t cap _ T (fuel_of s) None None None x
                (Hend _) Hrep Hwf Hfuel) as [_ Hr].
    eapply Hfound, Hr, Hit.
  - intros x it Hit. unfold cfind, tree_at in Hit. rewrite Htree in Hit.
    cbn [opt mbind Result_bind rootNode] in Hit.
    destruct (nodeFind_spec ReadOnly s t cap _ T (fuel_of s) None None None x
                (Hend _) Hrep Hwf Hfuel) as [_ Hr].
    eapply Hfound, Hr, Hit.
Qed.

Lemma positions_in_buffer_witness :
  built sample ∧
  traversal Mutable sample 0 = Ok [1; 2; 3; 4; 5; 6; 7; 8]%Z ∧
  (∀ i, i ≤ 8 →
     ∃ p, (b ← begin_ Mutable sample 0;
           iter_n Mutable (incr Mutable) i sample b) = Ok p ∧
          in_buffer sample 0 p) ∧
  (∃ e, end_ Mutable sample 0 = Ok e ∧ in_buffer sample 0 e) ∧
  (∀ x, ∃ s' it b, insert sample 0 x = Ok (s', (it, b)) ∧ in_buffer s' 0 it) ∧
  (∀ x it, find sample 0 x = Ok it → in_buffer sample 0 it) ∧
  (∀ x it, cfind sample 0 x = Ok it → in_buffer sample 0 it).
Proof.
  split; [exact built_sample|]. split; [vm_compute; reflexivity|].
  apply (positions_in_buffer Mutable sample 0 [1; 2; 3; 4; 5; 6; 7; 8]%Z
           built_sample).
  vm_compute. reflexivity.
Defined.


(** X5. Two positions reached from [begin()] in at most as many steps as
    the tree has elements compare equal exactly when the numbers of steps
    are equal: [==] tells the elements, and [end()], apart. *)
Theorem equality_separates k s t l :
  built s → traversal k s t = Ok l →
  ∀ i j, i ≤ length l → j ≤ length l →
    ∃ p q, (b ← begin_ k s t; iter_n k (incr k) i s b) = Ok p ∧
           (b ← begin_ k s t; iter_n k (incr k) j s b) = Ok q ∧
           (it_eq p q = true ↔ i = j) ∧ (it_neq p q = true ↔ i ≠ j).
Proof.
  intros Hb Htr. open_tree Hb Htr. intros i j Hi Hj.
  pose proof (stations_length T) as Hlen.
  destruct (lookup_lt_is_Some_2 (positions T ++ [end_pos T]) i) as [p Hp]; [lia|].
  destruct (lookup_lt_is_Some_2 (positions T ++ [end_pos T]) j) as [q Hq]; [lia|].
  exists (place T p), (place T q).
  pose proof (stations_NoDup s t cap T Hcap Hrep Hwf) as Hnodup.
  assert (p = q ↔ i = j) as Hiff.
  { split; [|intros <-; congruence].
    intros <-. by eapply NoDup_lookup. }
  assert (pos (@place k T p) = pos (@place k T q) ↔ p = q) as Hpos.
  { apply place_eq. intros Hemp.
    destruct (empty_tree_pos s t cap T Hcap Htree Hrep Hwf Hnd Hemp) as (Hnil & _).
    rewrite Hnil in Hp, Hq. destruct i, j; by simplify_eq/=. }
  split_and!.
  - by apply (nth_station k s t cap T Hcap Htree Hrep Hwf Hnd).
  - by apply (nth_station k s t cap T Hcap Htree Hrep Hwf Hnd).
  - unfold it_eq. by rewrite bool_decide_eq_true, Hpos.
  - unfold it_neq, it_eq.
    rewrite negb_true_iff, bool_decide_eq_false. by rewrite Hpos, Hiff.
Qed.

Lemma equality_separates_witness :
  built sample ∧
  traversal Mutable sample 0 = Ok [1; 2; 3; 4; 5; 6; 7; 8]%Z ∧
  ∀ i j, i ≤ 8 → j ≤ 8 →
    ∃ p q, (b ← begin_ Mutable sample 0;
            iter_n Mutable (incr Mutable) i sample b) = Ok p ∧
           (b ← begin_ Mutable sample 0;
            iter_n Mutable (incr Mutable) j sample b) = Ok q ∧
           (it_eq p q = true ↔ i = j) ∧ (it_neq p q = true ↔ i ≠ j).
Proof.
  split; [exact built_sample|]. split; [vm_compute; reflexivity|].
  apply (equality_separates Mutable sample 0 [1; 2; 3; 4; 5; 6; 7; 8]%Z
           built_sample).
  vm_compute. reflexivity.
Defined.

(** X24. Positions of two different tree objects: [==] between a position
    of one and a position of the other, of whichever variants, each reached
    from its [begin()] by stepping forward up to [end()], holds exactly
    when both trees are empty, although the two positions never name the
    same node. *)
Theorem equality_across_trees k1 k2 s t u l m :
  built s → t ≠ u → traversal k1 s t = Ok l → traversal k2 s u = Ok m →
  ∀ i j, i ≤ length l → j ≤ length m →
    ∃ p q, (b ← begin_ k1 s t; iter_n k1 (incr k1) i s b) = Ok p ∧
           (b ← begin_ k2 s u; iter_n k2 (incr k2) j s b) = Ok q ∧
           ptr p ≠ ptr q ∧
           (it_eq p q = true ↔ l = [] ∧ m = []) ∧
           it_neq p q = negb (it_eq p q).
Proof.
  intros [sh Hm]%built_Inv Hne Htr1 Htr2 i j Hi Hj.
  destruct (models_observe _ _ _ _ _ Hm Htr1) as (cap & T & Hsh & ->).
  destruct (models_observe _ _ _ _ _ Hm Htr2) as (cap' & U & Hsh' & ->).
  destruct (models_live _ _ _ _ _ Hm Hsh) as (Htree & Hcap & Hrep & Hwf & Hnd).
  destruct (models_live _ _ _ _ _ Hm Hsh')
    as (Htree' & Hcap' & Hrep' & Hwf' & Hnd').
  destruct (lookup_lt_is_Some_2 (positions T ++ [end_pos T]) i) as [p Hp].
  { rewrite (stations_length T). lia. }
  destruct (lookup_lt_is_Some_2 (positions U ++ [end_pos U]) j) as [q Hq].
  { rewrite (stations_length U). lia. }
  destruct (station_in_buffer (k:=k1) _ _ _ _ _ _ _ _ _ Hcap Hrep Hwf Hp)
    as (Hpa & _).
  destruct (station_in_buffer (k:=k2) _ _ _ _ _ _ _ _ _ Hcap' Hrep' Hwf' Hq)
    as (Hqa & _).
  assert (vec p ≠ vec q) as Hvec.
  { intros Heq. apply Hne. destruct Hm as (_ & _ & _ & Hdisj).
    apply (Hdisj t u (vec p)); [by rewrite Hsh|by rewrite Hsh', Heq]. }
  exists (place T p), (place U q). split_and!.
  - by apply (nth_station k1 s t cap T Hcap Htree Hrep Hwf Hnd).
  - by apply (nth_station k2 s u cap' U Hcap' Htree' Hrep' Hwf' Hnd').
  - by rewrite !place_ptr.
  - unfold it_eq. rewrite bool_decide_eq_true.
    rewrite <-(empty_iff _ _ _ _ Hcap Hwf), <-(empty_iff _ _ _ _ Hcap' Hwf').
    unfold place, of_vi. destruct (sval T), (sval U); cbn [pos]; split;
      try done; try (by intros [? ?]).
    intros [= Heq]. by rewrite Heq in Hvec.
  - done.
Qed.

Lemma equality_across_trees_witness :
  built pair ∧ 0 ≠ 1 ∧
  traversal Mutable pair 0 = Ok [1; 2; 3; 4; 5; 6; 7; 8]%Z ∧
  traversal ReadOnly pair 1 = Ok [] ∧
  ∀ i j, i ≤ 8 → j ≤ 0 →
    ∃ (p : btree_iterator) (q : const_btree_iterator),
      (b ← begin pair 0; iter_n Mutable (incr Mutable) i pair b) = Ok p ∧
      (b ← cbegin pair 1; iter_n ReadOnly (incr ReadOnly) j pair b) = Ok q ∧
      ptr p ≠ ptr q ∧
      (it_eq p q = true ↔ [1; 2; 3; 4; 5; 6; 7; 8]%Z = [] ∧ @nil Z = []) ∧
      it_neq p q = negb (it_eq p q).
Proof.
  split; [exact built_pair|]. split; [discriminate|].
  split; [vm_compute; reflexivity|]. split; [vm_compute; reflexivity|].
  apply (equality_across_trees Mutable ReadOnly pair 0 1
           [1; 2; 3; 4; 5; 6; 7; 8]%Z [] built_pair).
  - discriminate.
  - vm_compute. reflexivity.
  - vm_compute. reflexivity.
Defined.

(** X7. [end()] denotes no element: dereferencing it faults, and so does
    stepping forward from it. *)
Theorem end_is_past k s t l :
  built s → traversal k s t = Ok l →
  ∃ e, end_ k s t = Ok e ∧ deref k s e = Fault ∧ incr k s e = Fault.
Proof.
  intros Hb Htr. open_tree Hb Htr.
  exists (place T (end_pos T)). split; [by eapply end_spec|].
  destruct (end_pos_spec _ _ _ _ _ _ _ Hrep Hwf) as (_ & n & Hn & Hidx).
  assert (deref k s (place T (end_pos T)) = Fault) as Hd.
  { unfold deref, node_at, place, of_vi. destruct (sval T); [done|].
    cbn [pos opt mbind Result_bind]. rewrite Hn.
    cbn [opt mbind Result_bind]. rewrite Hidx.
    by rewrite (lookup_ge_None_2 (val n) (length (val n))) by lia. }
  split; [done|]. unfold incr. by rewrite Hd.
Qed.

Lemma end_is_past_witness :
  built sample ∧
  traversal Mutable sample 0 = Ok [1; 2; 3; 4; 5; 6; 7; 8]%Z ∧
  ∃ e, end_ Mutable sample 0 = Ok e ∧ deref Mutable sample e = Fault ∧
       incr Mutable sample e = Fault.
Proof.
  split; [exact built_sample|]. split; [vm_compute; reflexivity|].
  apply (end_is_past Mutable sample 0 [1; 2; 3; 4; 5; 6; 7; 8]%Z built_sample).
  vm_compute. reflexivity.
Defined.

(** X8. Stepping backward from [begin()] of a tree that holds an element
    stays at [begin()]; on a tree that holds none it faults. *)
Theorem begin_is_floor k s t l :
  built s → traversal k s t = Ok l →
  ∃ b, begin_ k s t = Ok b ∧
       decr k s b = match l with [] => Fault | _ :: _ => Ok b end.
Proof.
  intros Hb Htr. open_tree Hb Htr.
  exists (place T (begin_pos T)).
  split; [apply (begin_spec k s t cap T Hcap Htree Hrep Hwf Hnd)|].
  destruct (elems T) as [|x l] eqn:Hel.
  - assert (sval T = []) as Hemp.
    { destruct (decide (sval T = [])) as [|Hne]; [done|].
      pose proof (items_nonempty _ _ _ _ Hwf Hne) as Hi.
      unfold elems in Hel. by apply fmap_nil_inv in Hel. }
    by rewrite (place_empty _ _ Hemp).
  - assert (sval T ≠ []) as Hne.
    { intros Hemp.
      destruct (empty_tree_pos s t cap T Hcap Htree Hrep Hwf Hnd Hemp) as (Hnil & _).
      unfold positions in Hnil. apply fmap_nil_inv in Hnil.
      unfold elems in Hel. by rewrite Hnil in Hel. }
    rewrite (place_nonempty _ _ Hne).
    apply (begin_stays k s t cap T Hcap Htree Hrep Hwf Hnd x). by rewrite Hel.
Qed.

Lemma begin_is_floor_witness :
  built sample ∧
  traversal Mutable sample 0 = Ok [1; 2; 3; 4; 5; 6; 7; 8]%Z ∧
  ∃ b, begin_ Mutable sample 0 = Ok b ∧ decr Mutable sample b = Ok b.
Proof.
  split; [exact built_sample|]. split; [vm_compute; reflexivity|].
  apply (begin_is_floor Mutable sample 0 [1; 2; 3; 4; 5; 6; 7; 8]%Z built_sample).
  vm_compute. reflexivity.
Defined.

(** ** Every tree in use can be traversed *)

(** X9. A tree object of a store built through the interface that holds a
    graph (it was not moved from) can be traversed: [begin()] and [end()]
    return, the loop from one to the other neither faults nor fails to
    terminate, it takes one [++] per element, and every position before the
    last step differs from [end()] and dereferences to an element. *)
Theorem traversal_total k s t r :
  built s → trees s !! t = Some (mkBtree (Some r)) →
  ∃ l b e,
    traversal k s t = Ok l ∧ begin_ k s t = Ok b ∧ end_ k s t = Ok e ∧
    iter_n k (incr k) (length l) s b = Ok e ∧
    ∀ i, i < length l →
      ∃ p x, iter_n k (incr k) i s b = Ok p ∧ it_neq p e = true ∧
             l !! i = Some x ∧ deref k s p = Ok x.
Proof.
  intros [sh Hm]%built_Inv Ht.
  destruct (models_lookup _ _ _ _ Hm Ht) as (cap & T & Hsh & <-).
  destruct (models_live _ _ _ _ _ Hm Hsh) as (Htree & Hcap & Hrep & Hwf & Hnd).
  exists (elems T), (place T (begin_pos T)), (place T (end_pos T)).
  split_and!.
  - by eapply models_traversal.
  - by eapply begin_spec.
  - by eapply end_spec.
  - by eapply forward_reaches_end.
  - intros i Hi. destruct (lookup_lt_is_Some_2 (elems T) i) as [x Hx]; [done|].
    destruct (station_item T i x Hx) as (p & Hp & Hin).
    assert (sval T ≠ []) as Hne.
    { intros Hemp.
      destruct (empty_tree_pos s t cap T Hcap Htree Hrep Hwf Hnd Hemp)
        as (Hnil & _).
      unfold positions in Hnil. apply fmap_nil_inv in Hnil. rewrite Hnil in Hin.
      by apply elem_of_nil in Hin. }
    exists (place T p), x. split_and!; [| |done|].
    + eapply (iter_incr_from k s t cap T Hcap Htree Hrep Hwf Hnd i 0); [|done].
      by apply (begin_pos_first s t cap T).
    + unfold it_neq, it_eq. rewrite negb_true_iff, bool_decide_eq_false.
      rewrite place_eq by done.
      by eapply (item_not_end s t cap T Hcap Hrep Hwf).
    + rewrite (place_nonempty _ _ Hne). by eapply item_deref.
Qed.

Lemma traversal_total_witness :
  built sample ∧ trees sample !! 0 = Some (mkBtree (Some 0)) ∧
  ∃ l b e,
    traversal Mutable sample 0 = Ok l ∧ begin_ Mutable sample 0 = Ok b ∧
    end_ Mutable sample 0 = Ok e ∧
    iter_n Mutable (incr Mutable) (length l) sample b = Ok e ∧
    ∀ i, i < length l →
      ∃ p x, iter_n Mutable (incr Mutable) i sample b = Ok p ∧
             it_neq p e = true ∧ l !! i = Some x ∧ deref Mutable sample p = Ok x.
Proof.
  split; [exact built_sample|]. split; [reflexivity|].
  apply (traversal_total Mutable sample 0 0 built_sample). reflexivity.
Defined.

(** ** Stepping, [find] and the dump at the example tree *)

Lemma backward_from_last_witness :
  built sample ∧
  traversal Mutable sample 0 = Ok [1; 2; 3; 4; 5; 6; 7; 8]%Z ∧
  [1; 2; 3; 4; 5; 6; 7; 8]%Z ≠ [] ∧
  ∃ b p, begin_ Mutable sample 0 = Ok b ∧
         iter_n Mutable (incr Mutable) 7 sample b = Ok p ∧
         iter_n Mutable (decr Mutable) 7 sample p = Ok b.
Proof.
  split; [exact built_sample|]. split; [vm_compute; reflexivity|].
  split; [discriminate|].
  apply (backward_from_last Mutable sample 0 [1; 2; 3; 4; 5; 6; 7; 8]%Z
           built_sample); [vm_compute; reflexivity|discriminate].
Defined.

Lemma forward_then_backward_witness :
  built sample ∧
  traversal Mutable sample 0 = Ok [1; 2; 3; 4; 5; 6; 7; 8]%Z ∧
  4 < 8 ∧
  ∃ b p q, begin_ Mutable sample 0 = Ok b ∧
           iter_n Mutable (incr Mutable) 3 sample b = Ok p ∧
           incr Mutable sample p = Ok q ∧ decr Mutable sample q = Ok p.
Proof.
  split; [exact built_sample|]. split; [vm_compute; reflexivity|].
  split; [lia|].
  apply (forward_then_backward Mutable sample 0 [1; 2; 3; 4; 5; 6; 7; 8]%Z 3
           built_sample); [vm_compute; reflexivity|simpl; lia].
Defined.

Lemma find_sound_witness :
  built sample ∧
  traversal Mutable sample 0 = Ok [1; 2; 3; 4; 5; 6; 7; 8]%Z ∧
  find sample 0 4 ≠ OutOfFuel ∧ cfind sample 0 4 ≠ OutOfFuel ∧
  (∀ it, find sample 0 4 = Ok it →
     (4%Z ∈ [1; 2; 3; 4; 5; 6; 7; 8]%Z ∧ deref Mutable sample it = Ok 4%Z) ∨
     ((4%Z ∉ [1; 2; 3; 4; 5; 6; 7; 8]%Z) ∧ end_ Mutable sample 0 = Ok it)) ∧
  (∀ it, cfind sample 0 4 = Ok it →
     (4%Z ∈ [1; 2; 3; 4; 5; 6; 7; 8]%Z ∧ deref ReadOnly sample it = Ok 4%Z) ∨
     ((4%Z ∉ [1; 2; 3; 4; 5; 6; 7; 8]%Z) ∧ cend sample 0 = Ok it)).
Proof.
  split; [exact built_sample|]. split; [vm_compute; reflexivity|].
  apply (find_sound sample 0 [1; 2; 3; 4; 5; 6; 7; 8]%Z 4 built_sample).
  vm_compute. reflexivity.
Defined.

Lemma find_above_faults_witness :
  built sample ∧
  traversal Mutable sample 0 = Ok [1; 2; 3; 4; 5; 6; 7; 8]%Z ∧
  (∀ x, x ∈ [1; 2; 3; 4; 5; 6; 7; 8]%Z → (x < 9)%Z) ∧
  find sample 0 9 = Fault ∧ cfind sample 0 9 = Fault.
Proof.
  assert (∀ x, x ∈ [1; 2; 3; 4; 5; 6; 7; 8]%Z → (x < 9)%Z) as H.
  { intros x Hx. repeat (apply elem_of_cons in Hx as [->|Hx]; [lia|]).
    by apply elem_of_nil in Hx. }
  split; [exact built_sample|]. split; [vm_compute; reflexivity|].
  split; [exact H|].
  apply (find_above_faults Mutable sample 0 [1; 2; 3; 4; 5; 6; 7; 8]%Z 9
           built_sample); [vm_compute; reflexivity|exact H].
Defined.

Lemma dump_spec_witness :
  traversal ReadOnly sample 0 = Ok [1; 2; 3; 4; 5; 6; 7; 8]%Z ∧
  dump sample 0 = Ok (pretty 1%Z +:+ render [1; 2; 3; 4; 5; 6; 7; 8]%Z).
Proof.
  split; [vm_compute; reflexivity|].
  apply (dump_spec sample 0 [1; 2; 3; 4; 5; 6; 7; 8]%Z).
  vm_compute. reflexivity.
Defined.

(** ** Moved-from trees and the other trees of the store *)


(** A tree object without a graph: every member function that goes through
    [rootNode->] faults. *)
Lemma dead_tree_faults k s sh t :
  models s sh → sh t = None →
  traversal k s t = Fault ∧ begin_ k s t = Fault ∧ end_ k s t = Fault ∧
  (∀ x, insert s t x = Fault) ∧ (∀ x, find s t x = Fault) ∧
  (∀ x, cfind s t x = Fault) ∧ move_construct s t = Fault.
Proof.
  intros (Hok & _) Hsh.
  unfold traversal, begin_, end_, insert, find, cfind, move_construct, tree_at.
  destruct (trees s !! t) as [b|] eqn:Hb.
  2:{ cbn. split_and!. all: try done. }
  specialize (Hok t b Hb). rewrite Hsh in Hok. cbn in Hok.
  destruct b as [r]. cbn in Hok. subst r. cbn [opt mbind Result_bind rootNode].
  split_and!; try done.
  unfold new_tree, rehome, tree_at. cbn [trees set_tree].
  by rewrite list_lookup_middle by done.
Qed.

Lemma same_view_traversal k s sh s' sh' u :
  models s sh → models s' sh' → sh' u = sh u →
  traversal k s' u = traversal k s u ∧ nodes_of s' u = nodes_of s u.
Proof.
  intros Hm Hm' Heq. destruct (sh u) as [[cap T]|] eqn:Hu.
  - rewrite (models_traversal k _ _ _ _ _ Hm Hu), (models_traversal k _ _ _ _ _ Hm' Heq).
    by rewrite (nodes_of_spec _ _ _ _ _ Hm Hu), (nodes_of_spec _ _ _ _ _ Hm' Heq).
  - destruct (dead_tree_faults k _ _ _ Hm Hu) as (-> & _).
    destruct (dead_tree_faults k _ _ _ Hm' Heq) as (-> & _).
    by rewrite (nodes_of_dead _ _ _ Hm Hu), (nodes_of_dead _ _ _ Hm' Heq).
Qed.

(** X15. The move constructor hands the graph of the source over to the
    new tree object, cell for cell: the new tree traverses as the source
    did, the other trees are as they were, and the source is left without
    a graph, so that traversing it, inserting into it, searching it or
    moving from it again faults. *)
Theorem move_construct_transfers k s t l :
  built s → traversal k s t = Ok l →
  ∃ s', move_construct s t = Ok (s', length (trees s)) ∧
    traversal k s' (length (trees s)) = Ok l ∧
    nodes_of s' (length (trees s)) = nodes_of s t ∧
    traversal k s' t = Fault ∧
    (∀ x, insert s' t x = Fault) ∧ (∀ x, find s' t x = Fault) ∧
    move_construct s' t = Fault ∧
    ∀ u, u ≠ t → u ≠ length (trees s) →
      traversal k s' u = traversal k s u ∧ nodes_of s' u = nodes_of s u.
Proof.
  intros Hb Htr. open_tree Hb Htr.
  destruct (move_construct_models s sh t cap T Hm Hsh) as (s' & Heq & Hm').
  apply lookup_lt_Some in Htree as Hlt.
  exists s'. split; [done|].
  assert (<[length (trees s) := Some (cap, T)]> (<[t := None]> sh) t = None) as Hd.
  { rewrite fn_lookup_insert_ne by lia. apply fn_lookup_insert. }
  destruct (dead_tree_faults k _ _ _ Hm' Hd) as (? & _ & _ & ? & ? & _ & ?).
  split_and!; try done.
  - eapply models_traversal; [done|apply fn_lookup_insert].
  - rewrite (nodes_of_spec _ _ _ _ _ Hm Hsh).
    eapply nodes_of_spec; [done|apply fn_lookup_insert].
  - intros u Hu Hu'. apply (same_view_traversal k _ _ _ _ _ Hm Hm').
    by rewrite !fn_lookup_insert_ne.
Qed.

Lemma move_construct_transfers_witness :
  built sample ∧
  traversal Mutable sample 0 = Ok [1; 2; 3; 4; 5; 6; 7; 8]%Z ∧
  ∃ s', move_construct sample 0 = Ok (s', length (trees sample)) ∧
    traversal Mutable s' (length (trees sample)) = Ok [1; 2; 3; 4; 5; 6; 7; 8]%Z ∧
    nodes_of s' (length (trees sample)) = nodes_of sample 0 ∧
    traversal Mutable s' 0 = Fault ∧
    (∀ x, insert s' 0 x = Fault) ∧ (∀ x, find s' 0 x = Fault) ∧
    move_construct s' 0 = Fault ∧
    ∀ u, u ≠ 0 → u ≠ length (trees sample) →
      traversal Mutable s' u = traversal Mutable sample u ∧
      nodes_of s' u = nodes_of sample u.
Proof.
  split; [exact built_sample|]. split; [vm_compute; reflexivity|].
  apply (move_construct_transfers Mutable sample 0 [1; 2; 3; 4; 5; 6; 7; 8]%Z
           built_sample).
  vm_compute. reflexivity.
Defined.

(** X16. Move assignment hands the graph of the right-hand side over to
    the assigned tree, which then traverses as the right-hand side did; the
    right-hand side is left without a graph (using it faults) and every
    other tree is as it was. *)
Theorem move_assign_transfers k s this rhs l :
  built s → this ≠ rhs → is_Some (trees s !! this) →
  traversal k s rhs = Ok l →
  ∃ s', move_assign s this rhs = Ok s' ∧
    traversal k s' this = Ok l ∧
    nodes_of s' this = nodes_of s rhs ∧
    traversal k s' rhs = Fault ∧
    (∀ x, insert s' rhs x = Fault) ∧ (∀ x, find s' rhs x = Fault) ∧
    ∀ u, u ≠ this → u ≠ rhs →
      traversal k s' u = traversal k s u ∧ nodes_of s' u = nodes_of s u.
Proof.
  intros Hb Hne Hthis Htr. open_tree Hb Htr.
  destruct (move_assign_models s sh this rhs cap T Hm Hsh Hne Hthis)
    as (s' & Heq & Hm').
  exists s'. split; [done|].
  assert (<[this := Some (cap, T)]> (<[rhs := None]> sh) rhs = None) as Hd.
  { rewrite fn_lookup_insert_ne by done. apply fn_lookup_insert. }
  destruct (dead_tree_faults k _ _ _ Hm' Hd) as (? & _ & _ & ? & ? & _).
  split_and!; try done.
  - eapply models_traversal; [done|apply fn_lookup_insert].
  - rewrite (nodes_of_spec _ _ _ _ _ Hm Hsh).
    eapply nodes_of_spec; [done|apply fn_lookup_insert].
  - intros u Hu Hu'. apply (same_view_traversal k _ _ _ _ _ Hm Hm').
    by rewrite !fn_lookup_insert_ne.
Qed.

Lemma move_assign_transfers_witness :
  built pair ∧ 1 ≠ 0 ∧ is_Some (trees pair !! 1) ∧
  traversal Mutable pair 0 = Ok [1; 2; 3; 4; 5; 6; 7; 8]%Z ∧
  ∃ s', move_assign pair 1 0 = Ok s' ∧
    traversal Mutable s' 1 = Ok [1; 2; 3; 4; 5; 6; 7; 8]%Z ∧
    nodes_of s' 1 = nodes_of pair 0 ∧
    traversal Mutable s' 0 = Fault ∧
    (∀ x, insert s' 0 x = Fault) ∧ (∀ x, find s' 0 x = Fault) ∧
    ∀ u, u ≠ 1 → u ≠ 0 →
      traversal Mutable s' u = traversal Mutable pair u ∧
      nodes_of s' u = nodes_of pair u.
Proof.
  split; [exact built_pair|]. split; [lia|].
  split; [by eexists|]. split; [vm_compute; reflexivity|].
  apply (move_assign_transfers Mutable pair 1 0 [1; 2; 3; 4; 5; 6; 7; 8]%Z
           built_pair); [lia|by eexists|vm_compute; reflexivity].
Defined.

(** X17. An insertion into one tree leaves every other tree of the store
    alone: its cells are not written, it has the nodes it had, and it
    traverses as before. *)
Theorem insert_frame k s t l x :
  built s → traversal k s t = Ok l →
  ∃ s' r, insert s t x = Ok (s', r) ∧ trees s' = trees s ∧
    ∀ u, u ≠ t →
      traversal k s' u = traversal k s u ∧ nodes_of s' u = nodes_of s u ∧
      ∀ a, a ∈ nodes_of s u → nodes s' !! a = nodes s !! a.
Proof.
  intros Hb Htr. open_tree Hb Htr.
  destruct (insert_models s sh t cap T x Hm Hsh)
    as (s' & T' & it & b & Heq & Hi & Hm').
  exists s', (it, b). split; [done|].
  split; [apply (ins_trees _ _ _ _ _ _ _ _ _ _ _ _ Hi)|].
  intros u Hu.
  destruct (same_view_traversal k _ _ _ _ u Hm Hm') as [Ht Hn].
  { by rewrite fn_lookup_insert_ne. }
  split_and!; [done..|]. intros a Ha.
  destruct (sh u) as [[capu Tu]|] eqn:Hshu;
    [|rewrite (nodes_of_dead _ _ _ Hm Hshu) in Ha; by apply elem_of_nil in Ha].
  rewrite (nodes_of_spec _ _ _ _ _ Hm Hshu) in Ha.
  apply (ins_frame _ _ _ _ _ _ _ _ _ _ _ _ Hi).
  - apply (models_owned_lt s sh u); [done|]. by rewrite Hshu.
  - intros Ha'. destruct Hm as (_ & _ & _ & Hdisj). apply Hu.
    apply (Hdisj u t a); [by rewrite Hshu|by rewrite Hsh].
Qed.

Lemma insert_frame_witness :
  built pair ∧ traversal Mutable pair 1 = Ok [] ∧
  ∃ s' r, insert pair 1 4 = Ok (s', r) ∧ trees s' = trees pair ∧
    ∀ u, u ≠ 1 →
      traversal Mutable s' u = traversal Mutable pair u ∧
      nodes_of s' u = nodes_of pair u ∧
      ∀ a, a ∈ nodes_of pair u → nodes s' !! a = nodes pair !! a.
Proof.
  split; [exact built_pair|]. split; [vm_compute; reflexivity|].
  apply (insert_frame Mutable pair 1 [] 4%Z built_pair).
  vm_compute. reflexivity.
Defined.

(** ** What an insertion allocates *)

Lemma nodeInsert_alloc k fuel : ∀ s this x s' it b,
  nodeInsert k fuel s this x = Ok (s', (it, b)) →
  trees s' = trees s ∧
  (length (nodes s') = length (nodes s) ∨
   length (nodes s') = S (length (nodes s)) ∧ b = true ∧
   it = at_ (length (nodes s)) 0) ∧
  (b = false → s' = s).
Proof.
  induction fuel as [|fuel IH]; intros s this x s' it b Hins; [done|].
  cbn [nodeInsert] in Hins.
  apply bind_Ok in Hins as (n & Hn%node_at_Ok & Hins).
  apply lookup_lt_Some in Hn as Hlt.
  destruct (val n) as [|y v] eqn:Hv.
  { injection Hins as <- <- <-. cbn. rewrite length_insert. split_and!; [done|by left|done]. }
  rewrite <-Hv in Hins.
  destruct (decide (val n !! lower_bound (val n) x = Some x)).
  { injection Hins as <- <- <-. split_and!; [done|by left|done]. }
  destruct (decide (length (val n) < maxSize n)).
  { injection Hins as <- <- <-. cbn. rewrite length_insert. split_and!; [done|by left|done]. }
  apply bind_Ok in Hins as (c & Hc & Hins).
  destruct c as [c|]; [by apply IH in Hins|].
  cbn [alloc] in Hins. destruct fuel as [|fuel]; [done|].
  cbn [nodeInsert] in Hins. unfold node_at in Hins at 1.
  cbn [set_node nodes] in Hins.
  rewrite list_lookup_insert_ne, list_lookup_middle in Hins by (done || lia).
  cbn [opt mbind Result_bind new_node val] in Hins.
  injection Hins as <- <- <-. cbn [set_node nodes trees].
  rewrite !length_insert, length_app. cbn [length].
  split_and!; [done| |done]. right. split_and!; [lia|done..].
Qed.

(** X18. An insertion creates at most one node, and only to hold the new
    element alone: either the store has as many cells as before, or it has
    one more, the element was inserted, and the returned position is the
    first entry of the new cell.  It leaves the tree objects as they are,
    and a call that reports [false] has changed nothing at all. *)
Theorem insert_allocates s t x s' it b :
  insert s t x = Ok (s', (it, b)) →
  trees s' = trees s ∧
  (length (nodes s') = length (nodes s) ∨
   length (nodes s') = S (length (nodes s)) ∧ b = true ∧
   it = at_ (length (nodes s)) 0) ∧
  (b = false → s' = s).
Proof.
  unfold insert. intros Hins.
  apply bind_Ok in Hins as (tr & _ & Hins).
  apply bind_Ok in Hins as (r & _ & Hins).
  by eapply nodeInsert_alloc.
Qed.

Lemma insert_allocates_witness :
  insert sample 0 9 = Ok (grown, (at_ 4 0, true)) ∧
  trees grown = trees sample ∧
  (length (nodes grown) = length (nodes sample) ∨
   length (nodes grown) = S (length (nodes sample)) ∧ true = true ∧
   at_ (k:=Mutable) 4 0 = at_ (length (nodes sample)) 0) ∧
  (true = false → grown = sample).
Proof.
  split; [vm_compute; reflexivity|].
  apply (insert_allocates sample 0 9 grown (at_ 4 0) true).
  vm_compute. reflexivity.
Defined.

(** ** Reverse iteration *)

(** X19. [rbegin()] equals [rend()] exactly on a tree without elements;
    on every tree, dereferencing [rbegin()] or advancing it steps back from
    [end()] and faults. *)
Theorem reverse_iteration k s t l :
  built s → traversal k s t = Ok l →
  ∃ rb re, rbegin k s t = Ok rb ∧ rend k s t = Ok re ∧
    (rev_eq rb re = true ↔ l = []) ∧
    rev_deref k s rb = Fault ∧ rev_incr k s rb = Fault.
Proof.
  intros Hb Htr. open_tree Hb Htr.
  exists (mkRev (place T (end_pos T))), (mkRev (place T (begin_pos T))).
  unfold rbegin, rend.
  rewrite (end_spec k s t cap T), (begin_spec k s t cap T) by done.
  split_and!; [done..| | |].
  - unfold rev_eq, it_eq. cbn [current]. rewrite bool_decide_eq_true.
    rewrite place_eq.
    2:{ intros Hemp.
        by destruct (empty_tree_pos s t cap T Hcap Htree Hrep Hwf Hnd Hemp)
          as (_ & -> & _). }
    pose proof (stations_NoDup s t cap T Hcap Hrep Hwf) as Hnodup.
    pose proof (begin_pos_first s t cap T Hcap Htree Hrep Hwf Hnd) as H0.
    assert ((positions T ++ [end_pos T]) !! length (elems T) = Some (end_pos T))
      as Hlast.
    { apply list_lookup_middle. unfold positions, elems. by rewrite !length_fmap. }
    split.
    + intros Heq. rewrite <-Heq in H0.
      pose proof (NoDup_lookup _ _ _ _ Hnodup Hlast H0) as Hlen.
      by destruct (elems T).
    + intros Hnil. rewrite Hnil in Hlast. cbn [length] in Hlast. congruence.
  - unfold rev_deref. cbn [current].
    destruct (decr_end_faults k s t _ Hb Htr) as (e & He & Hd).
    rewrite (end_spec k s t cap T) in He by done. injection He as <-.
    by rewrite Hd.
  - unfold rev_incr. cbn [current].
    destruct (decr_end_faults k s t _ Hb Htr) as (e & He & Hd).
    rewrite (end_spec k s t cap T) in He by done. injection He as <-.
    by rewrite Hd.
Qed.

Lemma reverse_iteration_witness :
  built sample ∧
  traversal Mutable sample 0 = Ok [1; 2; 3; 4; 5; 6; 7; 8]%Z ∧
  ∃ rb re, rbegin Mutable sample 0 = Ok rb ∧ rend Mutable sample 0 = Ok re ∧
    (rev_eq rb re = true ↔ [1; 2; 3; 4; 5; 6; 7; 8]%Z = []) ∧
    rev_deref Mutable sample rb = Fault ∧ rev_incr Mutable sample rb = Fault.
Proof.
  split; [exact built_sample|]. split; [vm_compute; reflexivity|].
  apply (reverse_iteration Mutable sample 0 [1; 2; 3; 4; 5; 6; 7; 8]%Z
           built_sample).
  vm_compute. reflexivity.
Defined.

(** ** The sequence of a tree is a function of its set of elements *)

Lemma sorted_same_members (l l' : list Z) :
  StronglySorted Z.lt l → StronglySorted Z.lt l' →
  (∀ x, x ∈ l ↔ x ∈ l') → l = l'.
Proof.
  intros Hl. revert l'. induction Hl as [|a l1 Hl1 IH Ha]; intros l' Hl' Hmem.
  { destruct l' as [|b l2]; [done|].
    assert (b ∈ []) as []%elem_of_nil. apply Hmem. left. }
  destruct Hl' as [|b l2 Hl2 Hb].
  { assert (a ∈ []) as []%elem_of_nil. apply Hmem. left. }
  rewrite Forall_forall in Ha, Hb.
  assert (a = b) as <-.
  { pose proof (proj1 (Hmem a) ltac:(left)) as [->|Ha2]%elem_of_cons; [done|].
    pose proof (proj2 (Hmem b) ltac:(left)) as [->|Hb1]%elem_of_cons; [done|].
    specialize (Ha _ Hb1). specialize (Hb _ Ha2). lia. }
  f_equal. apply IH; [done|]. intros x. split; intros Hx.
  - assert (x ∈ a :: l2) as [->|?]%elem_of_cons; [apply Hmem; by right| |done].
    specialize (Ha _ Hx). lia.
  - assert (x ∈ a :: l1) as [->|?]%elem_of_cons; [apply Hmem; by right| |done].
    specialize (Hb _ Hx). lia.
Qed.

Lemma build_sorted k cap es :
  capacity_ok cap →
  ∃ s t l, build cap es = Ok (s, t) ∧ traversal k s t = Ok l ∧
           StronglySorted Z.lt l ∧ ∀ x, x ∈ l ↔ x ∈ es.
Proof.
  intros Hcap. destruct Inv_empty as [sh0 Hsh0].
  pose proof (construct_models empty_store sh0 cap Hsh0 Hcap) as Hm.
  set (s0 := (construct empty_store cap).1) in *.
  assert (construct empty_store cap = (s0, 0)) as Hc by reflexivity.
  change (length (trees empty_store)) with 0 in Hm.
  change (length (nodes empty_store)) with 0 in Hm.
  set (T0 := SNode 0 [] (replicate (S cap) None)) in *.
  destruct (inserts_models _ _ 0 cap T0 es Hm (fn_lookup_insert _ _ _))
    as (s' & T' & sh' & Heq & Hm' & Ht' & _ & Helems).
  exists s', 0, (elems T'). unfold build. rewrite Hc, Heq.
  cbn [mbind Result_bind].
  destruct (models_live _ _ _ _ _ Hm' Ht') as (_ & _ & _ & Hwf & _).
  destruct (wfS_sorted _ _ _ _ Hwf) as [Hs _].
  split_and!; [done|by eapply models_traversal|done|].
  intros x. rewrite Helems.
  assert (elems T0 = []) as ->.
  { apply leaf_elems; [apply childless_replicate|].
    rewrite length_replicate. simpl. lia. }
  split; [by intros [?%elem_of_nil|?]|auto].
Qed.

(** X20. Two trees that received the same set of elements traverse alike,
    whatever the order of the insertions, the repetitions among them and
    the capacities of the nodes, from 1 up to [2^31 - 1]. *)
Theorem traversal_of_set k cap cap' es es' :
  capacity_ok cap → capacity_ok cap' → (∀ x, x ∈ es ↔ x ∈ es') →
  ∃ s t s' t' l,
    build cap es = Ok (s, t) ∧ build cap' es' = Ok (s', t') ∧
    traversal k s t = Ok l ∧ traversal k s' t' = Ok l.
Proof.
  intros Hcap Hcap' Hmem.
  destruct (build_sorted k cap es Hcap) as (s & t & l & Hb & Htr & Hs & Hl).
  destruct (build_sorted k cap' es' Hcap') as (s' & t' & l' & Hb' & Htr' & Hs' & Hl').
  exists s, t, s', t', l. split_and!; [done..|].
  rewrite Htr'. f_equal. apply sorted_same_members; [done..|].
  intros x. by rewrite Hl, Hl', Hmem.
Qed.

Lemma traversal_of_set_witness :
  capacity_ok 3 ∧ capacity_ok 2 ∧
  (∀ x, x ∈ [5; 3; 8; 1; 4; 7; 2; 6]%Z ↔ x ∈ [1; 2; 2; 3; 8; 7; 6; 5; 4; 1]%Z) ∧
  ∃ s t s' t' l,
    build 3 [5; 3; 8; 1; 4; 7; 2; 6]%Z = Ok (s, t) ∧
    build 2 [1; 2; 2; 3; 8; 7; 6; 5; 4; 1]%Z = Ok (s', t') ∧
    traversal Mutable s t = Ok l ∧ traversal Mutable s' t' = Ok l.
Proof.
  assert (∀ x, x ∈ [5; 3; 8; 1; 4; 7; 2; 6]%Z
               ↔ x ∈ [1; 2; 2; 3; 8; 7; 6; 5; 4; 1]%Z) as H.
  { intros x. rewrite !elem_of_cons, !elem_of_nil. lia. }
  split; [split; lia|]. split; [split; lia|]. split; [exact H|].
  apply (traversal_of_set Mutable 3 2 [5; 3; 8; 1; 4; 7; 2; 6]%Z
           [1; 2; 2; 3; 8; 7; 6; 5; 4; 1]%Z); [split; lia|split; lia|exact H].
Defined.

(** ** Every tree of a built store *)

(** X21. Whatever calls produced the store - insertions, copies, moves,
    assignments - each of its trees traverses in strictly increasing order,
    and further insertions give the strictly increasing sequence of what it
    held and what was inserted. *)
Theorem sorted_in_every_store k s t l :
  built s → traversal k s t = Ok l →
  StronglySorted Z.lt l ∧
  ∀ es, ∃ s' l',
    inserts s t es = Ok s' ∧ traversal k s' t = Ok l' ∧
    StronglySorted Z.lt l' ∧ ∀ x, x ∈ l' ↔ x ∈ l ∨ x ∈ es.
Proof.
  intros Hb Htr. open_tree Hb Htr. split.
  - by destruct (wfS_sorted _ _ _ _ Hwf).
  - intros es.
    destruct (inserts_models _ _ t cap T es Hm Hsh)
      as (s' & T' & sh' & Heq & Hm' & Ht' & _ & Helems).
    exists s', (elems T').
    destruct (models_live _ _ _ _ _ Hm' Ht') as (_ & _ & _ & Hwf' & _).
    split_and!; [done|by eapply models_traversal| |done].
    by destruct (wfS_sorted _ _ _ _ Hwf').
Qed.

Lemma sorted_in_every_store_witness :
  built pair ∧ traversal Mutable pair 0 = Ok [1; 2; 3; 4; 5; 6; 7; 8]%Z ∧
  StronglySorted Z.lt [1; 2; 3; 4; 5; 6; 7; 8]%Z ∧
  ∀ es, ∃ s' l',
    inserts pair 0 es = Ok s' ∧ traversal Mutable s' 0 = Ok l' ∧
    StronglySorted Z.lt l' ∧
    ∀ x, x ∈ l' ↔ x ∈ [1; 2; 3; 4; 5; 6; 7; 8]%Z ∨ x ∈ es.
Proof.
  split; [exact built_pair|]. split; [vm_compute; reflexivity|].
  apply (sorted_in_every_store Mutable pair 0 [1; 2; 3; 4; 5; 6; 7; 8]%Z
           built_pair).
  vm_compute. reflexivity.
Defined.

(** ** Positions across a move *)

(** X22. Positions survive a move: the position reached after [i] steps in
    the source before the move constructor ran is the position reached
    after [i] steps in the new tree afterwards, and it dereferences to the
    same element. *)
Theorem move_keeps_positions k s t l :
  built s → traversal k s t = Ok l →
  ∃ s', move_construct s t = Ok (s', length (trees s)) ∧
    ∀ i, i ≤ length l →
      ∃ p, (b ← begin_ k s t; iter_n k (incr k) i s b) = Ok p ∧
           (b ← begin_ k s' (length (trees s)); iter_n k (incr k) i s' b) = Ok p ∧
           deref k s' p = deref k s p.
Proof.
  intros Hb Htr. open_tree Hb Htr.
  destruct (move_construct_models s sh t cap T Hm Hsh) as (s' & Heq & Hm').
  exists s'. split; [done|]. intros i Hi.
  destruct (models_live _ _ _ _ _ Hm' (fn_lookup_insert _ _ _))
    as (Htree' & _ & Hrep' & _ & _).
  destruct (lookup_lt_is_Some_2 (positions T ++ [end_pos T]) i) as [p Hp].
  { rewrite (stations_length T). lia. }
  exists (place T p). split_and!.
  - by apply (nth_station k s t cap T Hcap Htree Hrep Hwf Hnd).
  - by apply (nth_station k s' _ cap T Hcap Htree' Hrep' Hwf Hnd).
  - destruct (decide (sval T = [])) as [Hemp|Hne].
    { by rewrite (place_empty _ _ Hemp). }
    rewrite (place_nonempty _ _ Hne).
    destruct (decide (i < length (elems T))) as [Hlt|Hge].
    + destruct (lookup_lt_is_Some_2 (elems T) i) as [x Hx]; [done|].
      destruct (station_item T i x Hx) as (q & Hq & Hin).
      assert (q = p) as -> by congruence.
      by rewrite (item_deref k s t cap T Hrep _ _ Hin),
                 (item_deref k s' _ cap T Hrep' _ _ Hin).
    + assert (i = length (elems T)) as -> by lia.
      rewrite list_lookup_middle in Hp
        by (unfold positions, elems; by rewrite !length_fmap).
      injection Hp as <-.
      destruct (end_pos_spec _ _ _ _ _ _ _ Hrep Hwf) as (_ & n & Hn & Hidx).
      destruct (end_pos_spec _ _ _ _ _ _ _ Hrep' Hwf) as (_ & n' & Hn' & Hidx').
      unfold deref, node_at. cbn [of_vi pos opt mbind Result_bind].
      rewrite Hn, Hn'.
      cbn [opt mbind Result_bind]. rewrite Hidx at 2. rewrite Hidx'.
      by rewrite !lookup_ge_None_2 by lia.
Qed.

Lemma move_keeps_positions_witness :
  built sample ∧
  traversal Mutable sample 0 = Ok [1; 2; 3; 4; 5; 6; 7; 8]%Z ∧
  ∃ s', move_construct sample 0 = Ok (s', length (trees sample)) ∧
    ∀ i, i ≤ 8 →
      ∃ p, (b ← begin_ Mutable sample 0;
            iter_n Mutable (incr Mutable) i sample b) = Ok p ∧
           (b ← begin_ Mutable s' (length (trees sample));
            iter_n Mutable (incr Mutable) i s' b) = Ok p ∧
           deref Mutable s' p = deref Mutable sample p.
Proof.
  split; [exact built_sample|]. split; [vm_compute; reflexivity|].
  apply (move_keeps_positions Mutable sample 0 [1; 2; 3; 4; 5; 6; 7; 8]%Z
           built_sample).
  vm_compute. reflexivity.
Defined.

Lemma built_moved : built moved.
Proof.
  apply (built_move sample 0 moved 1 built_sample). vm_compute. reflexivity.
Defined.

(** ** Assignment to any tree object *)

(** X23. Copy assignment succeeds on every tree object, also one that was
    moved from: whatever it held is replaced, it then traverses as the
    right-hand side, which is unchanged, and every other tree is as it
    was. *)
Theorem copy_assign_replaces k s this rhs l :
  built s → this ≠ rhs → is_Some (trees s !! this) →
  traversal k s rhs = Ok l →
  ∃ s', copy_assign s this rhs = Ok s' ∧
    traversal k s' this = Ok l ∧ traversal k s' rhs = Ok l ∧
    ∀ u, u ≠ this → u < length (trees s) →
      traversal k s' u = traversal k s u ∧ nodes_of s' u = nodes_of s u.
Proof.
  intros Hb Hne Hthis Htr. pose proof Htr as Htr0. open_tree Hb Htr.
  destruct (copy_assign_models s sh this rhs cap T Hm Hsh Hne Hthis)
    as (s' & T' & sh' & Heq & Hm' & Ht' & Hothers & Hel).
  exists s'. split; [done|].
  apply lookup_lt_Some in Htree as Hlt.
  split_and!.
  - rewrite <-Hel. by eapply models_traversal.
  - rewrite <-Htr0. apply (same_view_traversal k _ _ _ _ _ Hm Hm'). auto.
  - intros u Hu Hu'. apply (same_view_traversal k _ _ _ _ _ Hm Hm'). auto.
Qed.

Lemma copy_assign_replaces_witness :
  built moved ∧ 0 ≠ 1 ∧ is_Some (trees moved !! 0) ∧
  traversal Mutable moved 1 = Ok [1; 2; 3; 4; 5; 6; 7; 8]%Z ∧
  ∃ s', copy_assign moved 0 1 = Ok s' ∧
    traversal Mutable s' 0 = Ok [1; 2; 3; 4; 5; 6; 7; 8]%Z ∧
    traversal Mutable s' 1 = Ok [1; 2; 3; 4; 5; 6; 7; 8]%Z ∧
    ∀ u, u ≠ 0 → u < length (trees moved) →
      traversal Mutable s' u = traversal Mutable moved u ∧
      nodes_of s' u = nodes_of moved u.
Proof.
  split; [exact built_moved|]. split; [lia|].
  split; [by eexists|]. split; [vm_compute; reflexivity|].
  apply (copy_assign_replaces Mutable moved 0 1 [1; 2; 3; 4; 5; 6; 7; 8]%Z
           built_moved); [lia|by eexists|vm_compute; reflexivity].
Defined.
